(** * gip: a fast parallel GIF encoder (216 web-safe colours)

    A shallow embedding of [gif.go] and the properties of its quantizer,
    container serializer, block compressor and sub-block packetizer.

    Conventions of the embedding.
    - Go's [int], [uint8], [uint16] and [uint32] values are integers of [Z];
      conversions that truncate ([uint8(..)], [uint16(..)]) are written out
      with [mod], and the one product of a caller-chosen number
      ([workers*4]) wraps at 64 bits as Go's [int] does on a 64-bit
      platform.  Division is Go's, rounding towards zero ([÷]).
    - A byte is a [Z] in [0,256); a byte slice is a [list Z].
    - Code that writes to an [io.Writer] is a state transformer over the
      writer ([M W A]); every [Write] returns the count and the error the Go
      method returns, and the embedded functions check or drop that error
      exactly where the source does.
    - Goroutines of one stage write to disjoint rows (or to private
      buffers), so a stage is embedded as its workers run in index order.
    - The standard-library pieces the encoder calls ([bufio.Writer],
      [bytes.Buffer], [compress/lzw], [image], [image/color]) are embedded
      from their Go sources next to the code that uses them. *)

From Stdlib Require Import ZArith List Lia.
From stdpp Require Import base option list list_numbers gmap.

Local Open Scope Z_scope.

(** ** Integers and bytes *)

Definition uint8 (z : Z) : Z := z mod 256.
Definition uint16 (z : Z) : Z := z mod 65536.

(** Go's 64-bit [int]: the value a result takes after wrap-around. *)
Definition wrap_int (z : Z) : Z := (z + 2 ^ 63) mod 2 ^ 64 - 2 ^ 63.

(** [len(s)] of a slice. *)
Definition len {A} (s : list A) : Z := Z.of_nat (length s).

(** [s[i:j]] for [0 <= i <= j <= len(s)] (Go panics outside of that). *)
Definition slice {A} (s : list A) (i j : Z) : list A :=
  take (Z.to_nat (j - i)) (drop (Z.to_nat i) s).

(** [copy(dst[i:j], src)] seen from [dst]: the first [min(j-i, len(src))]
    bytes of [src] land at offset [i]; the result is the new [dst] and the
    count [copy] returns. *)
Definition copy_into (dst : list Z) (i j : Z) (src : list Z) : list Z * Z :=
  let n := Z.min (j - i) (len src) in
  (take (Z.to_nat i) dst ++ take (Z.to_nat n) src ++ drop (Z.to_nat (i + n)) dst, n).

(** ** Errors *)

(** Go's [error] values are told apart by where they are made: the errors
    of a writer ([io_error]), those [compress/lzw] adds ([lzw.lzw_error]),
    and those of the encoder itself ([error], further down).  An error that
    a layer passes on unchanged is wrapped in the constructor of the layer
    that passed it. *)
Inductive io_error : Type :=
  | ErrShortWrite      (* io.ErrShortWrite *)
  | ErrSink (code : Z) (* whatever the caller's sink reports *).

Global Instance io_error_eq_dec : EqDecision io_error.
Proof. solve_decision. Defined.

(** ** Writers *)

(** State transformers over a writer of type [S]. *)
Definition M (S A : Type) : Type := S → A * S.

Global Instance M_ret {S} : MRet (M S) := λ A a s, (a, s).
Global Instance M_bind {S} : MBind (M S) :=
  λ A B k m s, let '(a, s') := m s in k a s'.

(** [io.Writer]: [Write(p)] returns [(n, err)]. *)
Class Writer (W : Type) := Write : list Z → M W (Z * option io_error).
Global Hint Mode Writer ! : typeclass_instances.

(** [bytes.Buffer]: appends, never fails. *)
Record Buffer : Type := MkBuffer { Bytes : list Z }.

Global Instance Buffer_Writer : Writer Buffer :=
  λ p b, ((len p, None), MkBuffer (Bytes b ++ p)).

(** A sink that accepts [room] more bytes and then reports an error (a full
    disk, a closed pipe): the kind of sink whose failures the encoder has to
    pass on. *)
Record LimitedSink : Type := MkLimited { accepted : list Z; room : Z }.

Global Instance LimitedSink_Writer : Writer LimitedSink :=
  λ p s,
    if decide (len p <= room s)
    then ((len p, None), MkLimited (accepted s ++ p) (room s - len p))
    else ((Z.max 0 (room s), Some (ErrSink 28)),
          MkLimited (accepted s ++ take (Z.to_nat (room s)) p) 0).

(** *** bufio.Writer *)

Module bufio.

Definition defaultBufSize : Z := 4096.

(** [buf] holds the pending bytes [b.buf[0:b.n]]. *)
Record Writer_ (W : Type) : Type :=
  Mk { wr : W; buf : list Z; err : option io_error }.
Arguments Mk {W}.
Arguments wr {W}.
Arguments buf {W}.
Arguments err {W}.

Section Ops.
Context {W : Type} `{!Writer W}.

(** [bufio.NewWriter(w)] for a [w] that is not itself a [*bufio.Writer]
    (which Go would hand back as it is). *)
Definition NewWriter (w : W) : Writer_ W := Mk w [] None.

Definition Available (b : Writer_ W) : Z := defaultBufSize - len (buf b).
Definition Buffered (b : Writer_ W) : Z := len (buf b).

Definition Flush : M (Writer_ W) (option io_error) := λ b,
  match err b with
  | Some e => (Some e, b)
  | None =>
    if decide (len (buf b) = 0) then (None, b) else
    let '((n, e), w') := Write (buf b) (wr b) in
    let e := if decide (n < len (buf b) ∧ e = None) then Some ErrShortWrite else e in
    match e with
    | Some e => (Some e, Mk w' (drop (Z.to_nat n) (buf b)) (Some e))
    | None => (None, Mk w' [] None)
    end
  end.

(** The loop of [Write]; it runs at most twice over a writer that honours
    the [io.Writer] contract, [fuel] bounds it. *)
Fixpoint Write_loop (fuel : nat) (p : list Z) (nn : Z) : M (Writer_ W) (list Z * Z) :=
  λ b,
  match fuel with
  | O => ((p, nn), b)
  | S fuel =>
    if decide (len p > Available b ∧ err b = None) then
      if decide (Buffered b = 0) then
        let '((n, e), w') := Write p (wr b) in
        Write_loop fuel (drop (Z.to_nat n) p) (nn + n) (Mk w' (buf b) e)
      else
        let n := Z.min (Available b) (len p) in
        let '(_, b') := Flush (Mk (wr b) (buf b ++ take (Z.to_nat n) p) (err b)) in
        Write_loop fuel (drop (Z.to_nat n) p) (nn + n) b'
    else ((p, nn), b)
  end.

Definition Write_ (p : list Z) : M (Writer_ W) (Z * option io_error) := λ b,
  let '((p, nn), b) := Write_loop (S (S (S (length p)))) p 0 b in
  match err b with
  | Some e => ((nn, Some e), b)
  | None => ((nn + len p, None), Mk (wr b) (buf b ++ p) None)
  end.

(** [WriteString] goes through the same loop as [Write]. *)
Definition WriteString (s : list Z) : M (Writer_ W) (Z * option io_error) := Write_ s.

Definition WriteByte (c : Z) : M (Writer_ W) (option io_error) := λ b,
  match err b with
  | Some e => (Some e, b)
  | None =>
    if decide (Available b <= 0) then
      let '(e, b') := Flush b in
      match e with
      | Some _ => (err b', b')
      | None => (None, Mk (wr b') (buf b' ++ [c]) (err b'))
      end
    else (None, Mk (wr b) (buf b ++ [c]) None)
  end.

End Ops.

Global Instance Writer_Writer {W} `{!Writer W} : Writer (Writer_ W) := Write_.

End bufio.

(** ** The sub-block packetizer: [blockWriter] *)

Record blockWriter (W : Type) : Type :=
  MkBlockWriter { bw_w : W; bw_buf : list Z; bw_n : Z }.
Arguments MkBlockWriter {W}.
Arguments bw_w {W}.
Arguments bw_buf {W}.
Arguments bw_n {W}.

(** [&blockWriter{w: w}]: a zeroed 256-byte array and [n = 0]. *)
Definition newBlockWriter {W} (w : W) : blockWriter W :=
  MkBlockWriter w (replicate 256 0) 0.

Section BlockWriter.
Context {W : Type} `{!Writer W}.

(** The loop [for len(p) > 0] of [blockWriter.Write].  Every round but a
    first one entered with [n = 255] consumes a byte, so [S (length p)]
    rounds are enough ([blockWriter_Write_fuel]). *)
Fixpoint blockWriter_Write_loop (fuel : nat) (p : list Z) (total : Z)
    : M (blockWriter W) (Z * option io_error) := λ b,
  match fuel with
  | O => ((total, None), b)
  | S fuel =>
    if decide (len p > 0) then
      let '(buf, n) := copy_into (bw_buf b) (bw_n b + 1) 256 p in
      let bn := bw_n b + n in
      let p := drop (Z.to_nat n) p in
      let total := total + n in
      if decide (bn = 255) then
        let buf := <[0%nat := 255]> buf in
        let '((_, e), w') := Write (slice buf 0 256) (bw_w b) in
        match e with
        | Some e => ((total, Some e), MkBlockWriter w' buf bn)
        | None => blockWriter_Write_loop fuel p total (MkBlockWriter w' buf 0)
        end
      else blockWriter_Write_loop fuel p total (MkBlockWriter (bw_w b) buf bn)
    else ((total, None), b)
  end.

Definition blockWriter_Write (p : list Z) : M (blockWriter W) (Z * option io_error) :=
  blockWriter_Write_loop (S (length p)) p 0.

Definition blockWriter_close : M (blockWriter W) (option io_error) := λ b,
  if decide (bw_n b > 0) then
    let buf := <[0%nat := uint8 (bw_n b)]> (bw_buf b) in
    let '((_, e), w') := Write (slice buf 0 (bw_n b + 1)) (bw_w b) in
    (e, MkBlockWriter w' buf (bw_n b))
  else (None, b).

(** A caller that writes the chunks [ps] one after the other, stopping at
    the first error, and then closes. *)
Fixpoint blockWriter_writes (ps : list (list Z)) : M (blockWriter W) (option io_error) :=
  match ps with
  | [] => mret None
  | p :: ps =>
    r ← blockWriter_Write p;
    match r.2 with
    | Some e => mret (Some e)
    | None => blockWriter_writes ps
    end
  end.

End BlockWriter.

Global Instance blockWriter_Writer {W} `{!Writer W} : Writer (blockWriter W) :=
  blockWriter_Write.

(** *** The sub-block framing, as the format describes it *)

(** One block: a length byte and that many data bytes. *)
Definition frame (c : list Z) : list Z := len c :: c.

(** [k] full blocks of 255 bytes, then what is left as a last short block
    (none when nothing is left). *)
Fixpoint split_blocks (k : nat) (l : list Z) : list (list Z) :=
  match k with
  | O => match l with [] => [] | _ => [l] end
  | S k => take 255 l :: split_blocks k (drop 255 l)
  end.

Definition blocks (l : list Z) : list (list Z) :=
  split_blocks (length l / 255) l.

Definition frames (l : list Z) : list Z := mjoin (frame <$> blocks l).

(** What a decoder's block reader recovers from framed data: the data
    bytes of the blocks up to a zero-length block or the end of input. *)
Fixpoint unframe (fuel : nat) (s : list Z) : list Z :=
  match fuel with
  | O => []
  | S fuel =>
    match s with
    | [] => []
    | n :: s =>
      if decide (n = 0) then []
      else take (Z.to_nat n) s ++ unframe fuel (drop (Z.to_nat n) s)
    end
  end.

Definition readBlocks (s : list Z) : list Z := unframe (length s) s.

(** ** compress/lzw *)

Module lzw.

Definition maxCode : Z := 2 ^ 12 - 1.
Definition invalidCode : Z := 2 ^ 32 - 1.
Definition uint32 (z : Z) : Z := z mod 2 ^ 32.

Inductive lzw_error : Type :=
  | ErrInputTooLarge       (* "lzw: input byte too large for the litWidth" *)
  | ErrClosed              (* errClosed: write after close *)
  | ErrIO (e : io_error)   (* an error of the destination *).

Global Instance lzw_error_eq_dec : EqDecision lzw_error.
Proof. solve_decision. Defined.

(** *** The writer, in [LSB] order

    [NewWriter] wraps a destination that has no [WriteByte] (such as a
    [blockWriter]) in a [bufio.Writer].  The open-addressing hash table
    from the 20-bit key [code<<8 | byte] to a code is a finite map. *)
Record Writer_ (W : Type) : Type := Mk {
  w : bufio.Writer_ W;
  litWidth : Z;
  nBits : Z;
  width : Z;
  bits : Z;
  hi : Z;
  overflow : Z;
  savedCode : Z;
  err : option lzw_error;
  table : gmap Z Z
}.
Arguments Mk {W}.
Arguments w {W}.
Arguments litWidth {W}.
Arguments nBits {W}.
Arguments width {W}.
Arguments bits {W}.
Arguments hi {W}.
Arguments overflow {W}.
Arguments savedCode {W}.
Arguments err {W}.
Arguments table {W}.

Inductive incHi_result : Type :=
  | IncOk
  | OutOfCodes          (* errOutOfCodes *)
  | IncErr (e : lzw_error).

Section Ops.
Context {W : Type} `{!Writer W}.

Definition NewWriter (dst : W) (lw : Z) : Writer_ W :=
  Mk (bufio.NewWriter dst) lw 0 (1 + lw) 0 (2 ^ lw + 1) (2 ^ (lw + 1))
     invalidCode None ∅.

Definition with_w (z : Writer_ W) (w' : bufio.Writer_ W) : Writer_ W :=
  Mk w' (litWidth z) (nBits z) (width z) (bits z) (hi z) (overflow z)
     (savedCode z) (err z) (table z).
Definition with_bits (z : Writer_ W) (bits' nBits' : Z) : Writer_ W :=
  Mk (w z) (litWidth z) nBits' (width z) bits' (hi z) (overflow z)
     (savedCode z) (err z) (table z).
Definition with_err (z : Writer_ W) (e : option lzw_error) : Writer_ W :=
  Mk (w z) (litWidth z) (nBits z) (width z) (bits z) (hi z) (overflow z)
     (savedCode z) e (table z).
Definition with_savedCode (z : Writer_ W) (c : Z) : Writer_ W :=
  Mk (w z) (litWidth z) (nBits z) (width z) (bits z) (hi z) (overflow z)
     c (err z) (table z).
Definition with_table (z : Writer_ W) (t : gmap Z Z) : Writer_ W :=
  Mk (w z) (litWidth z) (nBits z) (width z) (bits z) (hi z) (overflow z)
     (savedCode z) (err z) t.
Definition with_codes (z : Writer_ W) (width' hi' overflow' : Z) : Writer_ W :=
  Mk (w z) (litWidth z) (nBits z) width' (bits z) hi' overflow'
     (savedCode z) (err z) (table z).

(** [for w.nBits >= 8 { WriteByte(uint8(w.bits)); bits >>= 8; nBits -= 8 }] *)
Fixpoint writeLSB_loop (rounds : nat) : M (Writer_ W) (option lzw_error) := λ z,
  match rounds with
  | O => (None, z)
  | S rounds =>
    let '(e, w') := bufio.WriteByte (uint8 (bits z)) (w z) in
    match e with
    | Some e => (Some (ErrIO e), with_w z w')
    | None =>
      writeLSB_loop rounds
        (with_bits (with_w z w') (Z.shiftr (bits z) 8) (nBits z - 8))
    end
  end.

Definition writeLSB (c : Z) : M (Writer_ W) (option lzw_error) := λ z,
  let z := with_bits z (Z.lor (bits z) (uint32 (Z.shiftl c (nBits z))))
                     (nBits z + width z) in
  writeLSB_loop (Z.to_nat (nBits z ÷ 8)) z.

Definition incHi : M (Writer_ W) incHi_result := λ z,
  let hi' := hi z + 1 in
  let z := if decide (hi' = overflow z)
           then with_codes z (width z + 1) hi' (Z.shiftl (overflow z) 1)
           else with_codes z (width z) hi' (overflow z) in
  if decide (hi z = maxCode) then
    let clear := Z.shiftl 1 (litWidth z) in
    let '(e, z) := writeLSB clear z in
    match e with
    | Some e => (IncErr e, z)
    | None =>
      (OutOfCodes,
       with_table (with_codes z (litWidth z + 1) (clear + 1) (Z.shiftl clear 1)) ∅)
    end
  else (IncOk, z).

(** The loop over the input bytes of [Write]; [code] is the code of the
    longest match so far. *)
Fixpoint Write_loop (p : list Z) (code : Z) : M (Writer_ W) (option lzw_error * Z) :=
  match p with
  | [] => λ z, ((None, code), z)
  | x :: p => λ z,
    let literal := x in
    let key := Z.lor (Z.shiftl code 8) literal in
    match table z !! key with
    | Some c => Write_loop p c z
    | None =>
      let '(e, z) := writeLSB code z in
      match e with
      | Some e => ((Some e, code), with_err z (Some e))
      | None =>
        let code := literal in
        let '(r, z) := incHi z in
        match r with
        | OutOfCodes => Write_loop p code z
        | IncErr e => ((Some e, code), with_err z (Some e))
        | IncOk => Write_loop p code (with_table z (<[key := hi z]> (table z)))
        end
      end
    end
  end.

Definition Write_ (p : list Z) : M (Writer_ W) (Z * option lzw_error) := λ z,
  match err z with
  | Some e => ((0, Some e), z)
  | None =>
    if decide (len p = 0) then ((0, None), z) else
    let maxLit := uint8 (Z.shiftl 1 (litWidth z) - 1) in
    if decide (maxLit ≠ 255 ∧ Exists (λ x, x > maxLit) p)
    then ((0, Some ErrInputTooLarge), with_err z (Some ErrInputTooLarge)) else
    let n := len p in
    let '(e, code, p, z) :=
      if decide (savedCode z = invalidCode) then
        let clear := Z.shiftl 1 (litWidth z) in
        let '(e, z) := writeLSB clear z in
        (e, uint32 (hd 0 p), tl p, z)
      else (None, savedCode z, p, z) in
    match e with
    | Some e => ((0, Some e), z)
    | None =>
      let '((e, code), z) := Write_loop p code z in
      match e with
      | Some e => ((0, Some e), z)
      | None => ((n, None), with_savedCode z code)
      end
    end
  end.

Definition Close : M (Writer_ W) (option lzw_error) := λ z,
  match err z with
  | Some e => (if decide (e = ErrClosed) then None else Some e, z)
  | None =>
    let z := with_err z (Some ErrClosed) in
    let '(e, z) :=
      if decide (savedCode z ≠ invalidCode) then
        let '(e, z) := writeLSB (savedCode z) z in
        match e with
        | Some e => (Some e, z)
        | None =>
          let '(r, z) := incHi z in
          (match r with IncErr e => Some e | _ => None end, z)
        end
      else writeLSB (Z.shiftl 1 (litWidth z)) z in
    match e with
    | Some e => (Some e, z)
    | None =>
      let eof := Z.shiftl 1 (litWidth z) + 1 in
      let '(e, z) := writeLSB eof z in
      match e with
      | Some e => (Some e, z)
      | None =>
        let '(e, z) :=
          if decide (nBits z > 0) then
            let '(e, w') := bufio.WriteByte (uint8 (bits z)) (w z) in
            (ErrIO <$> e, with_w z w')
          else (None, z) in
        match e with
        | Some e => (Some e, z)
        | None =>
          let '(e, w') := bufio.Flush (w z) in
          (ErrIO <$> e, with_w z w')
        end
      end
    end
  end.

End Ops.

(** *** The reader, in [LSB] order

    What a GIF decoder runs over the de-framed image data.  [prefix] and
    [suffix] are the reader's two 4096-entry arrays (zero where unset). *)

Definition decoderInvalidCode : Z := 65535.
Definition maxWidth : Z := 12.

Inductive status : Type :=
  | EndOfData       (* the end-of-information code was read: io.EOF *)
  | UnexpectedEOF   (* the input ran out first: io.ErrUnexpectedEOF *)
  | InvalidCode     (* "lzw: invalid code" *).

Global Instance status_eq_dec : EqDecision status.
Proof. solve_decision. Defined.

Record Reader_ : Type := MkReader {
  r_in : list Z;
  r_bits : Z;
  r_nBits : Z;
  r_width : Z;
  r_hi : Z;
  r_overflow : Z;
  r_last : Z;
  r_prefix : gmap Z Z;
  r_suffix : gmap Z Z
}.

Definition NewReader (input : list Z) (lw : Z) : Reader_ :=
  MkReader input 0 0 (1 + lw) (2 ^ lw + 1) (2 ^ (1 + lw)) decoderInvalidCode ∅ ∅.

Definition entry (m : gmap Z Z) (c : Z) : Z := default 0 (m !! c).

(** [for r.nBits < r.width { read a byte }]: two bytes at most. *)
Fixpoint readLSB_fill (rounds : nat) (r : Reader_) : option Reader_ :=
  match rounds with
  | O => Some r
  | S rounds =>
    if decide (r_nBits r < r_width r) then
      match r_in r with
      | [] => None
      | x :: input =>
        readLSB_fill rounds
          (MkReader input (Z.lor (r_bits r) (uint32 (Z.shiftl x (r_nBits r))))
                    (r_nBits r + 8) (r_width r) (r_hi r) (r_overflow r)
                    (r_last r) (r_prefix r) (r_suffix r))
      end
    else Some r
  end.

Definition readLSB (r : Reader_) : option (Z * Reader_) :=
  r ← readLSB_fill 2 r;
  Some (Z.land (r_bits r) (Z.shiftl 1 (r_width r) - 1),
        MkReader (r_in r) (Z.shiftr (r_bits r) (r_width r))
                 (r_nBits r - r_width r) (r_width r) (r_hi r) (r_overflow r)
                 (r_last r) (r_prefix r) (r_suffix r)).

(** The bytes code [c] stands for, followed by [acc]: the suffix chain is
    walked back to a literal. *)
Fixpoint chain (fuel : nat) (clear : Z) (prefix suffix : gmap Z Z)
    (c : Z) (acc : list Z) : list Z :=
  match fuel with
  | O => acc
  | S fuel =>
    if decide (c >= clear)
    then chain fuel clear prefix suffix (entry prefix c) (entry suffix c :: acc)
    else uint8 c :: acc
  end.

(** The tail of a round of [decode]: [r.last, r.hi = code, r.hi+1] and the
    width step. *)
Definition advance (code : Z) (r : Reader_) : Reader_ :=
  let hi := r_hi r + 1 in
  if decide (hi >= r_overflow r) then
    if decide (r_width r = maxWidth)
    then MkReader (r_in r) (r_bits r) (r_nBits r) (r_width r) (hi - 1)
                  (r_overflow r) decoderInvalidCode (r_prefix r) (r_suffix r)
    else MkReader (r_in r) (r_bits r) (r_nBits r) (r_width r + 1) hi
                  (Z.shiftl 1 (r_width r + 1)) code (r_prefix r) (r_suffix r)
  else MkReader (r_in r) (r_bits r) (r_nBits r) (r_width r) hi
                (r_overflow r) code (r_prefix r) (r_suffix r).

(** Save what the [hi] code expands to. *)
Definition remember (head : Z) (r : Reader_) : Reader_ :=
  if decide (r_last r ≠ decoderInvalidCode) then
    MkReader (r_in r) (r_bits r) (r_nBits r) (r_width r) (r_hi r)
             (r_overflow r) (r_last r)
             (<[r_hi r := r_last r]> (r_prefix r))
             (<[r_hi r := uint8 head]> (r_suffix r))
  else r.

Fixpoint decode (fuel : nat) (lw : Z) (r : Reader_) (out : list Z)
    : list Z * status :=
  match fuel with
  | O => (out, UnexpectedEOF)
  | S fuel =>
    let clear := Z.shiftl 1 lw in
    let eof := clear + 1 in
    match readLSB r with
    | None => (out, UnexpectedEOF)
    | Some (code, r) =>
      if decide (code < clear) then
        decode fuel lw (advance code (remember code r)) (out ++ [uint8 code])
      else if decide (code = clear) then
        decode fuel lw
          (MkReader (r_in r) (r_bits r) (r_nBits r) (1 + lw) eof
                    (Z.shiftl 1 (1 + lw)) decoderInvalidCode
                    (r_prefix r) (r_suffix r)) out
      else if decide (code = eof) then (out, EndOfData)
      else if decide (code <= r_hi r) then
        let s :=
          if decide (code = r_hi r ∧ r_last r ≠ decoderInvalidCode) then
            let e := chain 4096 clear (r_prefix r) (r_suffix r) (r_last r) [] in
            e ++ [hd 0 e]
          else chain 4096 clear (r_prefix r) (r_suffix r) code [] in
        decode fuel lw (advance code (remember (hd 0 s) r)) (out ++ s)
      else (out, InvalidCode)
    end
  end.

(** All the reader yields from [input], and how it stopped. *)
Definition ReadAll (input : list Z) (lw : Z) : list Z * status :=
  decode (S (8 * length input)) lw (NewReader input lw) [].

End lzw.

(** ** Errors of the encoder *)

Inductive error : Type :=
  | ErrTooLarge                   (* "gif: image is too large to encode" *)
  | ErrEmptyPalette               (* "gif: cannot encode image block with empty palette" *)
  | ErrLzw (e : lzw.lzw_error)    (* returned by the LZW writer *)
  | ErrWrite (e : io_error)       (* returned by a [Write] or [Flush] *).

Global Instance error_eq_dec : EqDecision error.
Proof. solve_decision. Defined.

(** Compressing [data] into memory the way one strip is compressed:
    [lzw.NewWriter(&blockWriter{w: &buf}, lzw.LSB, litWidth)], [Write],
    [Close], [bw.close()].  The result is the first error or the buffer. *)
Definition compressToBuffer (litWidth : Z) (data : list Z) : option error * list Z :=
  let bw := newBlockWriter (MkBuffer []) in
  let lzww := lzw.NewWriter bw litWidth in
  let '((_, e), lzww) := lzw.Write_ data lzww in
  match e with
  | Some e => (Some (ErrLzw e), [])
  | None =>
    let '(e, lzww) := lzw.Close lzww in
    match e with
    | Some e => (Some (ErrLzw e), [])
    | None =>
      let '(e, bw) := blockWriter_close (bufio.wr (lzw.w lzww)) in
      match e with
      | Some e => (Some (ErrWrite e), [])
      | None => (None, Bytes (bw_w bw))
      end
    end
  end.

(** What a decoder gets back from the image data of a frame. *)
Definition decodeImageData (litWidth : Z) (payload : list Z) : list Z * lzw.status :=
  lzw.ReadAll (readBlocks payload) litWidth.

(** ** image/color *)

Module color.

(** A [Color] is one of the standard implementations, or any other one,
    given by what its [RGBA] method returns. *)
Inductive Color : Type :=
  | NRGBA (r g b a : Z)    (* 8 bits a channel, not premultiplied *)
  | RGBA (r g b a : Z)     (* 8 bits a channel, premultiplied *)
  | RGBA64 (r g b a : Z)   (* 16 bits a channel, premultiplied *)
  | Custom (r g b a : Z)   (* uint32 results of some other RGBA method *).

Global Instance Color_inhabited : Inhabited Color := populate (RGBA 0 0 0 0).

(** The [RGBA] method: [uint32] channels, 16 bits of range for the
    standard types. *)
Definition Color_RGBA (c : Color) : Z * Z * Z * Z :=
  let wide (v : Z) := Z.lor v (Z.shiftl v 8) in
  match c with
  | NRGBA r g b a =>
    (wide r * a ÷ 255, wide g * a ÷ 255, wide b * a ÷ 255, wide a)
  | RGBA r g b a => (wide r, wide g, wide b, wide a)
  | RGBA64 r g b a => (r, g, b, a)
  | Custom r g b a => (r, g, b, a)
  end.

(** The struct [color.RGBA64] that [RGBA64At] returns: [uint16] fields. *)
Record RGBA64_ : Type := MkRGBA64 { R : Z; G : Z; B : Z; A : Z }.

(** [color.NRGBAModel.Convert(c).(color.NRGBA)], as the four fields. *)
Definition NRGBAModel_Convert (c : Color) : Z * Z * Z * Z :=
  match c with
  | NRGBA r g b a => (r, g, b, a)
  | _ =>
    let '(r, g, b, a) := Color_RGBA c in
    if decide (a = 65535) then
      (uint8 (Z.shiftr r 8), uint8 (Z.shiftr g 8), uint8 (Z.shiftr b 8), 255)
    else if decide (a = 0) then (0, 0, 0, 0)
    else
      let r := lzw.uint32 (r * 65535) ÷ a in
      let g := lzw.uint32 (g * 65535) ÷ a in
      let b := lzw.uint32 (b * 65535) ÷ a in
      (uint8 (Z.shiftr r 8), uint8 (Z.shiftr g 8), uint8 (Z.shiftr b 8),
       uint8 (Z.shiftr a 8))
  end.

End color.

(** [palette.WebSafe]: the 6x6x6 cube, red outermost, steps of [0x33]. *)
Module palette.

Definition WebSafe : list color.Color :=
  r ← seqZ 0 6; g ← seqZ 0 6; b ← seqZ 0 6;
  [color.RGBA (51 * r) (51 * g) (51 * b) 255].

End palette.

(** ** image *)

Module image.

Record Point : Type := MkPoint { X : Z; Y : Z }.
Record Rectangle : Type := MkRect { Min : Point; Max : Point }.

Global Instance Point_eq_dec : EqDecision Point.
Proof. solve_decision. Defined.

Definition Dx (r : Rectangle) : Z := X (Max r) - X (Min r).
Definition Dy (r : Rectangle) : Z := Y (Max r) - Y (Min r).

(** [p.In(r)] *)
Definition In (p : Point) (r : Rectangle) : Prop :=
  X (Min r) <= X p ∧ X p < X (Max r) ∧ Y (Min r) <= Y p ∧ Y p < Y (Max r).

Global Instance In_dec p r : Decision (In p r).
Proof. unfold In. apply _. Defined.

(** [r.Sub(p)] *)
Definition Sub (r : Rectangle) (p : Point) : Rectangle :=
  MkRect (MkPoint (X (Min r) - X p) (Y (Min r) - Y p))
         (MkPoint (X (Max r) - X p) (Y (Max r) - Y p)).

(** The source image: [image.Image], and [RGBA64At] when the value also
    is an [image.RGBA64Image]. *)
Record Image : Type := MkImage {
  Bounds : Rectangle;
  At : Z → Z → color.Color;
  RGBA64At : option (Z → Z → color.RGBA64_)
}.

Record Paletted : Type := MkPaletted {
  Pix : list Z;
  Stride : Z;
  Rect : Rectangle;
  Palette : list color.Color
}.

(** [image.NewPaletted(r, p)] (it panics on a negative width or height). *)
Definition NewPaletted (r : Rectangle) (p : list color.Color) : Paletted :=
  MkPaletted (replicate (Z.to_nat (1 * Dx r * Dy r)) 0) (1 * Dx r) r p.

Definition PixOffset (p : Paletted) (x y : Z) : Z :=
  (y - Y (Min (Rect p))) * Stride p + (x - X (Min (Rect p))) * 1.

Definition SetColorIndex (p : Paletted) (x y index : Z) : Paletted :=
  if decide (In (MkPoint x y) (Rect p)) then
    MkPaletted (<[Z.to_nat (PixOffset p x y) := index]> (Pix p))
               (Stride p) (Rect p) (Palette p)
  else p.

End image.

(** ** Package gip *)

Definition FastGifLut : list Z :=
  [0; 0; 0; 0; 0; 0; 0; 0; 0; 0; 0; 0; 0; 0; 0; 0; 0; 0; 0; 0; 0; 0; 0; 0; 0; 0; 1; 1; 1; 1; 1; 1;
   1; 1; 1; 1; 1; 1; 1; 1; 1; 1; 1; 1; 1; 1; 1; 1; 1; 1; 1; 1; 1; 1; 1; 1; 1; 1; 1; 1; 1; 1; 1; 1;
   1; 1; 1; 1; 1; 1; 1; 1; 1; 1; 1; 1; 1; 2; 2; 2; 2; 2; 2; 2; 2; 2; 2; 2; 2; 2; 2; 2; 2; 2; 2; 2;
   2; 2; 2; 2; 2; 2; 2; 2; 2; 2; 2; 2; 2; 2; 2; 2; 2; 2; 2; 2; 2; 2; 2; 2; 2; 2; 2; 2; 2; 2; 2; 2;
   3; 3; 3; 3; 3; 3; 3; 3; 3; 3; 3; 3; 3; 3; 3; 3; 3; 3; 3; 3; 3; 3; 3; 3; 3; 3; 3; 3; 3; 3; 3; 3;
   3; 3; 3; 3; 3; 3; 3; 3; 3; 3; 3; 3; 3; 3; 3; 3; 3; 3; 3; 4; 4; 4; 4; 4; 4; 4; 4; 4; 4; 4; 4; 4;
   4; 4; 4; 4; 4; 4; 4; 4; 4; 4; 4; 4; 4; 4; 4; 4; 4; 4; 4; 4; 4; 4; 4; 4; 4; 4; 4; 4; 4; 4; 4; 4;
   4; 4; 4; 4; 4; 4; 5; 5; 5; 5; 5; 5; 5; 5; 5; 5; 5; 5; 5; 5; 5; 5; 5; 5; 5; 5; 5; 5; 5; 5; 5; 5].

(** [FastGifLut[i]] for [0 <= i < 256]. *)
Definition level (i : Z) : Z := FastGifLut !!! Z.to_nat i.

Record Options : Type := MkOptions { Workers : Z }.

(** *** The quantizer *)

(** The palette index of a colour, on the path for sources with native
    16-bit access ([c] is what [RGBA64At] returned). *)
Definition index_RGBA64 (c : color.RGBA64_) : Z :=
  36 * level (Z.shiftr (color.R c) 8) + 6 * level (Z.shiftr (color.G c) 8)
  + level (Z.shiftr (color.B c) 8).

(** The palette index of a colour on the generic path ([c] is what [At]
    returned). *)
Definition index_generic (c : color.Color) : Z :=
  let '(r, g, b, _) := color.Color_RGBA c in
  36 * level (Z.land (Z.shiftr r 8) 255) + 6 * level (Z.land (Z.shiftr g 8) 255)
  + level (Z.land (Z.shiftr b 8) 255).

Definition getColorMapper (m : image.Image)
    : image.Paletted → image.Image → Z → Z → Z → Z → image.Paletted :=
  match image.RGBA64At m with
  | Some i64 => λ pm _ minX maxX startY endY,
    foldl (λ pm y,
      foldl (λ pm x,
        let c := i64 x y in
        let idx := index_RGBA64 c in
        image.SetColorIndex pm x y (uint8 idx))
      pm (seqZ minX (maxX - minX)))
    pm (seqZ startY (endY - startY))
  | None => λ pm m minX maxX startY endY,
    foldl (λ pm y,
      foldl (λ pm x,
        let idx := index_generic (image.At m x y) in
        image.SetColorIndex pm x y (uint8 idx))
      pm (seqZ minX (maxX - minX)))
    pm (seqZ startY (endY - startY))
  end.

(** The row range [(startY, endY)] of each worker of [mapColors], in worker
    order. *)
Definition mapColors_ranges (b : image.Rectangle) (workers : Z) : list (Z * Z) :=
  let height := image.Dy b in
  let rowsPerWorker := height ÷ workers in
  let '(rowsPerWorker, workers) :=
    if decide (rowsPerWorker < 1) then (1, height) else (rowsPerWorker, workers) in
  (λ i,
    let startY := image.Y (image.Min b) + i * rowsPerWorker in
    let endY := startY + rowsPerWorker in
    let endY := if decide (i = workers - 1) then image.Y (image.Max b) else endY in
    (startY, endY)) <$> seqZ 0 workers.

Definition mapColors (pm : image.Paletted) (m : image.Image) (workers : Z)
    : image.Paletted :=
  let b := image.Bounds m in
  let mapFunc := getColorMapper m in
  foldl (λ pm '(sy, ey),
           mapFunc pm m (image.X (image.Min b)) (image.X (image.Max b)) sy ey)
        pm (mapColors_ranges b workers).

(** *** Helpers of the serializer *)

Section Serializer.
Context {W : Type} `{!Writer W}.

(** [binary.LittleEndian.PutUint16] into a 2-byte array, then one [Write]. *)
Definition writeUint16 (v : Z) : M W (option io_error) := λ w,
  let buf := [Z.land v 255; Z.shiftr v 8] in
  let '((_, e), w) := Write buf w in
  (e, w).

Fixpoint writeColorTable_loop (indices : list Z) (p : list color.Color)
    : M W (option io_error) :=
  match indices with
  | [] => mret None
  | i :: indices => λ w,
    let rgb :=
      if decide (i < len p) then
        let '(r, g, b, _) := color.NRGBAModel_Convert (p !!! Z.to_nat i) in
        [r; g; b]
      else [0; 0; 0] in
    let '((_, e), w) := Write rgb w in
    match e with
    | Some e => (Some e, w)
    | None => writeColorTable_loop indices p w
    end
  end.

Definition writeColorTable (p : list color.Color) (paddedSize : Z) : M W (option io_error) :=
  writeColorTable_loop (seqZ 0 paddedSize) p.

End Serializer.

Definition log2 (x : Z) : Z :=
  match list_find (λ v, x <= v) [2; 4; 8; 16; 32; 64; 128; 256] with
  | Some (i, _) => Z.of_nat i
  | None => -1
  end.

(** [for paddedSize < len(pm.Palette) && paddedSize < 256 { paddedSize <<= 1 }];
    eight doublings reach 256. *)
Fixpoint paddedSize_loop (fuel : nat) (paddedSize n : Z) : Z :=
  match fuel with
  | O => paddedSize
  | S fuel =>
    if decide (paddedSize < n ∧ paddedSize < 256)
    then paddedSize_loop fuel (Z.shiftl paddedSize 1) n
    else paddedSize
  end.

Definition paddedSizeOf (n : Z) : Z := paddedSize_loop 8 1 n.

(** [for litWidth = 2; litWidth < 8 && 1<<uint(litWidth) < n; litWidth++ {}];
    six steps reach 8. *)
Fixpoint litWidth_loop (fuel : nat) (litWidth n : Z) : Z :=
  match fuel with
  | O => litWidth
  | S fuel =>
    if decide (litWidth < 8 ∧ Z.shiftl 1 litWidth < n)
    then litWidth_loop fuel (litWidth + 1) n
    else litWidth
  end.

Definition litWidthOf (n : Z) : Z :=
  if decide (n > 0) then litWidth_loop 6 2 n else 8.

(** *** The block compressor *)

(** The row range of each strip of [writeLZWData] and [writeParallelLZW]. *)
Definition strip_ranges (dy workers : Z) : list (Z * Z) :=
  let stripHeight := dy ÷ workers in
  let '(stripHeight, workers) :=
    if decide (stripHeight < 1) then (1, dy) else (stripHeight, workers) in
  (λ i,
    let startY := i * stripHeight in
    let endY := startY + stripHeight in
    let endY := if decide (i = workers - 1) then dy else endY in
    (startY, endY)) <$> seqZ 0 workers.

(** The body of one goroutine of [writeParallelLZW]: the strip's rows are
    copied out and compressed into a private buffer. *)
Definition compressStrip (pm : image.Paletted) (litWidth dx sy ey : Z)
    : option error * list Z :=
  let stripSize := (ey - sy) * dx in
  let stripData := replicate (Z.to_nat stripSize) 0 in
  let '(stripData, _) :=
    foldl (λ '(stripData, offset) y,
             ((copy_into stripData offset (offset + dx)
                 (slice (image.Pix pm) (y * image.Stride pm)
                        (y * image.Stride pm + dx))).1,
              offset + dx))
          (stripData, 0) (seqZ sy (ey - sy)) in
  compressToBuffer litWidth stripData.

Section Compressor.
Context {W : Type} `{!Writer W}.

(** The final loop of [writeParallelLZW]: the chunks go out in strip
    order; the first failed [Write] ends it. *)
Fixpoint writeChunks (chunks : list (list Z)) : M W (option error) :=
  match chunks with
  | [] => mret None
  | data :: chunks => λ w,
    let '((_, e), w) := Write data w in
    match e with
    | Some e => (Some (ErrWrite e), w)
    | None => writeChunks chunks w
    end
  end.

(** The results are taken in strip order; Go's channel hands them over in
    the order the goroutines finish, which only decides which of several
    errors is returned. *)
Definition writeParallelLZW (pm : image.Paletted) (litWidth workers : Z)
    : M W (option error) := λ w,
  let dx := image.Dx (image.Rect pm) in
  let dy := image.Dy (image.Rect pm) in
  let results :=
    (λ '(sy, ey), compressStrip pm litWidth dx sy ey) <$> strip_ranges dy workers in
  match list_find (λ r, is_Some r.1) results with
  | Some (_, (Some e, _)) => (Some e, w)
  | _ => writeChunks (snd <$> results) w
  end.

(** The pixel rows gathered by the workers of [writeLZWData]. *)
Definition gatherRows (pm : image.Paletted) (dx dy workers : Z) : list Z :=
  foldl (λ imageData '(sy, ey),
           foldl (λ imageData y,
                    (copy_into imageData (y * dx) ((y + 1) * dx)
                       (slice (image.Pix pm) (y * image.Stride pm)
                              (y * image.Stride pm + dx))).1)
                 imageData (seqZ sy (ey - sy)))
        (replicate (Z.to_nat (dx * dy)) 0) (strip_ranges dy workers).

Definition writeLZWData (pm : image.Paletted) (litWidth workers : Z)
    : M W (option error) := λ w,
  let dx := image.Dx (image.Rect pm) in
  let dy := image.Dy (image.Rect pm) in
  if decide (workers > 1 ∧ dy >= wrap_int (workers * 4)) then
    writeParallelLZW pm litWidth workers w
  else
    let imageData := gatherRows pm dx dy workers in
    let bw := newBlockWriter w in
    let lzww := lzw.NewWriter bw litWidth in
    let sink (z : lzw.Writer_ (blockWriter W)) := bw_w (bufio.wr (lzw.w z)) in
    let '((_, e), lzww) := lzw.Write_ imageData lzww in
    match e with
    | Some e => let '(_, lzww) := lzw.Close lzww in (Some (ErrLzw e), sink lzww)
    | None =>
      let '(e, lzww) := lzw.Close lzww in
      match e with
      | Some e => (Some (ErrLzw e), sink lzww)
      | None =>
        let '(e, bw) := blockWriter_close (bufio.wr (lzw.w lzww)) in
        (ErrWrite <$> e, bw_w bw)
      end
    end.

End Compressor.

(** *** The serializer and the entry point *)

Section Encode.
Context {W : Type} `{!Writer W}.

(** The bytes [GIF89a]. *)
Definition signature : list Z := [71; 73; 70; 56; 57; 97].

Definition encodeGIF (pm : image.Paletted) (workers : Z) : M W (option error) := λ w,
  if decide (len (image.Palette pm) = 0) then (Some ErrEmptyPalette, w) else
  let b := image.Rect pm in
  let paddedSize := paddedSizeOf (len (image.Palette pm)) in
  let litWidth := litWidthOf (len (image.Palette pm)) in
  let body : M (bufio.Writer_ W) (option error) :=
    bufio.WriteString signature;;
    writeUint16 (uint16 (image.Dx b));;
    writeUint16 (uint16 (image.Dy b));;
    bufio.WriteByte (Z.lor 128 (uint8 (log2 paddedSize)));;
    bufio.WriteByte 0;;
    bufio.WriteByte 0;;
    writeColorTable (image.Palette pm) paddedSize;;
    bufio.WriteByte 44;;
    writeUint16 0;;
    writeUint16 0;;
    writeUint16 (uint16 (image.Dx b));;
    writeUint16 (uint16 (image.Dy b));;
    bufio.WriteByte 0;;
    bufio.WriteByte (uint8 litWidth);;
    e ← writeLZWData pm litWidth workers;
    match e with
    | Some e => mret (Some e)
    | None =>
      bufio.WriteByte 0;;
      bufio.WriteByte 59;;
      e ← bufio.Flush;
      mret (ErrWrite <$> e)
    end in
  let '(e, bw) := body (bufio.NewWriter w) in
  (e, bufio.wr bw).

(** [Encode(w, m, o)]; [NumCPU] is what [runtime.NumCPU()] returns (at
    least 1). *)
Definition Encode (NumCPU : Z) (m : image.Image) (o : option Options)
    : M W (option error) := λ w,
  let workers := NumCPU in
  let workers :=
    match o with
    | Some o => if decide (Workers o > 0) then Workers o else workers
    | None => workers
    end in
  let b := image.Bounds m in
  if decide (image.Dx b >= Z.shiftl 1 16 ∨ image.Dy b >= Z.shiftl 1 16)
  then (Some ErrTooLarge, w) else
  let pm := image.NewPaletted b palette.WebSafe in
  let pm := mapColors pm m workers in
  let pm :=
    if decide (image.Min (image.Rect pm) ≠ image.MkPoint 0 0)
    then image.MkPaletted (image.Pix pm) (image.Stride pm)
           (image.Sub (image.Rect pm) (image.Min (image.Rect pm)))
           (image.Palette pm)
    else pm in
  encodeGIF pm workers w.

End Encode.

(** The part of an encoded file between the LZW minimum code size byte
    and the trailer: the framed image data with its terminator. *)
Definition imageDataOf (paddedSize : Z) (file : list Z) : list Z :=
  drop (Z.to_nat (13 + 3 * paddedSize + 11)) file.

(** ** Specification vocabulary *)

(** *** Dependable writers

    A view [V w l] says that writer [w] is in working order and that the
    bytes it has taken so far are [l]. *)
Definition View (W : Type) : Type := W → list Z → Prop.

(** [m] returns [a] and hands the bytes [d] to the writer. *)
Definition emits {W A} (V : View W) (m : M W A) (a : A) (d : list Z) : Prop :=
  ∀ s l, V s l → ∃ s', m s = (a, s') ∧ V s' (l ++ d).

(** A writer whose every [Write] takes all of [p] and reports no error. *)
Definition Reliable {W} `{!Writer W} (V : View W) : Prop :=
  ∀ p, emits V (Write p) (len p, None) p.

Definition Buffer_view : View Buffer := λ b l, Bytes b = l.

(** A [bufio.Writer] over a dependable writer: what it has taken is what
    reached the writer below plus the pending bytes. *)
Definition bufio_view {W} (V : View W) : View (bufio.Writer_ W) := λ b l,
  ∃ l0, V (bufio.wr b) l0 ∧ l = l0 ++ bufio.buf b ∧ bufio.err b = None ∧
        len (bufio.buf b) <= bufio.defaultBufSize.

(** A [blockWriter] made when the writer below had taken [base]: of the
    payload [l] it has taken, the full blocks [F] have gone out framed and
    the rest [r] waits in [buf[1:n+1]]. *)
Definition blockWriter_view {W} (V : View W) (base : list Z) : View (blockWriter W) :=
  λ b l,
  ∃ (F r : list Z) (k : nat),
    l = F ++ r ∧ length F = (255 * k)%nat ∧ (length r < 255)%nat ∧
    V (bw_w b) (base ++ frames F) ∧
    length (bw_buf b) = 256%nat ∧ bw_n b = len r ∧
    slice (bw_buf b) 1 (bw_n b + 1) = r.

(** The bytes [writeLSB] pushes out in [rounds] rounds. *)
Fixpoint lsb_bytes (rounds : nat) (bits : Z) : list Z :=
  match rounds with
  | O => []
  | S rounds => uint8 bits :: lsb_bytes rounds (Z.shiftr bits 8)
  end.

(** The input check of [lzw.Writer.Write] passes. *)
Definition fits (litWidth : Z) (data : list Z) : Prop :=
  ¬ (uint8 (Z.shiftl 1 litWidth - 1) ≠ 255 ∧
     Exists (λ x, x > uint8 (Z.shiftl 1 litWidth - 1)) data).

(** *** The layout of the file *)

(** A 16-bit field, little-endian. *)
Definition u16 (v : Z) : list Z := [Z.land v 255; Z.shiftr v 8].

(** One entry of the colour table. *)
Definition colorEntry (p : list color.Color) (i : Z) : list Z :=
  if decide (i < len p) then
    let '(r, g, b, _) := color.NRGBAModel_Convert (p !!! Z.to_nat i) in
    [r; g; b]
  else [0; 0; 0].

Definition colorTable (p : list color.Color) (paddedSize : Z) : list Z :=
  i ← seqZ 0 paddedSize; colorEntry p i.

(** Signature and logical screen descriptor: 13 bytes. *)
Definition screenHeader (pm : image.Paletted) : list Z :=
  signature ++ u16 (uint16 (image.Dx (image.Rect pm)))
            ++ u16 (uint16 (image.Dy (image.Rect pm)))
            ++ [Z.lor 128 (uint8 (log2 (paddedSizeOf (len (image.Palette pm))))); 0; 0].

(** Image descriptor: 10 bytes. *)
Definition imageDescriptor (pm : image.Paletted) : list Z :=
  [44] ++ u16 0 ++ u16 0 ++ u16 (uint16 (image.Dx (image.Rect pm)))
       ++ u16 (uint16 (image.Dy (image.Rect pm))) ++ [0].

(** The whole file around the framed image data [d]. *)
Definition fileLayout (pm : image.Paletted) (d : list Z) : list Z :=
  screenHeader pm
  ++ colorTable (image.Palette pm) (paddedSizeOf (len (image.Palette pm)))
  ++ imageDescriptor pm
  ++ [litWidthOf (len (image.Palette pm))]
  ++ d ++ [0; 59].

(** The pixels can be written with codes of [lw] bits. *)
Definition pixels_fit (lw : Z) (pix : list Z) : Prop :=
  lw = 8 ∨ (2 <= lw <= 8 ∧ Forall (λ x, x < 2 ^ lw) pix).

(** [v] is the smallest value in [2,8) with [2^v >= n], or 8 if there is
    none. *)
Definition is_min_code_size (n v : Z) : Prop :=
  (2 <= v < 8 ∧ 2 ^ v >= n ∧ ∀ u, 2 <= u < v → 2 ^ u < n) ∨
  (v = 8 ∧ ∀ u, 2 <= u < 8 → 2 ^ u < n).

(** [v] is the smallest power of two that is at least [n], capped at 256. *)
Definition is_padded_size (n v : Z) : Prop :=
  ∃ k, 0 <= k <= 8 ∧ v = 2 ^ k ∧ (n <= v ∨ k = 8) ∧ ∀ j, 0 <= j < k → 2 ^ j < n.

(** Every pixel is an index into the palette. *)
Definition valid_pixels (pm : image.Paletted) : Prop :=
  Forall (λ x, 0 <= x < len (image.Palette pm)) (image.Pix pm).

(** *** The quantizer *)

(** The red, green and blue samples of pixel (x, y) as the source hands
    them out: the fields of [RGBA64At(x, y)] when it has that method, the
    results of [At(x, y).RGBA()] otherwise. *)
Definition sample (m : image.Image) (x y : Z) : Z * Z * Z :=
  match image.RGBA64At m with
  | Some i64 => (color.R (i64 x y), color.G (i64 x y), color.B (i64 x y))
  | None => let '(r, g, b, _) := color.Color_RGBA (image.At m x y) in (r, g, b)
  end.

(** The samples are 16-bit values. *)
Definition samples_16bit (m : image.Image) : Prop :=
  ∀ x y, let '(r, g, b) := sample m x y in
         0 <= r < 65536 ∧ 0 <= g < 65536 ∧ 0 <= b < 65536.

(** The colour [c] as the [color.RGBA64] a source with native 16-bit access
    returns for it. *)
Definition toRGBA64 (c : color.Color) : color.RGBA64_ :=
  let '(r, g, b, a) := color.Color_RGBA c in color.MkRGBA64 r g b a.

Definition ceil_div (a b : Z) : Z := (a + b - 1) `div` b.

(** The palette index [getColorMapper] computes for pixel (x, y). *)
Definition pixel_index (m : image.Image) (x y : Z) : Z :=
  match image.RGBA64At m with
  | Some i64 => index_RGBA64 (i64 x y)
  | None => index_generic (image.At m x y)
  end.

(** The rows [startY, endY) of a range. *)
Definition rows (range : Z * Z) : list Z := seqZ range.1 (range.2 - range.1).

(** [n] ranges of [r] rows from row [first] on, the last one ending at
    [endY]. *)
Definition ranges_from (first r n endY : Z) : list (Z * Z) :=
  (λ i, (first + i * r,
         if decide (i = n - 1) then endY else first + (i + 1) * r)) <$> seqZ 0 n.

(** One step of the mappers: pixel (x, y) gets its index. *)
Definition setPixel (m : image.Image) (pm : image.Paletted) (c : Z * Z)
    : image.Paletted :=
  image.SetColorIndex pm c.1 c.2 (uint8 (pixel_index m c.1 c.2)).

(** The pixels of the rows [ys], row by row, each row over the columns
    [xs]. *)
Definition coords (xs ys : list Z) : list (Z * Z) :=
  y ← ys; (λ x, (x, y)) <$> xs.

(** A buffer as [image.NewPaletted] makes it: one byte a pixel, rows of
    [Dx] bytes. *)
Definition packed (pm : image.Paletted) : Prop :=
  image.Stride pm = image.Dx (image.Rect pm) ∧
  length (image.Pix pm) =
    Z.to_nat (image.Dx (image.Rect pm) * image.Dy (image.Rect pm)).

(** The worker count [Encode] settles on. *)
Definition workersOf (NumCPU : Z) (o : option Options) : Z :=
  match o with
  | Some o => if decide (Workers o > 0) then Workers o else NumCPU
  | None => NumCPU
  end.

(** The run with this worker count goes through [writeParallelLZW]. *)
Definition parallel_path (workers dy : Z) : Prop :=
  workers > 1 ∧ dy >= wrap_int (workers * 4).

(** *** Inputs used in the examples *)

(** A [w] x [h] image at the origin, every pixel of colour [c]. *)
Definition solid (w h : Z) (c : color.Color) : image.Image :=
  image.MkImage (image.MkRect (image.MkPoint 0 0) (image.MkPoint w h))
                (λ _ _, c) None.

(** A [w] x [h] image at the origin whose colour changes from pixel to
    pixel. *)
Definition gradient (w h : Z) : image.Image :=
  image.MkImage (image.MkRect (image.MkPoint 0 0) (image.MkPoint w h))
    (λ x y, color.RGBA ((x * 60 + y * 30) mod 256) ((y * 51) mod 256) 0 255)
    None.

(** A 2 x 2 paletted image with four colours. *)
Definition fourColours : image.Paletted :=
  image.MkPaletted [0; 1; 2; 3] 2
    (image.MkRect (image.MkPoint 0 0) (image.MkPoint 2 2))
    [color.RGBA 0 0 0 255; color.RGBA 255 0 0 255;
     color.RGBA 0 255 0 255; color.NRGBA 0 0 255 255].

(** A paletted image whose palette is empty. *)
Definition noColours : image.Paletted :=
  image.MkPaletted [0] 1
    (image.MkRect (image.MkPoint 0 0) (image.MkPoint 1 1)) [].

(** [n] bytes that keep changing, for running the compressor. *)
Definition sampleBytes (n : nat) : list Z :=
  (λ i : nat, (Z.of_nat i * Z.of_nat i * 31 + 7 * Z.of_nat (i / 3)) mod 216)
    <$> seq 0 n.

(** Three writes: a few bytes, more than a block, nothing. *)
Definition threeWrites : list (list Z) := [[1; 2; 3]; replicate 300 7; []].

(** An index buffer of one column and eight rows. *)
Definition column8 : image.Paletted :=
  image.MkPaletted [0; 42; 48; 90; 96; 138; 150; 156] 1
    (image.MkRect (image.MkPoint 0 0) (image.MkPoint 1 8)) palette.WebSafe.

(** One row of [writeLZWData]: [copy(imageData[y*dx:(y+1)*dx], pm.Pix[...])]. *)
Definition copyRow (pm : image.Paletted) (dx : Z) (imageData : list Z) (y : Z)
    : list Z :=
  (copy_into imageData (y * dx) ((y + 1) * dx)
     (slice (image.Pix pm) (y * image.Stride pm) (y * image.Stride pm + dx))).1.

(** The framed image data of an empty pixel sequence: one block holding
    the clear code and the end code. *)
Definition emptyStream : list Z := [3; 0; 3; 2].

(** *** Writers that answer alike

    [Sim R m1 m2]: run on writers related by [R], the two computations
    return the same value and leave related writers. *)
Definition Sim {X Y A} (R : X → Y → Prop) (m1 : M X A) (m2 : M Y A) : Prop :=
  ∀ x y, R x y → (m1 x).1 = (m2 y).1 ∧ R (m1 x).2 (m2 y).2.

(** Two kinds of writer whose [Write] returns the same on related writers. *)
Definition Alike {X Y} `{!Writer X, !Writer Y} (R : X → Y → Prop) : Prop :=
  ∀ p : list Z, Sim R (Write p) (Write p).

(** The layers over related writers: everything but the writer below is
    the same. *)
Definition bufio_rel {X Y} (R : X → Y → Prop)
    : bufio.Writer_ X → bufio.Writer_ Y → Prop := λ a b,
  R (bufio.wr a) (bufio.wr b) ∧ bufio.buf a = bufio.buf b ∧
  bufio.err a = bufio.err b.

Definition blockWriter_rel {X Y} (R : X → Y → Prop)
    : blockWriter X → blockWriter Y → Prop := λ a b,
  R (bw_w a) (bw_w b) ∧ bw_buf a = bw_buf b ∧ bw_n a = bw_n b.

Definition lzw_rel {X Y} (R : X → Y → Prop)
    : lzw.Writer_ X → lzw.Writer_ Y → Prop := λ a b,
  bufio_rel R (lzw.w a) (lzw.w b) ∧
  lzw.litWidth a = lzw.litWidth b ∧ lzw.nBits a = lzw.nBits b ∧
  lzw.width a = lzw.width b ∧ lzw.bits a = lzw.bits b ∧
  lzw.hi a = lzw.hi b ∧ lzw.overflow a = lzw.overflow b ∧
  lzw.savedCode a = lzw.savedCode b ∧ lzw.err a = lzw.err b ∧
  lzw.table a = lzw.table b.

(** *** A writer that keeps count

    [Logged W] hands every [Write] to the writer below and counts the
    calls that came back with an error. *)
Record Logged (W : Type) : Type := MkLogged { inner : W; failures : Z }.
Arguments MkLogged {W}.
Arguments inner {W}.
Arguments failures {W}.

Global Instance Logged_Writer {W} `{!Writer W} : Writer (Logged W) :=
  λ p s,
    let '((n, e), w') := Write p (inner s) in
    ((n, e),
     MkLogged w' (failures s + match e with Some _ => 1 | None => 0 end)).

(** The [bufio.Writer] over a counting writer has kept an error if a call
    has failed since the count was [n0]. *)
Definition noticed {W} (n0 : Z) (b : bufio.Writer_ (Logged W)) : Prop :=
  failures (bufio.wr b) > n0 → bufio.err b ≠ None.

(** *** Where an error comes from *)

(** No error, or one that a [Write] or [Flush] of the destination
    returned. *)
Definition lzw_io (e : option lzw.lzw_error) : Prop :=
  match e with
  | None | Some (lzw.ErrIO _) => True
  | Some lzw.ErrInputTooLarge | Some lzw.ErrClosed => False
  end.

Definition from_destination (e : option error) : Prop :=
  match e with
  | None | Some (ErrWrite _) => True
  | Some (ErrLzw e) => lzw_io (Some e)
  | Some ErrTooLarge | Some ErrEmptyPalette => False
  end.

(** *** The quantized image *)

(** The palette indices of the pixels of [m], row by row. *)
Definition indexBuffer (m : image.Image) : list Z :=
  let b := image.Bounds m in
  (λ c, pixel_index m c.1 c.2) <$>
    coords (seqZ (image.X (image.Min b)) (image.Dx b))
           (seqZ (image.Y (image.Min b)) (image.Dy b)).

(** The paletted image with these indices, at the origin. *)
Definition quantized (m : image.Image) : image.Paletted :=
  let b := image.Bounds m in
  image.MkPaletted (indexBuffer m) (image.Dx b)
    (image.MkRect (image.MkPoint 0 0) (image.MkPoint (image.Dx b) (image.Dy b)))
    palette.WebSafe.

(** The image [m] moved by [d]: the pixel at [p + d] is [m]'s pixel at
    [p]. *)
Definition translate (m : image.Image) (d : image.Point) : image.Image :=
  let b := image.Bounds m in
  image.MkImage
    (image.MkRect
       (image.MkPoint (image.X (image.Min b) + image.X d)
                      (image.Y (image.Min b) + image.Y d))
       (image.MkPoint (image.X (image.Max b) + image.X d)
                      (image.Y (image.Max b) + image.Y d)))
    (λ x y, image.At m (x - image.X d) (y - image.Y d))
    ((λ f x y, f (x - image.X d) (y - image.Y d)) <$> image.RGBA64At m).

(** [L] is the one of the six levels [0, 51, ..., 255] of the palette
    that is nearest to the 8-bit sample [v]. *)
Definition nearest_level (L v : Z) : Prop :=
  (∃ k, 0 <= k <= 5 ∧ L = 51 * k) ∧ Z.abs (L - v) <= 25 ∧
  ∀ k, 0 <= k <= 5 → Z.abs (L - v) <= Z.abs (51 * k - v).

(** The rows [range.1, range.2) of the index buffer of [pm]. *)
Definition stripPixels (pm : image.Paletted) (range : Z * Z) : list Z :=
  slice (image.Pix pm) (range.1 * image.Dx (image.Rect pm))
        (range.2 * image.Dx (image.Rect pm)).

(** *** Reading the file back *)

(** The 16-bit little-endian field at offset [i] of [file]
    ([binary.LittleEndian.Uint16(file[i:])]). *)
Definition readUint16 (file : list Z) (i : nat) : Z :=
  default 0 (file !! i) + 256 * default 0 (file !! S i).

(** The number of colour table entries a decoder expects from the packed
    byte of the logical screen descriptor: [2^(size+1)], [size] being its
    low three bits. *)
Definition declaredTableSize (packed : Z) : Z := 2 ^ (Z.land packed 7 + 1).

(** * Properties *)

Ltac Zify.zify_post_hook ::= Z.to_euclidean_division_equations.

(** ** The writer logic *)

Lemma emits_ret {W A} (V : View W) (a : A) : emits V (mret a) a [].
Proof. intros s l HV. exists s. split; [done|]. by rewrite app_nil_r. Qed.

Lemma emits_bind {W A B} (V : View W) (m : M W A) (k : A → M W B) a b d1 d2 :
  emits V m a d1 → emits V (k a) b d2 → emits V (m ≫= k) b (d1 ++ d2).
Proof.
  intros Hm Hk s l HV.
  destruct (Hm s l HV) as (s1 & E1 & HV1).
  destruct (Hk s1 _ HV1) as (s2 & E2 & HV2).
  exists s2. unfold mbind, M_bind. rewrite E1, E2. split; [done|].
  by rewrite app_assoc.
Qed.

Lemma Buffer_reliable : Reliable Buffer_view.
Proof.
  intros p [bs] l <-. eexists. split; [reflexivity|]. reflexivity.
Qed.

Lemma len_app {A} (l1 l2 : list A) : len (l1 ++ l2) = len l1 + len l2.
Proof. unfold len. rewrite length_app. lia. Qed.

Lemma len_nonneg {A} (l : list A) : 0 <= len l.
Proof. unfold len. lia. Qed.

Section Bufio.
Context {W : Type} `{!Writer W} (V : View W) (HV : Reliable V).

Lemma bufio_NewWriter_view w l : V w l → bufio_view V (bufio.NewWriter w) l.
Proof.
  intros H. unfold bufio_view, bufio.defaultBufSize. exists l. simpl.
  rewrite app_nil_r. repeat split; try done.
Qed.

Lemma bufio_Flush_ok b l :
  bufio_view V b l →
  ∃ w', bufio.Flush b = (None, bufio.Mk w' [] None) ∧ V w' l.
Proof.
  intros (l0 & H0 & -> & He & Hn). unfold bufio.Flush. rewrite He.
  destruct b as [w buf e]; simpl in *. subst e.
  case_decide as Hz.
  - destruct buf; [|unfold len in Hz; simpl in Hz; lia].
    exists w. rewrite app_nil_r. done.
  - destruct (HV buf w l0 H0) as (w' & E & H1). rewrite E.
    rewrite decide_False by lia. eauto.
Qed.

Lemma bufio_reliable : Reliable (bufio_view V).
Proof.
  intros p b l Hb. pose proof Hb as (l0 & H0 & -> & He & Hn).
  unfold Write, bufio.Writer_Writer, bufio.Write_.
  pose proof (len_nonneg (bufio.buf b)) as Hb0.
  pose proof (len_nonneg p) as Hp0.
  destruct b as [w buf e]; simpl in *. subst e.
  unfold bufio.Available, bufio.Buffered, bufio.defaultBufSize in *; simpl.
  case_decide as Hbig; simpl.
  2:{ eexists. split; [rewrite Z.add_0_l; reflexivity|].
      unfold bufio_view, bufio.defaultBufSize. exists l0. simpl.
      rewrite app_assoc. repeat split; try done.
      rewrite len_app. destruct (decide (len p > 4096 - len buf)); [|lia].
      exfalso. apply Hbig. done. }
  destruct Hbig as [Hbig _].
  case_decide as Hemp.
  - (* empty buffer: the large write goes straight through *)
    destruct (HV p w l0 H0) as (w' & E & H1). rewrite E.
    assert (buf = []) as ->
      by (destruct buf; [done|unfold len in Hemp; simpl in Hemp; lia]).
    assert (drop (Z.to_nat (len p)) p = []) as ->
      by (apply drop_ge; unfold len; lia).
    simpl.
    eexists. split; [f_equal; f_equal; unfold len; simpl; lia|].
    unfold bufio_view, bufio.defaultBufSize. exists (l0 ++ p). simpl.
    rewrite !app_nil_r. repeat split; try done.
  - (* fill the buffer, flush it, go on with the rest *)
    rewrite Z.min_l by lia.
    set (n := Z.to_nat (4096 - len buf)).
    assert (Hfull : bufio_view V (bufio.Mk w (buf ++ take n p) None)
                      (l0 ++ buf ++ take n p)).
    { exists l0. unfold bufio.defaultBufSize. simpl. repeat split; try done.
      rewrite len_app.
      unfold len. rewrite length_take. unfold len in *. subst n. lia. }
    destruct (bufio_Flush_ok _ _ Hfull) as (w1 & E1 & H1). rewrite E1.
    unfold bufio.Available, bufio.Buffered; simpl.
    case_decide as Hbig2; simpl.
    + destruct (HV (drop n p) w1 _ H1) as (w2 & E2 & H2). rewrite E2.
      rewrite drop_ge by (unfold len; lia).
      simpl.
      eexists. split.
      { f_equal. f_equal. unfold len in *; simpl. rewrite length_drop.
        subst n. lia. }
      unfold bufio_view, bufio.defaultBufSize. exists (l0 ++ buf ++ p). simpl.
      rewrite !app_nil_r.
      repeat split; try done; [|by rewrite <- app_assoc].
      rewrite <- !app_assoc in H2. by rewrite take_drop in H2.
    + eexists. split.
      { f_equal. f_equal. unfold len in *. rewrite length_drop. subst n. lia. }
      unfold bufio_view, bufio.defaultBufSize. exists (l0 ++ buf ++ take n p).
      simpl. repeat split; try done.
      * rewrite <- (take_drop n p) at 1. by rewrite <- !app_assoc.
      * destruct (decide (len (drop n p) > 4096 - 0));
          [|unfold len in *; simpl in *; lia].
        exfalso. apply Hbig2. done.
Qed.

Lemma bufio_WriteByte_emits c : emits (bufio_view V) (bufio.WriteByte c) None [c].
Proof.
  intros b l Hb. pose proof Hb as (l0 & H0 & -> & He & Hn).
  unfold bufio.WriteByte. rewrite He.
  unfold bufio.Available, bufio.defaultBufSize in *.
  case_decide as Hfull.
  - destruct (bufio_Flush_ok _ _ Hb) as (w1 & E1 & H1). rewrite E1. simpl.
    eexists. split; [reflexivity|].
    unfold bufio_view, bufio.defaultBufSize. eexists. simpl.
    repeat split; try done.
  - eexists. split; [reflexivity|].
    unfold bufio_view, bufio.defaultBufSize. exists l0. simpl.
    rewrite app_assoc. repeat split; try done. rewrite len_app.
    unfold len in *; simpl. lia.
Qed.

End Bufio.

(** ** Sub-block framing *)

Lemma split_blocks_app k j (F x : list Z) :
  length F = (255 * k)%nat →
  split_blocks (k + j) (F ++ x) = split_blocks k F ++ split_blocks j x.
Proof.
  revert F. induction k as [|k IH]; intros F HF.
  - destruct F; [done|simpl in HF; lia].
  - cbn [Nat.add split_blocks].
    rewrite take_app_le, drop_app_le by lia.
    rewrite IH by (rewrite length_drop; lia). done.
Qed.

Lemma blocks_app (F x : list Z) k :
  length F = (255 * k)%nat → blocks (F ++ x) = blocks F ++ blocks x.
Proof.
  intros HF. unfold blocks. rewrite length_app, HF.
  replace ((255 * k + length x) / 255)%nat with (k + length x / 255)%nat.
  2:{ rewrite (Nat.mul_comm 255 k), Nat.div_add_l by lia. done. }
  replace (255 * k / 255)%nat with (k + 0)%nat.
  2:{ rewrite (Nat.mul_comm 255 k), Nat.div_mul by lia. lia. }
  rewrite split_blocks_app by done.
  rewrite <- (app_nil_r F) at 2. rewrite (split_blocks_app k 0 F []) by done.
  simpl. by rewrite app_nil_r.
Qed.

Lemma frames_app (F x : list Z) k :
  length F = (255 * k)%nat → frames (F ++ x) = frames F ++ frames x.
Proof.
  intros HF. unfold frames. rewrite (blocks_app F x k HF), fmap_app.
  apply join_app.
Qed.

Lemma frames_short (r : list Z) :
  (length r < 255)%nat →
  frames r = match r with [] => [] | _ => len r :: r end.
Proof.
  intros Hr. unfold frames, blocks. rewrite Nat.div_small by done.
  destruct r; [done|]. simpl. by rewrite app_nil_r.
Qed.

Lemma frames_full (r : list Z) :
  length r = 255%nat → frames r = 255 :: r.
Proof.
  intros Hr. unfold frames, blocks. rewrite Hr.
  change (255 / 255)%nat with 1%nat. cbn [split_blocks].
  rewrite take_ge, drop_ge by lia. simpl. rewrite app_nil_r.
  unfold len. rewrite Hr. done.
Qed.

(** [blocks] cuts the payload into pieces of 255 bytes and a shorter last
    one. *)
Lemma split_blocks_spec k (l : list Z) :
  (255 * k <= length l < 255 * S k)%nat →
  mjoin (split_blocks k l) = l ∧
  Forall (λ c, 1 <= len c <= 255) (split_blocks k l) ∧
  ∀ i c, split_blocks k l !! i = Some c →
         (S i < length (split_blocks k l))%nat → len c = 255.
Proof.
  revert l. induction k as [|k IH]; intros l Hl.
  - destruct l as [|x l]; simpl.
    + repeat split; [constructor|]. intros i c Hi. by rewrite lookup_nil in Hi.
    + rewrite app_nil_r. repeat split.
      * constructor; [|constructor]. unfold len. simpl in *. lia.
      * intros [|i] c Hi Hlt; simpl in Hlt; lia.
  - cbn [split_blocks].
    destruct (IH (drop 255 l)) as (Hj & Hall & Hfull).
    { rewrite length_drop. lia. }
    repeat split.
    + simpl. rewrite Hj. apply take_drop.
    + constructor; [|done]. unfold len. rewrite length_take. lia.
    + intros [|i] c Hi Hlt; simpl in Hi, Hlt.
      * inversion Hi; subst. unfold len. rewrite length_take. lia.
      * apply (Hfull i c Hi). lia.
Qed.

Lemma blocks_spec (l : list Z) :
  mjoin (blocks l) = l ∧
  Forall (λ c, 1 <= len c <= 255) (blocks l) ∧
  ∀ i c, blocks l !! i = Some c → (S i < length (blocks l))%nat → len c = 255.
Proof.
  apply split_blocks_spec.
  pose proof (Nat.div_mod_eq (length l) 255).
  pose proof (Nat.mod_upper_bound (length l) 255). lia.
Qed.

(** ** The packetizer over a dependable writer *)

Lemma slice_all {A} (l : list A) n : len l = n → slice l 0 n = l.
Proof.
  intros <-. unfold slice, len. rewrite Z.sub_0_r, Nat2Z.id. simpl.
  apply take_ge. done.
Qed.

(** The array of a [blockWriter] with [r] pending: the length byte, [r],
    and the unused rest. *)
Lemma pending_shape (buf r : list Z) n :
  length buf = 256%nat → n = len r → (length r < 255)%nat →
  slice buf 1 (n + 1) = r →
  ∃ b0 rest, buf = b0 :: r ++ rest ∧ length rest = (255 - length r)%nat.
Proof.
  intros Hbuf -> Hr Hs. destruct buf as [|b0 tl]; [simpl in Hbuf; lia|].
  exists b0, (drop (length r) tl). unfold slice in Hs.
  replace (Z.to_nat (len r + 1 - 1)) with (length r) in Hs by (unfold len; lia).
  change (Z.to_nat 1) with 1%nat in Hs. simpl in Hs.
  split.
  - f_equal. rewrite <- Hs at 1. by rewrite take_drop.
  - rewrite length_drop. simpl in Hbuf. lia.
Qed.

Lemma copy_into_pending b0 (r rest p : list Z) :
  length rest = (255 - length r)%nat → (length r < 255)%nat →
  let c := Nat.min (255 - length r) (length p) in
  copy_into (b0 :: r ++ rest) (len r + 1) 256 p =
  (b0 :: r ++ take c p ++ drop c rest, Z.of_nat c).
Proof.
  intros Hrest Hr c. unfold copy_into.
  assert (Z.min (256 - (len r + 1)) (len p) = Z.of_nat c) as ->
    by (unfold len; subst c; lia).
  rewrite Nat2Z.id. f_equal.
  replace (Z.to_nat (len r + 1)) with (S (length r)) by (unfold len; lia).
  replace (Z.to_nat (len r + 1 + Z.of_nat c)) with (S (length r + c))
    by (unfold len; lia).
  cbn [take drop]. rewrite take_app_length.
  rewrite drop_app_add. done.
Qed.

(** More fuel changes nothing: the loop of [Write] ends on its own within
    [S (length p)] rounds, whatever the writer below does. *)
Lemma blockWriter_Write_fuel {W} `{!Writer W} fuel1 fuel2 p total (b : blockWriter W) :
  (length p < fuel1)%nat → (length p < fuel2)%nat → 0 <= bw_n b < 255 →
  blockWriter_Write_loop fuel1 p total b = blockWriter_Write_loop fuel2 p total b.
Proof.
  revert fuel2 p total b.
  induction fuel1 as [|fuel1 IH]; intros fuel2 p total b H1 H2 Hn; [lia|].
  destruct fuel2 as [|fuel2]; [lia|].
  cbn [blockWriter_Write_loop]. case_decide as Hp; [|done].
  unfold copy_into.
  set (c := Z.min (256 - (bw_n b + 1)) (len p)).
  assert (Hc : 1 <= c <= len p) by (subst c; lia).
  cbv zeta. case_decide as Hfull.
  - destruct (Write _ (bw_w b)) as [[? [e|]] w']; [done|].
    apply IH; cbn [bw_n]; rewrite ?length_drop; unfold len in *; lia.
  - assert (drop (Z.to_nat c) p = []) as ->
      by (apply drop_ge; subst c; unfold len in *; lia).
    destruct fuel1, fuel2; done.
Qed.

Section BlockWriterProofs.
Context {W : Type} `{!Writer W} (V : View W) (HV : Reliable V) (base : list Z).

Lemma newBlockWriter_view w :
  V w base → blockWriter_view V base (newBlockWriter w) [].
Proof.
  intros H. exists [], [], 0%nat. simpl. rewrite app_nil_r.
  repeat split; try done. lia.
Qed.

Lemma blockWriter_Write_loop_ok fuel p total b l :
  (length p < fuel)%nat → blockWriter_view V base b l →
  ∃ b', blockWriter_Write_loop fuel p total b = ((total + len p, None), b') ∧
        blockWriter_view V base b' (l ++ p).
Proof.
  revert p total b l. induction fuel as [|fuel IH]; intros p total b l Hf Hb; [lia|].
  cbn [blockWriter_Write_loop]. case_decide as Hp.
  2:{ destruct p; [|unfold len in Hp; simpl in Hp; lia].
      exists b. rewrite app_nil_r, Z.add_0_r. done. }
  destruct Hb as (F & r & k & -> & HF & Hr & HVw & Hbuf & Hn & Hs).
  destruct (pending_shape _ _ _ Hbuf Hn Hr Hs) as (b0 & rest & Hshape & Hrest).
  destruct b as [w buf n]; cbn [bw_w bw_buf bw_n] in *. subst buf n.
  rewrite copy_into_pending by done. cbv zeta.
  set (c := Nat.min (255 - length r) (length p)).
  assert (Hc : (1 <= c)%nat) by (unfold len in Hp; subst c; lia).
  rewrite Nat2Z.id.
  case_decide as Hfull.
  - (* the block is full: it goes out *)
    assert (Hc255 : (length r + c = 255)%nat) by (unfold len in Hfull; lia).
    assert (drop c rest = []) as -> by (apply drop_ge; lia).
    rewrite app_nil_r. cbn [insert list_insert].
    rewrite slice_all.
    2:{ unfold len. simpl. rewrite length_app, length_take. lia. }
    destruct (HV (255 :: r ++ take c p) w _ HVw) as (w' & E & HVw').
    rewrite E.
    destruct (IH (drop c p) (total + Z.of_nat c)
                 (MkBlockWriter w' (255 :: r ++ take c p) 0)
                 ((F ++ r) ++ take c p)) as (b' & E' & Hb').
    { rewrite length_drop. lia. }
    { exists (F ++ r ++ take c p), [], (S k). cbn [bw_w bw_buf bw_n].
      rewrite app_nil_r, <- !app_assoc. split; [done|].
      split; [rewrite !length_app, length_take; lia|].
      split; [simpl; lia|].
      split.
      { rewrite (frames_app F _ k HF), (frames_full (r ++ take c p)).
        + by rewrite <- app_assoc in HVw'.
        + rewrite length_app, length_take. lia. }
      split; [simpl; rewrite length_app, length_take; lia|].
      done. }
    exists b'. rewrite E'. split.
    + f_equal. f_equal. unfold len. rewrite length_drop. lia.
    + rewrite <- (app_assoc _ (take c p)), take_drop in Hb'. done.
  - (* the block is not full: all of [p] is pending *)
    assert (Hcp : c = length p) by (unfold len in Hfull; subst c; lia).
    rewrite Hcp, take_ge, drop_ge by lia.
    exists (MkBlockWriter w (b0 :: r ++ p ++ drop (length p) rest)
                          (len r + Z.of_nat (length p))).
    split.
    + destruct fuel; cbn [blockWriter_Write_loop]; [done|].
      rewrite decide_False by (unfold len; simpl; lia). done.
    + exists F, (r ++ p), k. cbn [bw_w bw_buf bw_n].
      split; [by rewrite app_assoc|]. split; [done|].
      split; [rewrite length_app; unfold len in Hfull; lia|].
      split; [done|].
      split; [simpl; rewrite !length_app, length_drop; lia|].
      split; [rewrite len_app; done|].
      * unfold slice.
        replace (Z.to_nat (len r + Z.of_nat (length p) + 1 - 1))
          with (length (r ++ p)) by (rewrite length_app; unfold len; lia).
        change (Z.to_nat 1) with 1%nat. cbn [drop].
        rewrite app_assoc. apply take_app_length.
Qed.

Lemma blockWriter_reliable : Reliable (blockWriter_view V base).
Proof.
  intros p b l Hb. unfold Write, blockWriter_Writer, blockWriter_Write.
  destruct (blockWriter_Write_loop_ok (S (length p)) p 0 b l) as (b' & E & Hb');
    [lia|done|].
  exists b'. by rewrite E.
Qed.

Lemma blockWriter_close_ok b l :
  blockWriter_view V base b l →
  ∃ b', blockWriter_close b = (None, b') ∧ V (bw_w b') (base ++ frames l) ∧
        (len l mod 255 = 0 → bw_w b' = bw_w b).
Proof.
  intros (F & r & k & -> & HF & Hr & HVw & Hbuf & Hn & Hs).
  destruct (pending_shape _ _ _ Hbuf Hn Hr Hs) as (b0 & rest & Hshape & Hrest).
  destruct b as [w buf n]; simpl in *. subst buf n.
  unfold blockWriter_close. simpl.
  rewrite (frames_app F r k HF), (frames_short r Hr).
  case_decide as Hpos.
  - cbn [insert list_insert].
    assert (slice (uint8 (len r) :: r ++ rest) 0 (len r + 1) = len r :: r) as ->.
    { unfold slice. rewrite Z.sub_0_r. simpl.
      replace (Z.to_nat (len r + 1)) with (S (length r)) by (unfold len; lia).
      cbn [take]. rewrite take_app_length. f_equal.
      unfold uint8, len. apply Z.mod_small. lia. }
    destruct (HV (len r :: r) w _ HVw) as (w' & E & HVw'). rewrite E.
    eexists. split; [done|]. simpl. split.
    + destruct r; [unfold len in Hpos; simpl in Hpos; lia|].
      by rewrite <- app_assoc in HVw'.
    + intros Hmod. exfalso. rewrite len_app in Hmod. unfold len in *. lia.
  - destruct r; [|unfold len in Hpos; simpl in Hpos; lia].
    eexists. split; [done|]. simpl. rewrite !app_nil_r. done.
Qed.

Lemma blockWriter_writes_ok ps b l :
  blockWriter_view V base b l →
  ∃ b', blockWriter_writes ps b = (None, b') ∧
        blockWriter_view V base b' (l ++ mjoin ps).
Proof.
  revert b l. induction ps as [|p ps IH]; intros b l Hb.
  - exists b. simpl. by rewrite app_nil_r.
  - destruct (blockWriter_reliable p b l Hb) as (b1 & E1 & H1).
    destruct (IH b1 _ H1) as (b2 & E2 & H2).
    exists b2. cbn [blockWriter_writes]. unfold mbind, M_bind.
    unfold Write, blockWriter_Writer in E1. rewrite E1. simpl.
    rewrite E2. split; [done|]. by rewrite app_assoc.
Qed.

(** Before [close], exactly the full blocks have gone out. *)
Lemma blockWriter_view_flushed b l :
  blockWriter_view V base b l →
  V (bw_w b) (base ++ frames (take (255 * (length l / 255)) l)) ∧
  bw_n b = len l mod 255.
Proof.
  intros (F & r & k & -> & HF & Hr & HVw & Hbuf & Hn & Hs).
  assert (Hk : (length (F ++ r) / 255 = k)%nat).
  { rewrite length_app, HF, (Nat.mul_comm 255 k), Nat.div_add_l by lia.
    rewrite Nat.div_small by done. lia. }
  rewrite Hk, <- HF, take_app_length. split; [done|].
  rewrite Hn, len_app. unfold len. lia.
Qed.

End BlockWriterProofs.

(** C8: whatever is written to the packetizer, in whatever pieces, reaches
    the writer below as blocks of one length byte [L], [1 <= L <= 255],
    and [L] data bytes, and the data bytes in order are the bytes written.
    A block goes out as soon as 255 bytes have gathered, so before [close]
    exactly the full blocks have gone out; [close] sends what is left, 1 to
    254 bytes, as a last short block, and sends nothing when nothing is
    left. *)
Theorem blockWriter_sub_blocks {W} `{!Writer W} (V : View W)
    (w0 : W) (base : list Z) (ps : list (list Z)) :
  Reliable V → V w0 base →
  ∃ b1 b2,
    blockWriter_writes ps (newBlockWriter w0) = (None, b1) ∧
    V (bw_w b1)
      (base ++ frames (take (255 * (length (mjoin ps) / 255)) (mjoin ps))) ∧
    bw_n b1 = len (mjoin ps) mod 255 ∧
    blockWriter_close b1 = (None, b2) ∧
    V (bw_w b2) (base ++ mjoin ((λ c, len c :: c) <$> blocks (mjoin ps))) ∧
    (len (mjoin ps) mod 255 = 0 → bw_w b2 = bw_w b1) ∧
    mjoin (blocks (mjoin ps)) = mjoin ps ∧
    Forall (λ c, 1 <= len c <= 255) (blocks (mjoin ps)) ∧
    (∀ i c, blocks (mjoin ps) !! i = Some c →
            (S i < length (blocks (mjoin ps)))%nat → len c = 255).
Proof.
  intros HV Hw0.
  destruct (blockWriter_writes_ok V HV base ps (newBlockWriter w0) [])
    as (b1 & E1 & H1); [by apply newBlockWriter_view|].
  rewrite app_nil_l in H1.
  destruct (blockWriter_view_flushed V base b1 _ H1) as [Hfl Hn].
  destruct (blockWriter_close_ok V HV base b1 _ H1) as (b2 & E2 & H2 & Hsame).
  destruct (blocks_spec (mjoin ps)) as (Hj & Hall & Hfull).
  exists b1, b2. repeat split; done.
Qed.

Lemma blockWriter_sub_blocks_witness :
  Reliable Buffer_view ∧ Buffer_view (MkBuffer [9]) [9] ∧
  ∃ b1 b2,
    blockWriter_writes threeWrites (newBlockWriter (MkBuffer [9])) = (None, b1) ∧
    Buffer_view (bw_w b1)
      ([9] ++ frames (take (255 * (length (mjoin threeWrites) / 255))
                           (mjoin threeWrites))) ∧
    bw_n b1 = len (mjoin threeWrites) mod 255 ∧
    blockWriter_close b1 = (None, b2) ∧
    Buffer_view (bw_w b2)
      ([9] ++ mjoin ((λ c, len c :: c) <$> blocks (mjoin threeWrites))) ∧
    (len (mjoin threeWrites) mod 255 = 0 → bw_w b2 = bw_w b1) ∧
    mjoin (blocks (mjoin threeWrites)) = mjoin threeWrites ∧
    Forall (λ c, 1 <= len c <= 255) (blocks (mjoin threeWrites)) ∧
    (∀ i c, blocks (mjoin threeWrites) !! i = Some c →
            (S i < length (blocks (mjoin threeWrites)))%nat → len c = 255).
Proof.
  split; [exact Buffer_reliable|]. split; [reflexivity|].
  exact (blockWriter_sub_blocks Buffer_view (MkBuffer [9]) [9] threeWrites
           Buffer_reliable eq_refl).
Defined.

(** ** The LZW writer over a dependable writer *)

Section LzwProofs.
Context {X : Type} `{!Writer X} (V : View X) (HV : Reliable V).

Lemma writeLSB_loop_ok rounds (z : lzw.Writer_ X) l :
  bufio_view V (lzw.w z) l →
  ∃ w', lzw.writeLSB_loop rounds z =
          (None, lzw.with_bits (lzw.with_w z w')
                   (Z.shiftr (lzw.bits z) (8 * Z.of_nat rounds))
                   (lzw.nBits z - 8 * Z.of_nat rounds)) ∧
        bufio_view V w' (l ++ lsb_bytes rounds (lzw.bits z)).
Proof.
  revert z l. induction rounds as [|rounds IH]; intros z l Hz.
  - exists (lzw.w z). cbn [lzw.writeLSB_loop lsb_bytes].
    rewrite app_nil_r. split; [|done].
    destruct z; unfold lzw.with_bits, lzw.with_w; cbn.
    rewrite Z.sub_0_r. done.
  - cbn [lzw.writeLSB_loop lsb_bytes].
    destruct (bufio_WriteByte_emits V HV (uint8 (lzw.bits z)) _ _ Hz)
      as (w1 & E1 & H1). rewrite E1.
    destruct (IH (lzw.with_bits (lzw.with_w z w1) (Z.shiftr (lzw.bits z) 8)
                    (lzw.nBits z - 8)) (l ++ [uint8 (lzw.bits z)]))
      as (w2 & E2 & H2); [done|].
    exists w2. rewrite E2. split.
    + destruct z; unfold lzw.with_bits, lzw.with_w; cbn.
      rewrite Z.shiftr_shiftr by lia.
      replace (8 * Z.of_nat (S rounds)) with (8 + 8 * Z.of_nat rounds) by lia.
      rewrite Z.sub_add_distr. done.
    + by rewrite <- app_assoc in H2.
Qed.

Lemma writeLSB_exact c (z : lzw.Writer_ X) l :
  bufio_view V (lzw.w z) l →
  let bits := Z.lor (lzw.bits z) (lzw.uint32 (Z.shiftl c (lzw.nBits z))) in
  let nBits := lzw.nBits z + lzw.width z in
  let rounds := Z.to_nat (nBits ÷ 8) in
  ∃ w', lzw.writeLSB c z =
          (None, lzw.with_bits (lzw.with_w z w')
                   (Z.shiftr bits (8 * Z.of_nat rounds))
                   (nBits - 8 * Z.of_nat rounds)) ∧
        bufio_view V w' (l ++ lsb_bytes rounds bits).
Proof.
  intros Hz bits nBits rounds. unfold lzw.writeLSB.
  destruct (writeLSB_loop_ok rounds (lzw.with_bits z bits nBits) l)
    as (w' & E & H); [by destruct z|].
  exists w'. split; [|done].
  destruct z; cbn in *. subst bits nBits rounds. rewrite E. done.
Qed.

Lemma writeLSB_ok c (z : lzw.Writer_ X) l :
  bufio_view V (lzw.w z) l →
  ∃ z' d, lzw.writeLSB c z = (None, z') ∧ bufio_view V (lzw.w z') (l ++ d) ∧
          lzw.err z' = lzw.err z ∧ lzw.litWidth z' = lzw.litWidth z ∧
          lzw.savedCode z' = lzw.savedCode z.
Proof.
  intros Hz. destruct (writeLSB_exact c z l Hz) as (w' & E & H).
  eexists _, _. split; [exact E|]. by destruct z.
Qed.

Lemma incHi_ok (z : lzw.Writer_ X) l :
  bufio_view V (lzw.w z) l →
  ∃ r z' d, lzw.incHi z = (r, z') ∧ (∀ e, r ≠ lzw.IncErr e) ∧
            bufio_view V (lzw.w z') (l ++ d) ∧
            lzw.err z' = lzw.err z ∧ lzw.litWidth z' = lzw.litWidth z ∧
            lzw.savedCode z' = lzw.savedCode z.
Proof.
  intros Hz. unfold lzw.incHi.
  set (z1 := if decide (lzw.hi z + 1 = lzw.overflow z) then _ else _).
  assert (H1 : lzw.w z1 = lzw.w z ∧ lzw.err z1 = lzw.err z ∧
               lzw.litWidth z1 = lzw.litWidth z ∧
               lzw.savedCode z1 = lzw.savedCode z)
    by (subst z1; case_decide; by destruct z).
  destruct H1 as (Hw & He & Hl & Hs).
  case_decide.
  - destruct (writeLSB_ok (Z.shiftl 1 (lzw.litWidth z1)) z1 l)
      as (z2 & d & E & H2 & He2 & Hl2 & Hs2); [by rewrite Hw|].
    rewrite E. eexists _, _, d. split; [done|].
    split; [done|]. destruct z2; cbn in *. repeat split; congruence.
  - eexists _, _, []. split; [done|]. rewrite app_nil_r, Hw.
    repeat split; done.
Qed.

Lemma Write_loop_ok p code (z : lzw.Writer_ X) l :
  bufio_view V (lzw.w z) l →
  ∃ code' z' d, lzw.Write_loop p code z = ((None, code'), z') ∧
                bufio_view V (lzw.w z') (l ++ d) ∧
                lzw.err z' = lzw.err z ∧ lzw.litWidth z' = lzw.litWidth z ∧
                lzw.savedCode z' = lzw.savedCode z.
Proof.
  revert code z l. induction p as [|x p IH]; intros code z l Hz.
  - eexists code, z, []. rewrite app_nil_r. done.
  - cbn [lzw.Write_loop]. cbv zeta.
    set (key := Z.lor (Z.shiftl code 8) x).
    destruct (lzw.table z !! key) as [c|]; [by apply IH|].
    destruct (writeLSB_ok code z l Hz) as (z1 & d1 & E1 & H1 & He1 & Hl1 & Hs1).
    rewrite E1.
    destruct (incHi_ok z1 _ H1) as (r & z2 & d2 & E2 & Hr & H2 & He2 & Hl2 & Hs2).
    rewrite E2.
    destruct r as [| |e]; [| |by destruct (Hr e)].
    + destruct (IH x (lzw.with_table z2 (<[key := lzw.hi z2]> (lzw.table z2)))
                  ((l ++ d1) ++ d2))
        as (c' & z3 & d3 & E3 & H3 & He3 & Hl3 & Hs3); [by destruct z2|].
      rewrite E3. eexists c', z3, (d1 ++ d2 ++ d3). split; [done|].
      rewrite !app_assoc. destruct z2; cbn in *. repeat split; congruence.
    + destruct (IH x z2 ((l ++ d1) ++ d2))
        as (c' & z3 & d3 & E3 & H3 & He3 & Hl3 & Hs3); [done|].
      rewrite E3. eexists c', z3, (d1 ++ d2 ++ d3). split; [done|].
      rewrite !app_assoc. repeat split; congruence.
Qed.

Lemma lzw_Write_ok p (z : lzw.Writer_ X) l :
  lzw.err z = None → fits (lzw.litWidth z) p → bufio_view V (lzw.w z) l →
  ∃ z' d, lzw.Write_ p z = ((len p, None), z') ∧
          bufio_view V (lzw.w z') (l ++ d) ∧
          lzw.err z' = None ∧ lzw.litWidth z' = lzw.litWidth z.
Proof.
  intros He Hfit Hz. unfold lzw.Write_. rewrite He.
  case_decide as Hp.
  { rewrite Hp. eexists z, []. rewrite app_nil_r. done. }
  rewrite decide_False by exact Hfit.
  case_decide as Hfirst.
  - destruct (writeLSB_ok (Z.shiftl 1 (lzw.litWidth z)) z l Hz)
      as (z1 & d1 & E1 & H1 & He1 & Hl1 & Hs1). rewrite E1.
    destruct (Write_loop_ok (tl p) (lzw.uint32 (hd 0 p)) z1 _ H1)
      as (c' & z2 & d2 & E2 & H2 & He2 & Hl2 & Hs2). rewrite E2.
    eexists _, (d1 ++ d2). split; [done|]. rewrite app_assoc.
    destruct z2; cbn in *. repeat split; congruence.
  - destruct (Write_loop_ok p (lzw.savedCode z) z _ Hz)
      as (c' & z2 & d2 & E2 & H2 & He2 & Hl2 & Hs2). rewrite E2.
    eexists _, d2. split; [done|].
    destruct z2; cbn in *. repeat split; congruence.
Qed.

Lemma lzw_Close_ok (z : lzw.Writer_ X) l :
  lzw.err z = None → bufio_view V (lzw.w z) l →
  ∃ z' d, lzw.Close z = (None, z') ∧ V (bufio.wr (lzw.w z')) (l ++ d).
Proof.
  intros He Hz. unfold lzw.Close. rewrite He.
  set (z0 := lzw.with_err z (Some lzw.ErrClosed)).
  assert (Hz0 : bufio_view V (lzw.w z0) l) by (by destruct z).
  assert (∃ z1 d1,
    (if decide (lzw.savedCode z0 ≠ lzw.invalidCode) then
       let '(e, z) := lzw.writeLSB (lzw.savedCode z0) z0 in
       match e with
       | Some e => (Some e, z)
       | None => let '(r, z) := lzw.incHi z in
                 (match r with lzw.IncErr e => Some e | _ => None end, z)
       end
     else lzw.writeLSB (Z.shiftl 1 (lzw.litWidth z0)) z0) = (None, z1) ∧
    bufio_view V (lzw.w z1) (l ++ d1)) as (z1 & d1 & E1 & H1).
  { destruct (decide (lzw.savedCode z0 ≠ lzw.invalidCode)).
    - destruct (writeLSB_ok (lzw.savedCode z0) z0 l Hz0)
        as (za & da & Ea & Ha & _). rewrite Ea.
      destruct (incHi_ok za _ Ha) as (r & zb & db & Eb & Hr & Hb & _).
      rewrite Eb. eexists zb, (da ++ db). rewrite app_assoc. split; [|done].
      destruct r as [| |e]; [done|done|by destruct (Hr e)].
    - destruct (writeLSB_ok (Z.shiftl 1 (lzw.litWidth z0)) z0 l Hz0)
        as (za & da & Ea & Ha & _). eauto. }
  rewrite E1.
  destruct (writeLSB_ok (Z.shiftl 1 (lzw.litWidth z1) + 1) z1 _ H1)
    as (z2 & d2 & E2 & H2 & _). rewrite E2.
  assert (∃ z3 d3,
    (if decide (lzw.nBits z2 > 0) then
       let '(e, w') := bufio.WriteByte (uint8 (lzw.bits z2)) (lzw.w z2) in
       (lzw.ErrIO <$> e, lzw.with_w z2 w')
     else (None, z2)) = (None, z3) ∧
    bufio_view V (lzw.w z3) (((l ++ d1) ++ d2) ++ d3)) as (z3 & d3 & E3 & H3).
  { destruct (decide (lzw.nBits z2 > 0)).
    - destruct (bufio_WriteByte_emits V HV (uint8 (lzw.bits z2)) _ _ H2)
        as (w3 & Ew & Hw). rewrite Ew. eexists _, _. split; [done|].
      by destruct z2.
    - eexists z2, []. by rewrite app_nil_r. }
  rewrite E3.
  destruct (bufio_Flush_ok V HV _ _ H3) as (w4 & E4 & H4). rewrite E4.
  eexists _, (d1 ++ d2 ++ d3). split; [done|].
  rewrite !app_assoc. by destruct z3.
Qed.

(** Closing a writer that has been given nothing: the clear code and the
    end code, 9 bits each, in three bytes. *)
Lemma lzw_Close_fresh (x : X) l :
  V x l →
  ∃ z', lzw.Close (lzw.NewWriter x 8) = (None, z') ∧
        V (bufio.wr (lzw.w z')) (l ++ [0; 3; 2]).
Proof.
  intros Hx. unfold lzw.Close, lzw.NewWriter. cbn [lzw.err].
  set (z0 := lzw.with_err _ _).
  assert (Hz0 : bufio_view V (lzw.w z0) l) by (by apply bufio_NewWriter_view).
  rewrite decide_False by (cbn; intros H; by apply H).
  destruct (writeLSB_exact (Z.shiftl 1 (lzw.litWidth z0)) z0 l Hz0)
    as (w1 & E1 & H1). rewrite E1. clear E1.
  set (z1 := lzw.with_bits (lzw.with_w z0 w1) _ _) in *.
  destruct (writeLSB_exact (Z.shiftl 1 (lzw.litWidth z1) + 1) z1 _ H1)
    as (w2 & E2 & H2). rewrite E2. clear E2.
  set (z2 := lzw.with_bits (lzw.with_w z1 w2) _ _) in *.
  rewrite decide_True by (vm_compute; done).
  change (lzw.w z2) with w2 in *.
  destruct (bufio_WriteByte_emits V HV (uint8 (lzw.bits z2)) _ _ H2)
    as (w3 & E3 & H3). rewrite E3. cbn [fmap option_fmap option_map].
  change (lzw.w (lzw.with_w z2 w3)) with w3.
  destruct (bufio_Flush_ok V HV _ _ H3) as (w4 & E4 & H4). rewrite E4.
  eexists. split; [done|].
  change (V w4 (l ++ [0; 3; 2])).
  revert H4. rewrite <- !app_assoc.
  match goal with
  | |- V _ (l ++ ?d) → _ => assert (d = [0; 3; 2]) as -> by (vm_compute; done)
  end.
  done.
Qed.

End LzwProofs.

(** ** Row ranges *)

Lemma mapColors_ranges_from (b : image.Rectangle) workers :
  1 <= workers → 0 <= image.Dy b →
  let H := image.Dy b in
  mapColors_ranges b workers =
  ranges_from (image.Y (image.Min b))
    (if decide (H < workers) then 1 else H `div` workers)
    (if decide (H < workers) then H else workers)
    (image.Y (image.Max b)).
Proof.
  intros Hw HH H. unfold mapColors_ranges, ranges_from. fold H.
  rewrite Z.quot_div_nonneg by lia.
  destruct (decide (H `div` workers < 1)) as [Hlt|Hge].
  - rewrite !decide_True by (subst H; nia).
    apply list_fmap_ext. intros i x _. repeat case_decide; f_equal; lia.
  - rewrite !decide_False by (subst H; nia).
    apply list_fmap_ext. intros i x _. repeat case_decide; f_equal; lia.
Qed.

Lemma strip_ranges_from dy workers :
  1 <= workers → 0 <= dy →
  strip_ranges dy workers =
  ranges_from 0
    (if decide (dy < workers) then 1 else dy `div` workers)
    (if decide (dy < workers) then dy else workers) dy.
Proof.
  intros Hw HH. unfold strip_ranges, ranges_from.
  rewrite Z.quot_div_nonneg by lia.
  destruct (decide (dy `div` workers < 1)) as [Hlt|Hge].
  - rewrite !decide_True by nia.
    apply list_fmap_ext. intros i x _. repeat case_decide; f_equal; lia.
  - rewrite !decide_False by nia.
    apply list_fmap_ext. intros i x _. repeat case_decide; f_equal; lia.
Qed.

(** Ranges of full height laid end to end. *)
Lemma full_ranges_rows first r (k : nat) :
  0 <= r →
  mjoin ((λ i, seqZ (first + i * r) r) <$> seqZ 0 (Z.of_nat k)) =
  seqZ first (Z.of_nat k * r).
Proof.
  intros Hr. induction k as [|k IH]; [done|].
  rewrite seqZ_S, fmap_app, join_app, IH. simpl. rewrite app_nil_r.
  replace (Z.of_nat (S k) * r) with (Z.of_nat k * r + r) by lia.
  rewrite seqZ_app by nia. repeat f_equal; lia.
Qed.

(** The ranges of a stage, laid end to end, are the rows of the image in
    order: they are contiguous, disjoint and cover every row. *)
Lemma ranges_from_rows first r n endY :
  0 <= r → 0 <= n → (n = 0 → endY <= first) →
  (1 <= n → first + (n - 1) * r <= endY) →
  mjoin (rows <$> ranges_from first r n endY) = seqZ first (endY - first).
Proof.
  intros Hr Hn H0 H1. unfold ranges_from.
  destruct (decide (n = 0)) as [->|Hn0].
  { simpl. rewrite seqZ_nil by lia. done. }
  assert (seqZ 0 n = seqZ 0 (n - 1) ++ [n - 1]) as ->.
  { replace n with ((n - 1) + 1) at 1 by lia. rewrite seqZ_app by lia. done. }
  rewrite !fmap_app, join_app. cbn [fmap list_fmap mjoin list_join].
  rewrite app_nil_r, decide_True by done.
  replace (rows <$> _) with ((λ i, seqZ (first + i * r) r) <$> seqZ 0 (n - 1)).
  2:{ rewrite <- list_fmap_compose. apply list_fmap_ext. intros i x Hx.
      apply lookup_seqZ in Hx as [-> Hi]. unfold rows, compose. cbn [fst snd].
      rewrite decide_False by lia. f_equal. lia. }
  rewrite <- (Z2Nat.id (n - 1)) at 1 by lia.
  rewrite full_ranges_rows by done. unfold rows. cbn [fst snd].
  rewrite Z2Nat.id by lia.
  replace (endY - first) with ((n - 1) * r + (endY - (first + (n - 1) * r))) by lia.
  rewrite seqZ_app by nia. repeat f_equal; lia.
Qed.

Lemma mapColors_ranges_rows (b : image.Rectangle) workers :
  1 <= workers → 0 <= image.Dy b →
  mjoin (rows <$> mapColors_ranges b workers) =
  seqZ (image.Y (image.Min b)) (image.Dy b).
Proof.
  intros Hw HH. rewrite mapColors_ranges_from by done. cbv zeta.
  rewrite ranges_from_rows; [done|..]; unfold image.Dy in *;
    repeat case_decide; nia.
Qed.

Lemma strip_ranges_rows dy workers :
  1 <= workers → 0 <= dy →
  mjoin (rows <$> strip_ranges dy workers) = seqZ 0 dy.
Proof.
  intros Hw HH. rewrite strip_ranges_from by done.
  rewrite ranges_from_rows; [by rewrite Z.sub_0_r|..];
    repeat case_decide; nia.
Qed.

Lemma foldl_join {A B} (f : A → B → A) (a : A) (ls : list (list B)) :
  foldl (λ a l, foldl f a l) a ls = foldl f a (mjoin ls).
Proof.
  revert a. induction ls as [|l ls IH]; intros a; [done|].
  simpl. by rewrite foldl_app, IH.
Qed.

(** C3 (corrected): with [N >= 1] workers and [H >= 0] rows, the quantizer
    and the compressor split the rows into contiguous ranges of
    [floor(H/N)] rows, [N] of them, and the last range also takes the
    [H mod N] rows that are left; when [H < N] there are [H] ranges of one
    row each. *)
Theorem row_ranges_floor (b : image.Rectangle) (workers : Z) :
  1 <= workers → 0 <= image.Dy b →
  let H := image.Dy b in
  let minY := image.Y (image.Min b) in
  let n := if decide (H < workers) then H else workers in
  let r := if decide (H < workers) then 1 else H `div` workers in
  mapColors_ranges b workers =
    (λ i, (minY + i * r,
           if decide (i = n - 1) then image.Y (image.Max b)
           else minY + (i + 1) * r)) <$> seqZ 0 n ∧
  strip_ranges H workers =
    (λ i, (i * r, if decide (i = n - 1) then H else (i + 1) * r)) <$> seqZ 0 n ∧
  (workers <= H → H - (n - 1) * r = r + H `mod` workers) ∧
  (0 < H < workers → H - (n - 1) * r = 1).
Proof.
  intros Hw HH H minY n r. split; [|split; [|split]].
  - by apply mapColors_ranges_from.
  - rewrite strip_ranges_from by done. unfold ranges_from.
    apply list_fmap_ext. intros i x _. by rewrite !Z.add_0_l.
  - intros Hle. subst n r. rewrite !decide_False by lia. nia.
  - intros Hlt. subst n r. rewrite !decide_True by lia. lia.
Qed.

Lemma row_ranges_floor_witness :
  1 <= 4 ∧ 0 <= image.Dy (image.MkRect (image.MkPoint 0 3) (image.MkPoint 7 13)) ∧
  mapColors_ranges (image.MkRect (image.MkPoint 0 3) (image.MkPoint 7 13)) 4 =
    [(3, 5); (5, 7); (7, 9); (9, 13)] ∧
  strip_ranges 10 4 = [(0, 2); (2, 4); (4, 6); (6, 10)].
Proof.
  split; [lia|]. split; [vm_compute; discriminate|].
  pose proof (row_ranges_floor
                (image.MkRect (image.MkPoint 0 3) (image.MkPoint 7 13)) 4
                ltac:(lia) ltac:(vm_compute; discriminate)) as (H1 & H2 & _).
  split; [exact H1|exact H2].
Defined.

(** C3, as the specification words it, fails: 10 rows and 4 workers give
    first ranges of 2 rows, not of [ceil(10/4) = 3]. *)
Lemma row_ranges_not_ceil :
  mapColors_ranges (image.MkRect (image.MkPoint 0 0) (image.MkPoint 1 10)) 4 =
    [(0, 2); (2, 4); (4, 6); (6, 10)] ∧
  strip_ranges 10 4 = [(0, 2); (2, 4); (4, 6); (6, 10)] ∧
  ceil_div 10 4 = 3 ∧ 2 - 0 ≠ ceil_div 10 4.
Proof. vm_compute. repeat split; discriminate. Qed.

(** ** The quantizer *)

Lemma foldl_ext {A B} (f g : A → B → A) (a : A) (l : list B) :
  (∀ a b, f a b = g a b) → foldl f a l = foldl g a l.
Proof.
  intros H. revert a. induction l as [|b l IH]; intros a; [done|].
  simpl. by rewrite H, IH.
Qed.

Lemma getColorMapper_coords m pm minX maxX startY endY :
  getColorMapper m pm m minX maxX startY endY =
  foldl (setPixel m) pm
        (coords (seqZ minX (maxX - minX)) (seqZ startY (endY - startY))).
Proof.
  assert (Hgen : ∀ ys pm,
    foldl (λ pm y, foldl (λ pm x,
             image.SetColorIndex pm x y (uint8 (pixel_index m x y)))
           pm (seqZ minX (maxX - minX))) pm ys =
    foldl (setPixel m) pm (coords (seqZ minX (maxX - minX)) ys)).
  { induction ys as [|y ys IH]; intros pm'; [done|].
    unfold coords in *. cbn [mbind list_bind foldl]. rewrite foldl_app, <- IH.
    f_equal. by rewrite foldl_fmap. }
  rewrite <- Hgen. unfold getColorMapper, pixel_index.
  destruct (image.RGBA64At m); done.
Qed.

(** The workers of [mapColors] together do what one pass over all the rows
    does. *)
Lemma mapColors_one_pass pm m workers :
  1 <= workers → 0 <= image.Dy (image.Bounds m) →
  let b := image.Bounds m in
  mapColors pm m workers =
  foldl (setPixel m) pm
        (coords (seqZ (image.X (image.Min b)) (image.Dx b))
                (seqZ (image.Y (image.Min b)) (image.Dy b))).
Proof.
  intros Hw HH b. unfold mapColors. fold b.
  rewrite (foldl_ext _ (λ pm range,
             foldl (setPixel m) pm
               (coords (seqZ (image.X (image.Min b)) (image.Dx b)) (rows range)))).
  2:{ intros a [sy ey]. apply getColorMapper_coords. }
  rewrite <- (foldl_fmap (λ pm l, foldl (setPixel m) pm l)).
  rewrite foldl_join. f_equal.
  rewrite <- (mapColors_ranges_rows b workers) by done.
  generalize (mapColors_ranges b workers). intros l.
  induction l as [|range l IH]; [done|].
  rewrite !fmap_cons. cbn [mjoin list_join]. unfold coords in *.
  rewrite bind_app. f_equal. exact IH.
Qed.

Lemma setPixel_shape m pm c :
  image.Stride (setPixel m pm c) = image.Stride pm ∧
  image.Rect (setPixel m pm c) = image.Rect pm ∧
  image.Palette (setPixel m pm c) = image.Palette pm ∧
  length (image.Pix (setPixel m pm c)) = length (image.Pix pm).
Proof.
  unfold setPixel, image.SetColorIndex. case_decide; [|done]. simpl.
  by rewrite length_insert.
Qed.

Lemma foldl_setPixel_shape m cs pm :
  image.Stride (foldl (setPixel m) pm cs) = image.Stride pm ∧
  image.Rect (foldl (setPixel m) pm cs) = image.Rect pm ∧
  image.Palette (foldl (setPixel m) pm cs) = image.Palette pm ∧
  length (image.Pix (foldl (setPixel m) pm cs)) = length (image.Pix pm).
Proof.
  revert pm. induction cs as [|c cs IH]; intros pm; [done|]. simpl.
  destruct (IH (setPixel m pm c)) as (-> & -> & -> & ->).
  apply setPixel_shape.
Qed.

Lemma mapColors_shape pm m workers :
  image.Stride (mapColors pm m workers) = image.Stride pm ∧
  image.Rect (mapColors pm m workers) = image.Rect pm ∧
  image.Palette (mapColors pm m workers) = image.Palette pm ∧
  length (image.Pix (mapColors pm m workers)) = length (image.Pix pm).
Proof.
  unfold mapColors. generalize (mapColors_ranges (image.Bounds m) workers).
  intros l. revert pm. induction l as [|[sy ey] l IH]; intros pm; [done|].
  simpl. destruct (IH (getColorMapper m pm m (image.X (image.Min (image.Bounds m)))
                         (image.X (image.Max (image.Bounds m))) sy ey))
    as (-> & -> & -> & ->).
  rewrite getColorMapper_coords. apply foldl_setPixel_shape.
Qed.

Lemma NewPaletted_packed r p : packed (image.NewPaletted r p).
Proof.
  unfold packed, image.NewPaletted. simpl. rewrite length_replicate.
  split; [lia|]. f_equal. lia.
Qed.

Lemma PixOffset_lt pm x y :
  packed pm → image.In (image.MkPoint x y) (image.Rect pm) →
  (Z.to_nat (image.PixOffset pm x y) < length (image.Pix pm))%nat.
Proof.
  intros [Hs Hl] (Hx1 & Hx2 & Hy1 & Hy2). simpl in *.
  rewrite Hl. unfold image.PixOffset, image.Dx, image.Dy in *. rewrite Hs.
  apply Z2Nat.inj_lt; nia.
Qed.

Lemma PixOffset_inj pm x y x' y' :
  packed pm → image.In (image.MkPoint x y) (image.Rect pm) →
  image.In (image.MkPoint x' y') (image.Rect pm) →
  Z.to_nat (image.PixOffset pm x y) = Z.to_nat (image.PixOffset pm x' y') →
  x = x' ∧ y = y'.
Proof.
  intros [Hs Hl] (Hx1 & Hx2 & Hy1 & Hy2) (Hx1' & Hx2' & Hy1' & Hy2') Heq.
  simpl in *. unfold image.PixOffset, image.Dx in *. rewrite Hs in Heq.
  apply Z2Nat.inj in Heq; [|nia..].
  assert (y = y') by nia. subst y'. split; [lia|done].
Qed.

Lemma foldl_setPixel_lookup m cs pm x y :
  packed pm → (x, y) ∈ cs → image.In (image.MkPoint x y) (image.Rect pm) →
  image.Pix (foldl (setPixel m) pm cs) !! Z.to_nat (image.PixOffset pm x y) =
  Some (uint8 (pixel_index m x y)).
Proof.
  intros Hpk Hin Hrect. induction cs as [|c cs IH] using rev_ind.
  { by apply elem_of_nil in Hin. }
  rewrite foldl_snoc.
  destruct (foldl_setPixel_shape m cs pm) as (Hs & Hr & Hp & Hl).
  set (pm1 := foldl (setPixel m) pm cs) in *.
  assert (Hpk1 : packed pm1) by (unfold packed in *; rewrite Hs, Hr, Hl; done).
  assert (Hoff : ∀ a b, image.PixOffset pm1 a b = image.PixOffset pm a b)
    by (intros; unfold image.PixOffset; by rewrite Hs, Hr).
  destruct (decide (c = (x, y))) as [->|Hne].
  - unfold setPixel, image.SetColorIndex. cbn [fst snd].
    rewrite decide_True by (by rewrite Hr). cbn [image.Pix].
    rewrite Hoff. apply list_lookup_insert_eq.
    rewrite Hl. by apply PixOffset_lt.
  - apply elem_of_app in Hin as [Hin|Hin];
      [|apply list_elem_of_singleton in Hin; congruence].
    specialize (IH Hin). destruct c as [x' y'].
    unfold setPixel, image.SetColorIndex. cbn [fst snd].
    case_decide as Hrect'; [|done]. cbn [image.Pix].
    rewrite list_lookup_insert_ne; [done|].
    rewrite Hoff. intros Heq. rewrite Hr in Hrect'.
    destruct (PixOffset_inj pm x' y' x y Hpk Hrect' Hrect Heq). congruence.
Qed.

Lemma level_range i : 0 <= level i <= 5.
Proof.
  unfold level. rewrite list_lookup_total_alt.
  destruct (FastGifLut !! Z.to_nat i) as [v|] eqn:E; simpl.
  - assert (H : Forall (λ v, 0 <= v <= 5) FastGifLut)
      by (refine (bool_decide_unpack _ _); vm_compute; exact I).
    exact (Forall_lookup_1 _ _ _ _ H E).
  - vm_compute. split; discriminate.
Qed.

Lemma high_byte r : 0 <= r < 65536 → Z.land (Z.shiftr r 8) 255 = Z.shiftr r 8.
Proof.
  intros Hr. change 255 with (Z.ones 8). rewrite Z.land_ones by lia.
  rewrite Z.shiftr_div_pow2 by lia. apply Z.mod_small.
  change (2 ^ 8) with 256. lia.
Qed.

Lemma index_RGBA64_range c : 0 <= index_RGBA64 c <= 215.
Proof.
  unfold index_RGBA64.
  pose proof (level_range (Z.shiftr (color.R c) 8)).
  pose proof (level_range (Z.shiftr (color.G c) 8)).
  pose proof (level_range (Z.shiftr (color.B c) 8)). lia.
Qed.

Lemma index_generic_range c : 0 <= index_generic c <= 215.
Proof.
  unfold index_generic. destruct (color.Color_RGBA c) as [[[r g] b] a].
  pose proof (level_range (Z.land (Z.shiftr r 8) 255)).
  pose proof (level_range (Z.land (Z.shiftr g 8) 255)).
  pose proof (level_range (Z.land (Z.shiftr b 8) 255)). lia.
Qed.

Lemma pixel_index_range m x y : 0 <= pixel_index m x y <= 215.
Proof.
  unfold pixel_index. destruct (image.RGBA64At m);
    [apply index_RGBA64_range|apply index_generic_range].
Qed.

(** C4: the index buffer holds, for every pixel (x, y) of the source,
    [36*level(R) + 6*level(G) + level(B)], where [level] looks up the high
    byte of a 16-bit sample in the 256-entry table; and the generic path
    gives a colour the index the 16-bit path gives it. *)
Theorem quantizer_index (m : image.Image) (workers x y : Z) :
  1 <= workers → samples_16bit m →
  image.In (image.MkPoint x y) (image.Bounds m) →
  let pm := mapColors (image.NewPaletted (image.Bounds m) palette.WebSafe) m workers in
  let '(r, g, b) := sample m x y in
  image.Pix pm !! Z.to_nat (image.PixOffset pm x y) =
    Some (36 * level (Z.shiftr r 8) + 6 * level (Z.shiftr g 8)
          + level (Z.shiftr b 8)) ∧
  length FastGifLut = 256%nat ∧
  ∀ c, (let '(r, g, b, _) := color.Color_RGBA c in
        0 <= r < 65536 ∧ 0 <= g < 65536 ∧ 0 <= b < 65536) →
       index_generic c = index_RGBA64 (toRGBA64 c).
Proof.
  intros Hw H16 Hin pm.
  pose proof (H16 x y) as Hxy.
  destruct (sample m x y) as [[r g] b] eqn:Es.
  split; [|split; [done|]].
  - pose proof Hin as (Hx1 & Hx2 & Hy1 & Hy2). simpl in *.
    set (pm0 := image.NewPaletted (image.Bounds m) palette.WebSafe) in *.
    destruct (mapColors_shape pm0 m workers) as (Hs & Hr & _ & _). fold pm in Hs, Hr.
    assert (image.PixOffset pm x y = image.PixOffset pm0 x y) as ->
      by (unfold image.PixOffset; by rewrite Hs, Hr).
    subst pm. rewrite mapColors_one_pass by (unfold image.Dy; lia). cbv zeta.
    rewrite foldl_setPixel_lookup.
    + f_equal. unfold uint8. rewrite Z.mod_small
        by (pose proof (pixel_index_range m x y); lia).
      unfold pixel_index, sample, index_RGBA64, index_generic in *.
      destruct (image.RGBA64At m) as [i64|].
      * by inversion Es.
      * destruct (color.Color_RGBA (image.At m x y)) as [[[r' g'] b'] a'].
        inversion Es; subst. by rewrite !high_byte by lia.
    + apply NewPaletted_packed.
    + unfold coords. apply list_elem_of_bind. exists y. split.
      * apply list_elem_of_fmap. exists x. split; [done|].
        apply elem_of_seqZ. unfold image.Dx. lia.
      * apply elem_of_seqZ. unfold image.Dy. lia.
    + done.
  - intros c Hc. unfold index_generic, index_RGBA64, toRGBA64.
    destruct (color.Color_RGBA c) as [[[r' g'] b'] a']. simpl.
    by rewrite !high_byte by lia.
Qed.

Lemma quantizer_index_witness :
  1 <= 3 ∧ samples_16bit (solid 4 4 (color.RGBA 255 0 0 255)) ∧
  image.In (image.MkPoint 1 2) (image.Bounds (solid 4 4 (color.RGBA 255 0 0 255))) ∧
  let pm := mapColors
              (image.NewPaletted
                 (image.Bounds (solid 4 4 (color.RGBA 255 0 0 255)))
                 palette.WebSafe)
              (solid 4 4 (color.RGBA 255 0 0 255)) 3 in
  image.Pix pm !! Z.to_nat (image.PixOffset pm 1 2) = Some 180.
Proof.
  assert (H1 : 1 <= 3) by lia.
  assert (H2 : samples_16bit (solid 4 4 (color.RGBA 255 0 0 255)))
    by (intros x y; vm_compute; repeat split; discriminate).
  assert (H3 : image.In (image.MkPoint 1 2)
                 (image.Bounds (solid 4 4 (color.RGBA 255 0 0 255))))
    by (vm_compute; repeat split; discriminate).
  split; [exact H1|]. split; [exact H2|]. split; [exact H3|].
  exact (proj1 (quantizer_index (solid 4 4 (color.RGBA 255 0 0 255)) 3 1 2
                  H1 H2 H3)).
Defined.

(** ** Sizes derived from the palette *)

(** Decide a bounded universal statement over powers of two by trying each
    exponent. *)
Ltac each_exponent j Hj :=
  let rec go k :=
    destruct (decide (j = k)) as [->|?];
    [simpl; lia | first [ lia | let k' := eval compute in (k + 1) in go k' ] ] in
  go 0.

Lemma paddedSizeOf_spec n : 1 <= n → is_padded_size n (paddedSizeOf n).
Proof.
  intros Hn. unfold paddedSizeOf, is_padded_size. simpl.
  rewrite ?Z.shiftl_mul_pow2 by lia.
  repeat (let H := fresh "H" in
          case_decide as H;
          [apply proj1 in H|apply not_and_l in H; destruct H as [H|H]; [|lia]]).
  all: try lia.
  all: match goal with
       | |- ∃ k, _ ∧ ?v = _ ∧ _ =>
         let k := eval compute in (Z.log2 v) in exists k
       end.
  all: split; [lia|]; split; [done|]; split; [lia|]; intros j Hj; each_exponent j Hj.
Qed.

Lemma litWidthOf_spec n : 1 <= n → is_min_code_size n (litWidthOf n).
Proof.
  intros Hn. unfold litWidthOf, is_min_code_size.
  rewrite decide_True by lia. simpl.
  rewrite ?Z.shiftl_1_l.
  repeat (let H := fresh "H" in
          case_decide as H;
          [apply proj2 in H|apply not_and_l in H; destruct H as [H|H]; [lia|]]).
  all: try lia.
  all: first [ right; split; [done|]; intros j Hj; each_exponent j Hj
             | left; split; [lia|]; split; [simpl; lia|];
               intros j Hj; each_exponent j Hj ].
Qed.

Lemma litWidthOf_range n : 2 <= litWidthOf n <= 8.
Proof.
  unfold litWidthOf. case_decide; [|lia]. simpl. repeat case_decide; lia.
Qed.

(** ** The serializer over a dependable writer *)

Section SerializerProofs.
Context {X : Type} `{!Writer X} (V : View X) (HV : Reliable V).

Lemma writeUint16_emits v : emits V (writeUint16 v) None (u16 v).
Proof.
  intros s l Hs. unfold writeUint16.
  destruct (HV [Z.land v 255; Z.shiftr v 8] s l Hs) as (s' & E & H').
  rewrite E. eauto.
Qed.

Lemma writeColorTable_loop_emits indices p :
  emits V (writeColorTable_loop indices p) None (i ← indices; colorEntry p i).
Proof.
  induction indices as [|i indices IH]; intros s l Hs.
  - exists s. simpl. by rewrite app_nil_r.
  - cbn [writeColorTable_loop mbind list_bind].
    change (if decide (i < len p) then _ else [0; 0; 0]) with (colorEntry p i).
    destruct (HV (colorEntry p i) s l Hs) as (s1 & E1 & H1). rewrite E1.
    destruct (IH s1 _ H1) as (s2 & E2 & H2). rewrite E2.
    exists s2. split; [done|]. by rewrite app_assoc.
Qed.

Lemma writeColorTable_emits p n :
  emits V (writeColorTable p n) None (colorTable p n).
Proof. apply writeColorTable_loop_emits. Qed.

Lemma writeChunks_emits chunks :
  emits V (writeChunks chunks) None (mjoin chunks).
Proof.
  induction chunks as [|c chunks IH]; intros s l Hs.
  - exists s. simpl. by rewrite app_nil_r.
  - cbn [writeChunks mjoin list_join].
    destruct (HV c s l Hs) as (s1 & E1 & H1). rewrite E1.
    destruct (IH s1 _ H1) as (s2 & E2 & H2). rewrite E2.
    exists s2. split; [done|]. by rewrite app_assoc.
Qed.

End SerializerProofs.

Lemma colorEntry_length p i : length (colorEntry p i) = 3%nat.
Proof.
  unfold colorEntry. case_decide; [|done].
  by destruct (color.NRGBAModel_Convert _) as [[[r g] b] a].
Qed.

Lemma colorTable_length p n : 0 <= n → len (colorTable p n) = 3 * n.
Proof.
  intros Hn. unfold colorTable.
  rewrite <- (Z2Nat.id n) by lia. generalize (Z.to_nat n) as k. clear.
  induction k as [|k IH]; [done|].
  rewrite seqZ_S, bind_app, len_app, IH. simpl.
  rewrite app_nil_r. unfold len. rewrite colorEntry_length. lia.
Qed.

(** Entry [i] of the table is bytes [3i .. 3i+2]. *)
Lemma colorTable_entry p n i :
  0 <= i < n → slice (colorTable p n) (3 * i) (3 * i + 3) = colorEntry p i.
Proof.
  intros Hi. unfold colorTable.
  replace n with (i + (1 + (n - i - 1))) by lia.
  rewrite !seqZ_app, !bind_app by lia. simpl. rewrite app_nil_r.
  unfold slice.
  rewrite drop_app_length'.
  2:{ pose proof (colorTable_length p i ltac:(lia)) as H.
      unfold colorTable, len in H. lia. }
  replace (Z.to_nat (3 * i + 3 - 3 * i)) with (length (colorEntry p i))
    by (rewrite colorEntry_length; lia).
  rewrite Z.add_0_l. apply take_app_length.
Qed.

(** ** The compressor over a dependable writer *)

Lemma fits_8 data : fits 8 data.
Proof. intros [H _]. by apply H. Qed.

Lemma fits_Forall lw data :
  2 <= lw <= 8 → Forall (λ x, x < 2 ^ lw) data → fits lw data.
Proof.
  intros Hlw Hall [Hne Hex]. apply Exists_exists in Hex as (x & Hx & Hgt).
  rewrite Forall_forall in Hall. specialize (Hall x Hx).
  rewrite Z.shiftl_1_l in Hgt, Hne. unfold uint8 in *.
  assert (2 ^ lw <= 2 ^ 8) by (apply Z.pow_le_mono_r; lia).
  assert (0 < 2 ^ lw) by (apply Z.pow_pos_nonneg; lia).
  change (2 ^ 8) with 256 in *.
  rewrite Z.mod_small in Hgt by lia. lia.
Qed.

Lemma copy_into_Forall (P : Z → Prop) dst i j src :
  Forall P dst → Forall P src → Forall P (copy_into dst i j src).1.
Proof.
  intros Hd Hs. unfold copy_into. simpl.
  repeat apply Forall_app_2; auto using Forall_take, Forall_drop.
Qed.

Lemma slice_Forall (P : Z → Prop) l i j : Forall P l → Forall P (slice l i j).
Proof. intros H. unfold slice. auto using Forall_take, Forall_drop. Qed.

Lemma gatherRows_Forall (P : Z → Prop) pm dx dy workers :
  P 0 → Forall P (image.Pix pm) → Forall P (gatherRows pm dx dy workers).
Proof.
  intros H0 HP. unfold gatherRows.
  generalize (strip_ranges dy workers) as ranges.
  assert (Hinit : Forall P (replicate (Z.to_nat (dx * dy)) 0))
    by (by apply Forall_replicate).
  revert Hinit. generalize (replicate (Z.to_nat (dx * dy)) 0) as img.
  intros img Hinit ranges. revert img Hinit.
  induction ranges as [|[sy ey] ranges IH]; intros img Hinit; [done|].
  simpl. apply IH. clear IH. revert img Hinit.
  induction (seqZ sy (ey - sy)) as [|y ys IHy]; intros img Hinit; [done|].
  simpl. apply IHy. apply copy_into_Forall; [done|]. by apply slice_Forall.
Qed.

Lemma stripData_Forall (P : Z → Prop) pm dx (ys : list Z) sd off :
  Forall P (image.Pix pm) → Forall P sd →
  Forall P (foldl (λ '(stripData, offset) y,
             ((copy_into stripData offset (offset + dx)
                 (slice (image.Pix pm) (y * image.Stride pm)
                        (y * image.Stride pm + dx))).1,
              offset + dx)) (sd, off) ys).1.
Proof.
  intros HP. revert sd off. induction ys as [|y ys IH]; intros sd off Hsd; [done|].
  simpl. apply IH. apply copy_into_Forall; [done|]. by apply slice_Forall.
Qed.

(** A strip whose bytes pass the input check compresses without error. *)
Lemma compressToBuffer_ok lw data :
  fits lw data → ∃ d, compressToBuffer lw data = (None, d).
Proof.
  intros Hfit. unfold compressToBuffer.
  pose proof (blockWriter_reliable Buffer_view Buffer_reliable []) as HR.
  assert (H0 : blockWriter_view Buffer_view [] (newBlockWriter (MkBuffer [])) [])
    by (by apply newBlockWriter_view).
  destruct (lzw_Write_ok _ HR data (lzw.NewWriter (newBlockWriter (MkBuffer [])) lw) [])
    as (z1 & d1 & E1 & H1 & He1 & Hl1); [done|done|by apply bufio_NewWriter_view|].
  rewrite E1.
  destruct (lzw_Close_ok _ HR z1 _ He1 H1) as (z2 & d2 & E2 & H2). rewrite E2.
  destruct (blockWriter_close_ok Buffer_view Buffer_reliable [] _ _ H2)
    as (b' & E3 & H3 & _). rewrite E3. eauto.
Qed.

Section CompressorProofs.
Context {X : Type} `{!Writer X} (V : View X) (HV : Reliable V).

(** The single-stream path: one LZW stream, framed. *)
Lemma writeLZWData_stream_ok lw data (x : X) l :
  fits lw data → V x l →
  ∃ x' d,
    (let bw := newBlockWriter x in
     let lzww := lzw.NewWriter bw lw in
     let sink (z : lzw.Writer_ (blockWriter X)) := bw_w (bufio.wr (lzw.w z)) in
     let '((_, e), lzww) := lzw.Write_ data lzww in
     match e with
     | Some e => let '(_, lzww) := lzw.Close lzww in (Some (ErrLzw e), sink lzww)
     | None =>
       let '(e, lzww) := lzw.Close lzww in
       match e with
       | Some e => (Some (ErrLzw e), sink lzww)
       | None =>
         let '(e, bw) := blockWriter_close (bufio.wr (lzw.w lzww)) in
         (ErrWrite <$> e, bw_w bw)
       end
     end) = (None, x') ∧ V x' (l ++ d).
Proof.
  intros Hfit Hx. cbv zeta.
  pose proof (blockWriter_reliable V HV l) as HR.
  assert (H0 : blockWriter_view V l (newBlockWriter x) [])
    by (by apply newBlockWriter_view).
  destruct (lzw_Write_ok _ HR data (lzw.NewWriter (newBlockWriter x) lw) [])
    as (z1 & d1 & E1 & H1 & He1 & Hl1); [done|done|by apply bufio_NewWriter_view|].
  rewrite E1.
  destruct (lzw_Close_ok _ HR z1 _ He1 H1) as (z2 & d2 & E2 & H2). rewrite E2.
  destruct (blockWriter_close_ok V HV l _ _ H2) as (b' & E3 & H3 & _).
  rewrite E3. eauto.
Qed.

Lemma writeParallelLZW_ok pm lw workers :
  (∀ sy ey, ∃ d, compressStrip pm lw (image.Dx (image.Rect pm)) sy ey = (None, d)) →
  ∃ d, emits V (writeParallelLZW pm lw workers) None d.
Proof.
  intros Hstrip. unfold writeParallelLZW. cbv zeta.
  set (results := _ <$> strip_ranges _ workers).
  assert (Hall : Forall (λ r, r.1 = None) results).
  { subst results. apply Forall_fmap, Forall_forall. intros [sy ey] _.
    unfold compose. destruct (Hstrip sy ey) as (d & ->). done. }
  exists (mjoin (snd <$> results)). intros x l Hx.
  destruct (list_find _ results) as [[i [[e|] c]]|] eqn:Ef.
  - apply list_find_Some in Ef as (Hi & _ & _).
    apply (Forall_lookup_1 _ _ _ _ Hall) in Hi. done.
  - by apply writeChunks_emits.
  - by apply writeChunks_emits.
Qed.

End CompressorProofs.

Lemma pixels_fit_fits lw data : pixels_fit lw data → fits lw data.
Proof.
  intros [->|[Hlw Hall]]; [apply fits_8|by apply fits_Forall].
Qed.

Lemma valid_pixels_fit pm :
  image.Palette pm ≠ [] → valid_pixels pm →
  pixels_fit (litWidthOf (len (image.Palette pm))) (image.Pix pm).
Proof.
  intros Hne Hval. unfold pixels_fit.
  assert (Hn : 1 <= len (image.Palette pm))
    by (destruct (image.Palette pm); [done|unfold len; simpl; lia]).
  destruct (litWidthOf_spec _ Hn) as [(Hr & Hpow & _)|[-> _]]; [|by left].
  right. split; [lia|]. eapply Forall_impl; [exact Hval|]. simpl. lia.
Qed.

Lemma compressStrip_ok pm lw dx sy ey :
  pixels_fit lw (image.Pix pm) → ∃ d, compressStrip pm lw dx sy ey = (None, d).
Proof.
  intros Hfit. unfold compressStrip.
  set (init := replicate _ 0).
  destruct (foldl _ (init, 0) _) as [sd off] eqn:E.
  apply compressToBuffer_ok, pixels_fit_fits.
  destruct Hfit as [->|[Hlw Hall]]; [by left|right].
  split; [done|].
  pose proof (stripData_Forall (λ x, x < 2 ^ lw) pm dx (seqZ sy (ey - sy))
                init 0 Hall) as H.
  rewrite E in H. apply H. apply Forall_replicate.
  apply Z.pow_pos_nonneg; lia.
Qed.

Section EncodeProofs.
Context {W : Type} `{!Writer W} (V : View W) (HV : Reliable V).

Lemma writeLZWData_ok pm lw workers (x : W) l :
  pixels_fit lw (image.Pix pm) → V x l →
  ∃ x' d, writeLZWData pm lw workers x = (None, x') ∧ V x' (l ++ d).
Proof.
  intros Hfit Hx. unfold writeLZWData. cbv zeta. case_decide.
  - destruct (writeParallelLZW_ok V HV pm lw workers) as (d & Hd).
    { intros sy ey. by apply compressStrip_ok. }
    destruct (Hd x l Hx) as (x' & E & H'). eauto.
  - apply (writeLZWData_stream_ok V HV); [|done].
    apply pixels_fit_fits.
    destruct Hfit as [->|[Hlw Hall]]; [by left|right]. split; [done|].
    apply gatherRows_Forall; [|done]. apply Z.pow_pos_nonneg; lia.
Qed.

(** A step of a serializer that hands [d] to the buffered writer. *)
Lemma bind_emits {A B} (m : M (bufio.Writer_ W) A) (k : A → M (bufio.Writer_ W) B)
    a d s l (P : B * bufio.Writer_ W → Prop) :
  emits (bufio_view V) m a d → bufio_view V s l →
  (∀ s', bufio_view V s' (l ++ d) → P (k a s')) → P ((m ≫= k) s).
Proof.
  intros Hm Hs Hk. destruct (Hm s l Hs) as (s' & E & H').
  unfold mbind, M_bind. rewrite E. by apply Hk.
Qed.

(** Run the next step of a serializer with the lemma [lem] for it. *)
Ltac emit_step lem :=
  match goal with
  | H : bufio_view _ _ _ |- _ =>
    eapply bind_emits; [apply lem | exact H |]; clear H;
    let s' := fresh "s" in intros s' H
  end.

(** The layout of the file, whatever the compressor hands over: [D] is
    what is known of the framed image data. *)
Lemma encodeGIF_layout (D : list Z → Prop) pm workers (w : W) base :
  (∀ bw l, bufio_view V bw l →
     ∃ bw' d, writeLZWData pm (litWidthOf (len (image.Palette pm))) workers bw
                = (None, bw') ∧ bufio_view V bw' (l ++ d) ∧ D d) →
  image.Palette pm ≠ [] → V w base →
  ∃ w' d, encodeGIF pm workers w = (None, w') ∧
          V w' (base ++ fileLayout pm d) ∧ D d.
Proof.
  intros Hdata Hne Hw. unfold encodeGIF.
  rewrite decide_False
    by (destruct (image.Palette pm); [done|unfold len; simpl; lia]).
  cbv zeta.
  pose proof (bufio_NewWriter_view V w base Hw) as Hs.
  pose proof (bufio_reliable V HV) as HR.
  emit_step (HR signature).
  do 2 emit_step (writeUint16_emits _ HR).
  do 3 emit_step (bufio_WriteByte_emits V HV).
  emit_step (writeColorTable_emits _ HR).
  emit_step (bufio_WriteByte_emits V HV).
  do 4 emit_step (writeUint16_emits _ HR).
  do 2 emit_step (bufio_WriteByte_emits V HV).
  match goal with
  | H : bufio_view V ?s _ |- _ =>
    destruct (Hdata s _ H) as (bw2 & d & E2 & H2 & HD); clear H
  end.
  unfold mbind at 1, M_bind at 1. rewrite E2.
  do 2 emit_step (bufio_WriteByte_emits V HV).
  match goal with
  | H : bufio_view V ?s _ |- _ => rename H into H3
  end.
  destruct (bufio_Flush_ok V HV _ _ H3) as (w' & E4 & H4).
  unfold mbind, M_bind. rewrite E4. exists w', d. split; [done|]. split; [|done].
  revert H4. unfold fileLayout, screenHeader, imageDescriptor.
  rewrite <- !app_assoc.
  assert (uint8 (litWidthOf (len (image.Palette pm))) =
          litWidthOf (len (image.Palette pm))) as ->.
  { pose proof (litWidthOf_range (len (image.Palette pm))). unfold uint8. lia. }
  done.
Qed.

End EncodeProofs.

(** ** Where errors come from *)

(** What a step returns decides what the whole returns. *)
Lemma bind_result {S A B} (m : M S A) (k : A → M S B) s (Q : B * S → Prop) :
  (∀ a s', m s = (a, s') → Q (k a s')) → Q ((m ≫= k) s).
Proof.
  intros H. unfold mbind, M_bind. destruct (m s) as [a s'] eqn:E. by apply H.
Qed.

Lemma compressToBuffer_error lw data :
  (compressToBuffer lw data).1 ≠ Some ErrTooLarge.
Proof.
  unfold compressToBuffer.
  destruct (lzw.Write_ _ _) as [[? [e|]] z]; [done|].
  destruct (lzw.Close _) as [[e|] z']; [done|].
  destruct (blockWriter_close _) as [[e|] b]; done.
Qed.

Lemma writeChunks_error {X} `{!Writer X} chunks (x : X) :
  (writeChunks chunks x).1 ≠ Some ErrTooLarge.
Proof.
  revert x. induction chunks as [|c chunks IH]; intros x; [done|].
  cbn [writeChunks]. destruct (Write c x) as [[? [e|]] x']; [done|]. apply IH.
Qed.

Lemma writeLZWData_error {X} `{!Writer X} pm lw workers (x : X) :
  (writeLZWData pm lw workers x).1 ≠ Some ErrTooLarge.
Proof.
  unfold writeLZWData. cbv zeta. case_decide.
  - unfold writeParallelLZW. cbv zeta.
    destruct (list_find _ _) as [[i [[e|] c]]|] eqn:Ef;
      [|apply writeChunks_error..].
    apply list_find_Some in Ef as (Hi & _ & _).
    apply list_elem_of_lookup_2, list_elem_of_fmap in Hi as ([sy ey] & Heq & _).
    pose proof (compressToBuffer_error lw) as Hc. unfold compressStrip in Heq.
    destruct (foldl _ _ _) as [sd off]. specialize (Hc sd).
    rewrite <- Heq in Hc. simpl in *. congruence.
  - destruct (lzw.Write_ _ _) as [[? [e|]] z].
    + by destruct (lzw.Close z).
    + destruct (lzw.Close z) as [[e|] z']; [done|].
      by destruct (blockWriter_close _) as [[e|] b].
Qed.

Lemma unwrap_result {W} (r : option error * bufio.Writer_ W) (e0 : error) :
  r.1 ≠ Some e0 → (let '(e, bw) := r in (e, bufio.wr bw)).1 ≠ Some e0.
Proof. by destruct r. Qed.

Lemma encodeGIF_error {W} `{!Writer W} pm workers (w : W) :
  (encodeGIF pm workers w).1 ≠ Some ErrTooLarge.
Proof.
  unfold encodeGIF. case_decide; [done|]. cbv zeta.
  apply unwrap_result.
  do 14 (apply bind_result; intros ? ? _).
  apply bind_result. intros [e|] st Hst.
  - match type of Hst with
    | writeLZWData ?pm ?lw ?wk ?s0 = _ =>
      pose proof (writeLZWData_error pm lw wk s0) as H'
    end.
    rewrite Hst in H'. exact H'.
  - do 2 (apply bind_result; intros ? ? _).
    apply bind_result. by intros [e|] ? _.
Qed.

(** C9: an empty palette is rejected with the empty-palette error, and the
    sink is left as it was: nothing, not even the header, has been
    written. *)
Theorem encodeGIF_empty_palette {W} `{!Writer W}
    (pm : image.Paletted) (workers : Z) (w : W) :
  image.Palette pm = [] →
  encodeGIF pm workers w = (Some ErrEmptyPalette, w).
Proof. intros Hp. unfold encodeGIF. by rewrite Hp. Qed.

Lemma encodeGIF_empty_palette_witness :
  image.Palette noColours = [] ∧
  encodeGIF noColours 4 (MkLimited [7; 7] 100) =
    (Some ErrEmptyPalette, MkLimited [7; 7] 100).
Proof.
  split; [reflexivity|].
  apply (encodeGIF_empty_palette noColours 4 (MkLimited [7; 7] 100)).
  reflexivity.
Defined.

(** C5: [Encode] returns the image-too-large error exactly when the width
    or the height is 65536 or more; it then leaves the sink as it was, so
    the check comes before any byte is written; a width or height of 65535
    is not rejected by it. *)
Theorem Encode_too_large {W} `{!Writer W}
    (NumCPU : Z) (m : image.Image) (o : option Options) (w : W) :
  ((Encode NumCPU m o w).1 = Some ErrTooLarge ↔
   (image.Dx (image.Bounds m) >= 65536 ∨ image.Dy (image.Bounds m) >= 65536)) ∧
  (image.Dx (image.Bounds m) >= 65536 ∨ image.Dy (image.Bounds m) >= 65536 →
   (Encode NumCPU m o w).2 = w) ∧
  (image.Dx (image.Bounds m) <= 65535 → image.Dy (image.Bounds m) <= 65535 →
   (Encode NumCPU m o w).1 ≠ Some ErrTooLarge).
Proof.
  unfold Encode. cbv zeta. change (Z.shiftl 1 16) with 65536.
  case_decide as Hbig.
  - split; [done|]. split; [done|]. lia.
  - split; [|split]; [|done|].
    + split; [|done]. intros Hbad. by apply encodeGIF_error in Hbad.
    + intros _ _. apply encodeGIF_error.
Qed.

(** ** The serializer's output *)

Lemma screenHeader_length pm : len (screenHeader pm) = 13.
Proof. done. Qed.

Lemma imageDescriptor_length pm : len (imageDescriptor pm) = 10.
Proof. done. Qed.

Lemma Palette_len_pos pm : image.Palette pm ≠ [] → 1 <= len (image.Palette pm).
Proof. destruct (image.Palette pm); [done|]. unfold len. simpl. lia. Qed.

(** C6: the byte after the image descriptor is the LZW minimum code size:
    the smallest value in [2,8) whose power of two reaches the palette
    length, or 8 if there is none; 8 for 216 colours. *)
Theorem min_code_size_byte {W} `{!Writer W} (V : View W)
    (pm : image.Paletted) (workers : Z) (w : W) (base : list Z) :
  Reliable V → V w base → image.Palette pm ≠ [] → valid_pixels pm →
  let n := len (image.Palette pm) in
  ∃ w' d,
    encodeGIF pm workers w = (None, w') ∧
    V w' (base ++ screenHeader pm ++ colorTable (image.Palette pm) (paddedSizeOf n)
               ++ imageDescriptor pm ++ [litWidthOf n] ++ d ++ [0; 59]) ∧
    len (screenHeader pm ++ colorTable (image.Palette pm) (paddedSizeOf n)
         ++ imageDescriptor pm) = 13 + 3 * paddedSizeOf n + 10 ∧
    is_min_code_size n (litWidthOf n) ∧
    litWidthOf 216 = 8.
Proof.
  intros HV Hw Hne Hval n.
  destruct (encodeGIF_layout V HV (λ _, True) pm workers w base)
    as (w' & d & E & Hlay & _); [|done|done|].
  { intros bw l Hbw.
    destruct (writeLZWData_ok (bufio_view V) (bufio_reliable V HV) pm
                (litWidthOf n) workers bw l) as (bw' & d & E & H');
      [by apply valid_pixels_fit|done|eauto]. }
  exists w', d. split; [done|]. split; [done|].
  pose proof (Palette_len_pos pm Hne) as Hn.
  destruct (paddedSizeOf_spec n Hn) as (k & Hk & Hpk & _).
  split; [|split; [by apply litWidthOf_spec|done]].
  rewrite !len_app, colorTable_length, screenHeader_length, imageDescriptor_length.
  - lia.
  - fold n. rewrite Hpk. apply Z.pow_nonneg. lia.
Qed.

Lemma min_code_size_byte_witness :
  Reliable Buffer_view ∧ Buffer_view (MkBuffer []) [] ∧
  image.Palette fourColours ≠ [] ∧ valid_pixels fourColours ∧
  ∃ w' d,
    encodeGIF fourColours 1 (MkBuffer []) = (None, w') ∧
    Buffer_view w'
      ([] ++ screenHeader fourColours
          ++ colorTable (image.Palette fourColours) (paddedSizeOf 4)
          ++ imageDescriptor fourColours ++ [litWidthOf 4] ++ d ++ [0; 59]) ∧
    len (screenHeader fourColours
         ++ colorTable (image.Palette fourColours) (paddedSizeOf 4)
         ++ imageDescriptor fourColours) = 13 + 3 * paddedSizeOf 4 + 10 ∧
    is_min_code_size 4 (litWidthOf 4) ∧ litWidthOf 216 = 8.
Proof.
  assert (H3 : image.Palette fourColours ≠ []) by discriminate.
  assert (H4 : valid_pixels fourColours)
    by (unfold valid_pixels; simpl; repeat constructor; unfold len; simpl; lia).
  split; [exact Buffer_reliable|]. split; [reflexivity|].
  split; [exact H3|]. split; [exact H4|].
  exact (min_code_size_byte Buffer_view fourColours 1 (MkBuffer []) []
           Buffer_reliable eq_refl H3 H4).
Defined.

(** C7: the global colour table has [paddedPaletteSize] entries, the
    smallest power of two that is at least the palette length, capped at
    256 (256 for 216 colours); an entry is the three bytes R, G, B, and the
    entries from the palette length on are (0, 0, 0). *)
Theorem color_table_padded {W} `{!Writer W} (V : View W)
    (pm : image.Paletted) (workers : Z) (w : W) (base : list Z) :
  Reliable V → V w base → image.Palette pm ≠ [] → valid_pixels pm →
  let n := len (image.Palette pm) in
  let table := colorTable (image.Palette pm) (paddedSizeOf n) in
  ∃ w' rest,
    encodeGIF pm workers w = (None, w') ∧
    V w' (base ++ screenHeader pm ++ table ++ rest) ∧
    len (screenHeader pm) = 13 ∧
    is_padded_size n (paddedSizeOf n) ∧
    len table = 3 * paddedSizeOf n ∧
    (∀ i, 0 <= i < paddedSizeOf n →
       slice table (3 * i) (3 * i + 3) =
       if decide (i < n) then
         let '(r, g, b, _) :=
           color.NRGBAModel_Convert (image.Palette pm !!! Z.to_nat i) in
         [r; g; b]
       else [0; 0; 0]) ∧
    paddedSizeOf 216 = 256.
Proof.
  intros HV Hw Hne Hval n table.
  destruct (encodeGIF_layout V HV (λ _, True) pm workers w base)
    as (w' & d & E & Hlay & _); [|done|done|].
  { intros bw l Hbw.
    destruct (writeLZWData_ok (bufio_view V) (bufio_reliable V HV) pm
                (litWidthOf n) workers bw l) as (bw' & d & E & H');
      [by apply valid_pixels_fit|done|eauto]. }
  exists w', (imageDescriptor pm ++ [litWidthOf n] ++ d ++ [0; 59]).
  split; [done|]. split; [done|]. split; [done|].
  pose proof (Palette_len_pos pm Hne) as Hn.
  pose proof (paddedSizeOf_spec n Hn) as Hpad.
  assert (0 <= paddedSizeOf n)
    by (destruct Hpad as (k & Hk & -> & _); apply Z.pow_nonneg; lia).
  split; [done|]. split; [by apply colorTable_length|].
  split; [|done]. intros i Hi. by apply colorTable_entry.
Qed.

Lemma color_table_padded_witness :
  Reliable Buffer_view ∧ Buffer_view (MkBuffer []) [] ∧
  image.Palette fourColours ≠ [] ∧ valid_pixels fourColours ∧
  ∃ w' rest,
    encodeGIF fourColours 1 (MkBuffer []) = (None, w') ∧
    Buffer_view w'
      ([] ++ screenHeader fourColours
          ++ colorTable (image.Palette fourColours) (paddedSizeOf 4) ++ rest) ∧
    len (screenHeader fourColours) = 13 ∧
    is_padded_size 4 (paddedSizeOf 4) ∧
    len (colorTable (image.Palette fourColours) (paddedSizeOf 4))
      = 3 * paddedSizeOf 4 ∧
    (∀ i, 0 <= i < paddedSizeOf 4 →
       slice (colorTable (image.Palette fourColours) (paddedSizeOf 4))
             (3 * i) (3 * i + 3) =
       if decide (i < 4) then
         let '(r, g, b, _) :=
           color.NRGBAModel_Convert (image.Palette fourColours !!! Z.to_nat i) in
         [r; g; b]
       else [0; 0; 0]) ∧
    paddedSizeOf 216 = 256.
Proof.
  assert (H3 : image.Palette fourColours ≠ []) by discriminate.
  assert (H4 : valid_pixels fourColours)
    by (unfold valid_pixels; simpl; repeat constructor; unfold len; simpl; lia).
  split; [exact Buffer_reliable|]. split; [reflexivity|].
  split; [exact H3|]. split; [exact H4|].
  exact (color_table_padded Buffer_view fourColours 1 (MkBuffer []) []
           Buffer_reliable eq_refl H3 H4).
Defined.

(** ** Worker counts *)

Lemma workersOf_pos NumCPU o : 1 <= NumCPU → 1 <= workersOf NumCPU o.
Proof.
  intros H. unfold workersOf. destruct o as [o|]; [|done]. case_decide; lia.
Qed.

Lemma gatherRows_one_pass pm dx dy workers :
  1 <= workers → 0 <= dy →
  gatherRows pm dx dy workers =
  foldl (copyRow pm dx) (replicate (Z.to_nat (dx * dy)) 0) (seqZ 0 dy).
Proof.
  intros Hw Hdy. unfold gatherRows.
  rewrite (foldl_ext _ (λ img range, foldl (copyRow pm dx) img (rows range))).
  2:{ by intros a [sy ey]. }
  rewrite <- (foldl_fmap (λ img l, foldl (copyRow pm dx) img l)).
  by rewrite foldl_join, strip_ranges_rows.
Qed.

Lemma writeLZWData_single_stream {X} `{!Writer X} pm lw w1 w2 (x : X) :
  1 <= w1 → 1 <= w2 → 0 <= image.Dy (image.Rect pm) →
  ¬ parallel_path w1 (image.Dy (image.Rect pm)) →
  ¬ parallel_path w2 (image.Dy (image.Rect pm)) →
  writeLZWData pm lw w1 x = writeLZWData pm lw w2 x.
Proof.
  intros H1 H2 Hdy Hp1 Hp2.
  unfold writeLZWData. cbv zeta. unfold parallel_path in *.
  rewrite !decide_False by done.
  by rewrite (gatherRows_one_pass _ _ _ w1), (gatherRows_one_pass _ _ _ w2).
Qed.

Lemma bind_ext {S A B} (m : M S A) (k1 k2 : A → M S B) s :
  (∀ a s', k1 a s' = k2 a s') → (m ≫= k1) s = (m ≫= k2) s.
Proof. intros H. unfold mbind, M_bind. destruct (m s). apply H. Qed.

Lemma bind_ext_l {S A B} (m1 m2 : M S A) (k : A → M S B) s :
  m1 s = m2 s → (m1 ≫= k) s = (m2 ≫= k) s.
Proof. intros H. unfold mbind, M_bind. by rewrite H. Qed.

Lemma unwrap_ext {W} (r1 r2 : option error * bufio.Writer_ W) :
  r1 = r2 →
  (let '(e, bw) := r1 in (e, bufio.wr bw)) =
  (let '(e, bw) := r2 in (e, bufio.wr bw)).
Proof. by intros ->. Qed.

(** The worker count reaches the file through [writeLZWData] only. *)
Lemma encodeGIF_single_stream {W} `{!Writer W} pm w1 w2 (w : W) :
  1 <= w1 → 1 <= w2 → 0 <= image.Dy (image.Rect pm) →
  ¬ parallel_path w1 (image.Dy (image.Rect pm)) →
  ¬ parallel_path w2 (image.Dy (image.Rect pm)) →
  encodeGIF pm w1 w = encodeGIF pm w2 w.
Proof.
  intros H1 H2 Hdy Hp1 Hp2. unfold encodeGIF. case_decide; [done|]. cbv zeta.
  apply unwrap_ext.
  do 14 (apply bind_ext; intros ? ?).
  apply bind_ext_l. by apply writeLZWData_single_stream.
Qed.

(** C2 (corrected): the index buffer is the same for every worker count,
    and so is the whole file for any two worker counts that both leave the
    parallel compressor out ([workers <= 1] or [height < 4*workers]). *)
Theorem Encode_worker_count {W} `{!Writer W}
    (NumCPU : Z) (m : image.Image) (o1 o2 : option Options) (w : W) :
  1 <= NumCPU → 0 <= image.Dy (image.Bounds m) →
  let pm0 := image.NewPaletted (image.Bounds m) palette.WebSafe in
  mapColors pm0 m (workersOf NumCPU o1) = mapColors pm0 m (workersOf NumCPU o2) ∧
  (¬ parallel_path (workersOf NumCPU o1) (image.Dy (image.Bounds m)) →
   ¬ parallel_path (workersOf NumCPU o2) (image.Dy (image.Bounds m)) →
   Encode NumCPU m o1 w = Encode NumCPU m o2 w).
Proof.
  intros Hcpu Hdy pm0.
  pose proof (workersOf_pos NumCPU o1 Hcpu) as H1.
  pose proof (workersOf_pos NumCPU o2 Hcpu) as H2.
  assert (Hmap : mapColors pm0 m (workersOf NumCPU o1) =
                 mapColors pm0 m (workersOf NumCPU o2))
    by (by rewrite !mapColors_one_pass).
  split; [done|]. intros Hp1 Hp2.
  unfold Encode. cbv zeta. fold (workersOf NumCPU o1) (workersOf NumCPU o2).
  case_decide; [done|]. fold pm0. rewrite Hmap.
  set (pm := if decide _ then _ else _).
  assert (HDy : image.Dy (image.Rect pm) = image.Dy (image.Bounds m)).
  { destruct (mapColors_shape pm0 m (workersOf NumCPU o2)) as (_ & Hr & _).
    subst pm. case_decide; cbn [image.Rect]; rewrite Hr; [|done].
    unfold image.Dy, image.Sub. simpl. lia. }
  apply encodeGIF_single_stream; rewrite ?HDy; done.
Qed.

Lemma Encode_worker_count_witness :
  1 <= 4 ∧ 0 <= image.Dy (image.Bounds (gradient 2 3)) ∧
  mapColors (image.NewPaletted (image.Bounds (gradient 2 3)) palette.WebSafe)
            (gradient 2 3) 1 =
  mapColors (image.NewPaletted (image.Bounds (gradient 2 3)) palette.WebSafe)
            (gradient 2 3) 3 ∧
  Encode 4 (gradient 2 3) (Some (MkOptions 1)) (MkBuffer []) =
  Encode 4 (gradient 2 3) (Some (MkOptions 3)) (MkBuffer []).
Proof.
  assert (H1 : 1 <= 4) by lia.
  assert (H2 : 0 <= image.Dy (image.Bounds (gradient 2 3)))
    by (vm_compute; discriminate).
  split; [exact H1|]. split; [exact H2|].
  pose proof (Encode_worker_count 4 (gradient 2 3) (Some (MkOptions 1))
                (Some (MkOptions 3)) (MkBuffer []) H1 H2) as [Ha Hb].
  split; [exact Ha|]. apply Hb.
  - intros [Hgt _]. vm_compute in Hgt. discriminate.
  - intros [_ Hge]. vm_compute in Hge. apply Hge. reflexivity.
Defined.

(** C2, as the specification words it, fails: one column of eight rows
    encoded with 1 and with 2 workers gives two different files. *)
Lemma Encode_worker_count_differs :
  Encode 4 (gradient 1 8) (Some (MkOptions 1)) (MkBuffer []) ≠
  Encode 4 (gradient 1 8) (Some (MkOptions 2)) (MkBuffer []).
Proof.
  intros H.
  apply (f_equal (λ r, length (Bytes r.2))) in H. vm_compute in H. discriminate.
Qed.

(** ** The parallel compressor *)

(** C1 (a defect of the code): with 2 workers the eight rows of [column8]
    go out as two complete LZW streams, each with its own end code, one
    after the other; a decoder stops at the first end code and gets the
    first four pixels only, while the single stream of 1 worker decodes to
    all eight. *)
Theorem parallel_strips_truncated :
  let one := writeLZWData column8 8 1 (MkBuffer []) in
  let two := writeLZWData column8 8 2 (MkBuffer []) in
  one.1 = None ∧ two.1 = None ∧
  Bytes two.2 = (compressToBuffer 8 [0; 42; 48; 90]).2
                ++ (compressToBuffer 8 [96; 138; 150; 156]).2 ∧
  decodeImageData 8 (Bytes one.2 ++ [0]) =
    ([0; 42; 48; 90; 96; 138; 150; 156], lzw.EndOfData) ∧
  decodeImageData 8 (Bytes two.2 ++ [0]) = ([0; 42; 48; 90], lzw.EndOfData).
Proof. vm_compute. repeat split. Qed.

(** ** Images without pixels *)

Lemma copy_into_nil i j src : j - i <= 0 → (copy_into [] i j src).1 = [].
Proof.
  intros H. unfold copy_into. cbn [fst].
  replace (Z.to_nat (Z.min (j - i) (len src))) with 0%nat by (unfold len; lia).
  by rewrite !take_nil, drop_nil.
Qed.

Lemma gatherRows_empty pm dx dy workers :
  1 <= workers → 0 <= dx → 0 <= dy → dx = 0 ∨ dy = 0 →
  gatherRows pm dx dy workers = [].
Proof.
  intros Hw Hdx Hdy Hz. rewrite gatherRows_one_pass by done.
  replace (Z.to_nat (dx * dy)) with 0%nat by nia. cbn [replicate].
  destruct Hz as [->| ->]; [|done].
  induction (seqZ 0 dy) as [|y ys IH]; [done|].
  cbn [foldl]. unfold copyRow at 2. rewrite copy_into_nil by lia. exact IH.
Qed.

Lemma compressToBuffer_empty : compressToBuffer 8 [] = (None, emptyStream).
Proof. vm_compute. reflexivity. Qed.

Lemma compressStrip_empty pm sy ey :
  compressStrip pm 8 0 sy ey = (None, emptyStream).
Proof.
  unfold compressStrip. rewrite Z.mul_0_r. cbn [Z.to_nat replicate].
  assert (H : ∀ ys off,
    (foldl (λ '(stripData, offset) y,
        ((copy_into stripData offset (offset + 0)
            (slice (image.Pix pm) (y * image.Stride pm)
                   (y * image.Stride pm + 0))).1, offset + 0))
       ([], off) ys).1 = []).
  { induction ys as [|y ys IH]; intros off; [done|].
    cbn [foldl]. rewrite copy_into_nil by lia. apply IH. }
  specialize (H (seqZ sy (ey - sy)) 0).
  destruct (foldl _ _ _) as [sd off]. simpl in H. subst sd.
  apply compressToBuffer_empty.
Qed.

Lemma wrap_int_small z : - 2 ^ 63 <= z < 2 ^ 63 → wrap_int z = z.
Proof. intros H. unfold wrap_int. lia. Qed.

Lemma ranges_from_length first r n endY :
  length (ranges_from first r n endY) = Z.to_nat n.
Proof. unfold ranges_from. by rewrite length_fmap, length_seqZ. Qed.

(** A decoder reads the empty pixel sequence from one or more empty
    streams: it stops at the end code of the first. *)
Lemma decode_empty_streams (k : nat) :
  (1 <= k)%nat →
  decodeImageData 8 (mjoin (replicate k emptyStream) ++ [0]) =
  ([], lzw.EndOfData).
Proof.
  intros Hk. destruct k as [|k]; [lia|]. cbn [replicate mjoin list_join].
  unfold decodeImageData, readBlocks, emptyStream.
  generalize (mjoin (replicate k [3; 0; 3; 2]) ++ [0]) as rest. intros rest.
  cbn [app length unframe].
  rewrite decide_False by done.
  change (Z.to_nat 3) with 3%nat. cbn [take drop app].
  generalize (unframe (S (S (S (length rest)))) rest) as tail. intros tail.
  unfold lzw.ReadAll. cbn [length Nat.mul Nat.add].
  vm_compute. reflexivity.
Qed.

Section ZeroPixels.
Context {W : Type} `{!Writer W} (V : View W) (HV : Reliable V).

Lemma writeLZWData_empty pm workers (x : W) l :
  1 <= workers → workers * 4 < 2 ^ 63 →
  0 <= image.Dx (image.Rect pm) → 0 <= image.Dy (image.Rect pm) →
  image.Dx (image.Rect pm) = 0 ∨ image.Dy (image.Rect pm) = 0 →
  V x l →
  ∃ x' d, writeLZWData pm 8 workers x = (None, x') ∧ V x' (l ++ d) ∧
          ∃ k, (1 <= k)%nat ∧ d = mjoin (replicate k emptyStream).
Proof.
  intros Hw Hbound Hdx Hdy Hz Hx. unfold writeLZWData. cbv zeta.
  rewrite wrap_int_small by lia.
  case_decide as Hpar.
  - (* every strip is an empty stream *)
    destruct Hpar as [Hw1 Hge].
    assert (Hdx0 : image.Dx (image.Rect pm) = 0) by lia.
    unfold writeParallelLZW. cbv zeta. rewrite Hdx0.
    set (ranges := strip_ranges _ workers).
    assert (Hres : ((λ '(sy, ey), compressStrip pm 8 0 sy ey) <$> ranges) =
                   replicate (length ranges) (None, emptyStream)).
    { generalize ranges. intros rs. induction rs as [|[sy ey] rs IH]; [done|].
      rewrite fmap_cons, compressStrip_empty, IH. done. }
    rewrite Hres.
    assert (Hlen : (1 <= length ranges)%nat).
    { subst ranges. rewrite strip_ranges_from, ranges_from_length by lia.
      rewrite decide_False by lia. lia. }
    destruct (list_find _ _) as [[i [[e|] c]]|] eqn:Ef.
    { apply list_find_Some in Ef as (Hi & _ & _).
      apply lookup_replicate in Hi as [Hi _]. done. }
    all: rewrite fmap_replicate; cbn [snd].
    all: destruct (writeChunks_emits V HV (replicate (length ranges) emptyStream)
                     x l Hx) as (x' & E & H'); rewrite E; eauto 10.
  - (* one empty stream *)
    rewrite gatherRows_empty by done.
    pose proof (blockWriter_reliable V HV l) as HR.
    assert (H0 : blockWriter_view V l (newBlockWriter x) [])
      by (by apply newBlockWriter_view).
    unfold lzw.Write_ at 1. cbn [lzw.err lzw.NewWriter].
    rewrite decide_True by done.
    destruct (lzw_Close_fresh _ HR (newBlockWriter x) [] H0) as (z' & E & H').
    rewrite E.
    destruct (blockWriter_close_ok V HV l _ _ H') as (b' & E3 & H3 & _).
    rewrite E3. exists (bw_w b'), emptyStream. split; [done|]. split; [done|].
    exists 1%nat. split; [lia|]. done.
Qed.

End ZeroPixels.

Lemma u16_small v : 0 <= v < 65536 → u16 (uint16 v) = u16 v.
Proof. intros H. unfold uint16. by rewrite Z.mod_small. Qed.

(** The image [Encode] hands to the serializer: the index buffer with its
    rectangle moved to the origin and the web-safe palette. *)
Lemma Encode_paletted m workers :
  let pm1 := mapColors (image.NewPaletted (image.Bounds m) palette.WebSafe)
                       m workers in
  let pm := if decide (image.Min (image.Rect pm1) ≠ image.MkPoint 0 0)
            then image.MkPaletted (image.Pix pm1) (image.Stride pm1)
                   (image.Sub (image.Rect pm1) (image.Min (image.Rect pm1)))
                   (image.Palette pm1)
            else pm1 in
  image.Palette pm = palette.WebSafe ∧
  image.Dx (image.Rect pm) = image.Dx (image.Bounds m) ∧
  image.Dy (image.Rect pm) = image.Dy (image.Bounds m).
Proof.
  intros pm1 pm.
  destruct (mapColors_shape (image.NewPaletted (image.Bounds m) palette.WebSafe)
              m workers) as (_ & Hr & Hp & _).
  fold pm1 in Hr, Hp. subst pm.
  case_decide; cbn [image.Palette image.Rect]; rewrite Hr, ?Hp;
    (split; [done|]); unfold image.Dx, image.Dy, image.Sub; simpl; lia.
Qed.

(** Every image whose width and height are below 65536 is encoded without
    error into a sink whose writes succeed, as a file of the layout
    [fileLayout]. *)
Lemma Encode_ok {W} `{!Writer W} (V : View W)
    (NumCPU : Z) (m : image.Image) (o : option Options) (w : W) (base : list Z) :
  Reliable V → V w base →
  image.Dx (image.Bounds m) < 65536 → image.Dy (image.Bounds m) < 65536 →
  ∃ w' pm d,
    Encode NumCPU m o w = (None, w') ∧ V w' (base ++ fileLayout pm d) ∧
    image.Palette pm = palette.WebSafe ∧
    image.Dx (image.Rect pm) = image.Dx (image.Bounds m) ∧
    image.Dy (image.Rect pm) = image.Dy (image.Bounds m).
Proof.
  intros HV Hw Hdx Hdy. unfold Encode. cbv zeta.
  change (Z.shiftl 1 16) with 65536. rewrite decide_False by lia.
  fold (workersOf NumCPU o).
  destruct (Encode_paletted m (workersOf NumCPU o)) as (Hpal & HDx & HDy).
  cbv zeta in Hpal, HDx, HDy.
  set (pm := if decide _ then _ else _) in *.
  destruct (encodeGIF_layout V HV (λ _, True) pm (workersOf NumCPU o) w base)
    as (w' & d & E & Hlay & _); [| |done|].
  { intros bw l Hbw.
    destruct (writeLZWData_ok (bufio_view V) (bufio_reliable V HV) pm
                (litWidthOf (len (image.Palette pm))) (workersOf NumCPU o) bw l)
      as (bw' & d & E & H'); [|done|eauto].
    left. by rewrite Hpal. }
  { by rewrite Hpal. }
  exists w', pm, d. done.
Qed.

(** C10 (corrected): an image without pixels whose width and height are
    both below 65536, encoded with a worker count below [2^61] into a sink
    whose writes succeed, gives no error and a complete file: signature,
    screen descriptor (a dimension of 0 as the field [0, 0]), the 256 entry
    colour table, image descriptor, minimum code size 8, one or more
    blocks each holding an empty LZW stream (which decode to the empty
    pixel sequence), the terminator [0x00] and the trailer [0x3B]. *)
Theorem Encode_zero_pixels {W} `{!Writer W} (V : View W)
    (NumCPU : Z) (m : image.Image) (o : option Options) (w : W) (base : list Z) :
  Reliable V → V w base → 1 <= NumCPU → workersOf NumCPU o < 2 ^ 61 →
  0 <= image.Dx (image.Bounds m) < 65536 →
  0 <= image.Dy (image.Bounds m) < 65536 →
  image.Dx (image.Bounds m) = 0 ∨ image.Dy (image.Bounds m) = 0 →
  ∃ w' k,
    Encode NumCPU m o w = (None, w') ∧ (1 <= k)%nat ∧
    V w' (base ++ signature
               ++ u16 (image.Dx (image.Bounds m))
               ++ u16 (image.Dy (image.Bounds m)) ++ [135; 0; 0]
               ++ colorTable palette.WebSafe 256
               ++ [44] ++ u16 0 ++ u16 0
               ++ u16 (image.Dx (image.Bounds m))
               ++ u16 (image.Dy (image.Bounds m)) ++ [0]
               ++ [8] ++ mjoin (replicate k emptyStream) ++ [0; 59]) ∧
    len (colorTable palette.WebSafe 256) = 768 ∧
    (image.Dx (image.Bounds m) = 0 → u16 (image.Dx (image.Bounds m)) = [0; 0]) ∧
    (image.Dy (image.Bounds m) = 0 → u16 (image.Dy (image.Bounds m)) = [0; 0]) ∧
    decodeImageData 8 (mjoin (replicate k emptyStream) ++ [0]) =
      ([], lzw.EndOfData).
Proof.
  intros HV Hw Hcpu Hbound Hdx Hdy Hz.
  pose proof (workersOf_pos NumCPU o Hcpu) as Hwk.
  unfold Encode. cbv zeta. fold (workersOf NumCPU o).
  change (Z.shiftl 1 16) with 65536. rewrite decide_False by lia.
  destruct (Encode_paletted m (workersOf NumCPU o)) as (Hpal & HDx & HDy).
  cbv zeta in Hpal, HDx, HDy.
  set (pm := if decide _ then _ else _) in *.
  destruct (encodeGIF_layout V HV
              (λ d, ∃ k, (1 <= k)%nat ∧ d = mjoin (replicate k emptyStream))
              pm (workersOf NumCPU o) w base)
    as (w' & d & E & Hlay & k & Hk & ->); [| |done|].
  { intros bw l Hbw. rewrite Hpal.
    change (litWidthOf (len palette.WebSafe)) with 8.
    apply (writeLZWData_empty (bufio_view V) (bufio_reliable V HV));
      rewrite ?HDx, ?HDy; try done; lia. }
  { by rewrite Hpal. }
  exists w', k. split; [done|]. split; [done|].
  split; [|split; [done|split; [by intros ->|split; [by intros ->|]]]].
  - revert Hlay. unfold fileLayout, screenHeader, imageDescriptor.
    rewrite Hpal, HDx, HDy, !u16_small by done.
    change (paddedSizeOf (len palette.WebSafe)) with 256.
    change (litWidthOf (len palette.WebSafe)) with 8.
    change (Z.lor 128 (uint8 (log2 256))) with 135.
    by rewrite <- !app_assoc.
  - by apply decode_empty_streams.
Qed.

Lemma Encode_zero_pixels_witness :
  Reliable Buffer_view ∧ Buffer_view (MkBuffer []) [] ∧ 1 <= 4 ∧
  workersOf 4 (Some (MkOptions 2)) < 2 ^ 61 ∧
  0 <= image.Dx (image.Bounds (solid 0 9 (color.RGBA 255 0 0 255))) < 65536 ∧
  0 <= image.Dy (image.Bounds (solid 0 9 (color.RGBA 255 0 0 255))) < 65536 ∧
  image.Dx (image.Bounds (solid 0 9 (color.RGBA 255 0 0 255))) = 0 ∧
  ∃ w' k,
    Encode 4 (solid 0 9 (color.RGBA 255 0 0 255)) (Some (MkOptions 2)) (MkBuffer [])
      = (None, w') ∧ (1 <= k)%nat ∧
    decodeImageData 8 (mjoin (replicate k emptyStream) ++ [0]) =
      ([], lzw.EndOfData).
Proof.
  assert (H3 : 1 <= 4) by lia.
  assert (H4 : workersOf 4 (Some (MkOptions 2)) < 2 ^ 61)
    by (vm_compute; reflexivity).
  assert (H5 : 0 <= image.Dx (image.Bounds (solid 0 9 (color.RGBA 255 0 0 255)))
               < 65536) by (vm_compute; split; [discriminate|reflexivity]).
  assert (H6 : 0 <= image.Dy (image.Bounds (solid 0 9 (color.RGBA 255 0 0 255)))
               < 65536) by (vm_compute; split; [discriminate|reflexivity]).
  assert (H7 : image.Dx (image.Bounds (solid 0 9 (color.RGBA 255 0 0 255))) = 0)
    by reflexivity.
  split; [exact Buffer_reliable|]. split; [reflexivity|].
  split; [exact H3|]. split; [exact H4|]. split; [exact H5|].
  split; [exact H6|]. split; [exact H7|].
  destruct (Encode_zero_pixels Buffer_view 4
              (solid 0 9 (color.RGBA 255 0 0 255)) (Some (MkOptions 2))
              (MkBuffer []) [] Buffer_reliable eq_refl H3 H4 H5 H6 (or_introl H7))
    as (w' & k & E & Hk & _ & _ & _ & _ & Hd).
  exists w', k. split; [exact E|]. split; [exact Hk|exact Hd].
Defined.

(** C10, as the specification words it, fails: an image of width 0 and
    height 65536 has no pixels and is refused as too large; and with
    [2^62] workers an image of height 0 is written without any image
    data, which a decoder cannot read as the empty sequence. *)
Lemma Encode_zero_pixels_refused :
  image.Dx (image.Bounds (solid 0 65536 (color.RGBA 0 0 0 255))) = 0 ∧
  Encode 4 (solid 0 65536 (color.RGBA 0 0 0 255)) None (MkBuffer []) =
    (Some ErrTooLarge, MkBuffer []) ∧
  imageDataOf 256
    (Bytes (Encode 4 (solid 3 0 (color.RGBA 0 0 0 255))
                   (Some (MkOptions (2 ^ 62))) (MkBuffer [])).2) = [0; 59] ∧
  decodeImageData 8 [0] = ([], lzw.UnexpectedEOF).
Proof. vm_compute. repeat split. Qed.

(** ** Code over a writer treats related writers alike *)

Lemma Sim_ret {X Y A} (R : X → Y → Prop) (a : A) : Sim R (mret a) (mret a).
Proof. intros x y H. done. Qed.

Lemma Sim_bind {X Y A B} (R : X → Y → Prop)
    (m1 : M X A) (m2 : M Y A) (k1 : A → M X B) (k2 : A → M Y B) :
  Sim R m1 m2 → (∀ a, Sim R (k1 a) (k2 a)) → Sim R (m1 ≫= k1) (m2 ≫= k2).
Proof.
  intros Hm Hk x y H. unfold mbind, M_bind.
  destruct (Hm x y H) as [E1 E2].
  destruct (m1 x) as [a x'], (m2 y) as [a' y']. simpl in E1, E2. subst a'.
  by apply Hk.
Qed.

(** Run the same call on both sides of a relation: the result [r], the
    two writers they leave and the relation between these. *)
Tactic Notation "both" constr(H) constr(Hxy)
       "as" ident(r) ident(s1) ident(s2) ident(Hn) :=
  let E1 := fresh "E" in
  let r' := fresh "same" in
  destruct (H _ _ Hxy) as [E1 Hn];
  match type of E1 with
  | (?m1 ?x).1 = (?m2 ?y).1 =>
    destruct (m1 x) as [r s1], (m2 y) as [r' s2]; simpl in E1, Hn; subst r'
  end.

(** Close a goal that asks for equal results and related writers. *)
Ltac related :=
  simpl; repeat first [assumption | reflexivity | split]; simpl; try done;
  congruence.

Section Layers.
Context {X Y : Type} `{!Writer X, !Writer Y} (R : X → Y → Prop) (HR : Alike R).

Lemma bufio_Flush_sim : Sim (bufio_rel R) bufio.Flush bufio.Flush.
Proof.
  intros [x b e] [y b' e'] (Hxy & Hb & He). simpl in *. subst b' e'.
  unfold bufio.Flush. simpl. destruct e; [done|].
  case_decide; [done|].
  both (HR b) Hxy as r x' y' Hxy'. destruct r as [n e]. simpl.
  destruct (if decide (n < len b ∧ e = None) then Some ErrShortWrite else e);
    done.
Qed.



Lemma bufio_WriteByte_sim c :
  Sim (bufio_rel R) (bufio.WriteByte c) (bufio.WriteByte c).
Proof.
  intros a b Hab. pose proof Hab as (Hxy & Hb & He).
  unfold bufio.WriteByte, bufio.Available. rewrite He, Hb.
  destruct (bufio.err b); [done|].
  case_decide.
  - both bufio_Flush_sim Hab as r a' b' Hab'. destruct Hab' as (Hxy' & Hb' & He').
    destruct r; [rewrite He'; related|]. rewrite Hb', He'. related.
  - related.
Qed.

Lemma blockWriter_Write_loop_sim fuel p total :
  Sim (blockWriter_rel R) (blockWriter_Write_loop fuel p total)
      (blockWriter_Write_loop fuel p total).
Proof.
  revert p total.
  induction fuel as [|fuel IH]; intros p total [x bx nx] [y b' n'] (Hxy & Hb & Hn);
    simpl in Hxy, Hb, Hn; subst b' n'; [related|].
  cbn [blockWriter_Write_loop bw_w bw_buf bw_n].
  case_decide; [|related].
  destruct (copy_into bx (nx + 1) 256 p) as [buf n].
  case_decide.
  - both (HR (slice (<[0%nat:=255]> buf) 0 256)) Hxy as r x' y' Hxy'.
    destruct r as [k [e|]]; [related|]. apply IH. related.
  - apply IH. related.
Qed.

Lemma blockWriter_Write_sim : Alike (blockWriter_rel R).
Proof. intros p. apply blockWriter_Write_loop_sim. Qed.

Lemma blockWriter_close_sim :
  Sim (blockWriter_rel R) blockWriter_close blockWriter_close.
Proof.
  intros [x bx nx] [y b' n'] (Hxy & Hb & Hn).
  simpl in Hxy, Hb, Hn; subst b' n'.
  unfold blockWriter_close. cbn [bw_w bw_buf bw_n].
  case_decide; [|related].
  both (HR (slice (<[0%nat:=uint8 nx]> bx) 0 (nx + 1))) Hxy as r x' y' Hxy'.
  destruct r as [k e]. related.
Qed.

Lemma newBlockWriter_rel x y :
  R x y → blockWriter_rel R (newBlockWriter x) (newBlockWriter y).
Proof. intros H. related. Qed.

Lemma writeUint16_sim v : Sim R (writeUint16 v) (writeUint16 v).
Proof.
  intros x y Hxy. unfold writeUint16.
  both (HR [Z.land v 255; Z.shiftr v 8]) Hxy as r x' y' Hxy'.
  destruct r as [k e]. related.
Qed.

Lemma writeColorTable_loop_sim indices p :
  Sim R (writeColorTable_loop indices p) (writeColorTable_loop indices p).
Proof.
  induction indices as [|i indices IH]; intros x y Hxy; [related|].
  cbn [writeColorTable_loop]. set (rgb := if decide (i < len p) then _ else _).
  both (HR rgb) Hxy as r x' y' Hxy'.
  destruct r as [k [e|]]; [related|]. by apply IH.
Qed.

Lemma writeColorTable_sim p n :
  Sim R (writeColorTable p n) (writeColorTable p n).
Proof. apply writeColorTable_loop_sim. Qed.

Lemma writeChunks_sim chunks : Sim R (writeChunks chunks) (writeChunks chunks).
Proof.
  induction chunks as [|c chunks IH]; intros x y Hxy; [related|].
  cbn [writeChunks].
  both (HR c) Hxy as r x' y' Hxy'.
  destruct r as [k [e|]]; [related|]. by apply IH.
Qed.

Lemma writeParallelLZW_sim pm lw workers :
  Sim R (writeParallelLZW pm lw workers) (writeParallelLZW pm lw workers).
Proof.
  intros x y Hxy. unfold writeParallelLZW. cbv zeta.
  destruct (list_find _ _) as [[i [[e|] d]]|]; [related|..];
    by apply writeChunks_sim.
Qed.

End Layers.

Section LzwLayer.
Context {X Y : Type} `{!Writer X, !Writer Y} (R : X → Y → Prop) (HR : Alike R).

(** Take two related LZW writers apart: the fields they share and the
    relation of their [bufio] writers. *)
Ltac open_lzw Hw :=
  intros [wa la na wia ba ha oa sa ea ta] [wb lb nb wib bb hb ob sb eb tb]
         (Hw & ? & ? & ? & ? & ? & ? & ? & ? & ?);
  simpl in *; subst lb nb wib bb hb ob sb eb tb.

Lemma writeLSB_loop_sim rounds :
  Sim (lzw_rel R) (lzw.writeLSB_loop rounds) (lzw.writeLSB_loop rounds).
Proof.
  induction rounds as [|rounds IH]; open_lzw Hw; [related|].
  both (bufio_WriteByte_sim R HR (uint8 ba)) Hw as r wa' wb' Hw'.
  destruct r as [e|]; [related|]. apply IH. related.
Qed.

Lemma writeLSB_sim c : Sim (lzw_rel R) (lzw.writeLSB c) (lzw.writeLSB c).
Proof.
  open_lzw Hw. unfold lzw.writeLSB. simpl. apply writeLSB_loop_sim. related.
Qed.

Lemma lzw_rel_codes a b width' hi' overflow' :
  lzw_rel R a b →
  lzw_rel R (lzw.with_codes a width' hi' overflow')
            (lzw.with_codes b width' hi' overflow').
Proof. revert a b. open_lzw Hw. related. Qed.

Lemma lzw_rel_table a b t :
  lzw_rel R a b → lzw_rel R (lzw.with_table a t) (lzw.with_table b t).
Proof. revert a b. open_lzw Hw. related. Qed.

Lemma lzw_rel_err a b e :
  lzw_rel R a b → lzw_rel R (lzw.with_err a e) (lzw.with_err b e).
Proof. revert a b. open_lzw Hw. related. Qed.

Lemma lzw_rel_savedCode a b c :
  lzw_rel R a b → lzw_rel R (lzw.with_savedCode a c) (lzw.with_savedCode b c).
Proof. revert a b. open_lzw Hw. related. Qed.

(** The fields two related LZW writers share. *)
Ltac fields H :=
  let Hw := fresh "Hw" in let Hl := fresh "Hl" in let Hn := fresh "Hn" in
  let Hwi := fresh "Hwi" in let Hb := fresh "Hb" in let Hh := fresh "Hh" in
  let Ho := fresh "Ho" in let Hs := fresh "Hs" in let He := fresh "He" in
  let Ht := fresh "Ht" in
  pose proof H as (Hw & Hl & Hn & Hwi & Hb & Hh & Ho & Hs & He & Ht);
  rewrite ?Hl, ?Hn, ?Hwi, ?Hb, ?Hh, ?Ho, ?Hs, ?He, ?Ht;
  clear Hw Hl Hn Hwi Hb Hh Ho Hs He Ht.

Lemma incHi_sim : Sim (lzw_rel R) lzw.incHi lzw.incHi.
Proof.
  intros a b Hab. unfold lzw.incHi. cbv zeta. fields Hab.
  set (za := if decide (lzw.hi b + 1 = lzw.overflow b) then _ else _).
  set (zb := if decide (lzw.hi b + 1 = lzw.overflow b) then _ else _).
  assert (Hz : lzw_rel R za zb)
    by (subst za zb; case_decide; by apply lzw_rel_codes).
  clearbody za zb. fields Hz.
  case_decide; [|related].
  both (writeLSB_sim (Z.shiftl 1 (lzw.litWidth zb))) Hz as r a' b' Hab'.
  destruct r as [e|]; [related|]. fields Hab'.
  split; [done|]. by apply lzw_rel_table, lzw_rel_codes.
Qed.

Lemma Write_loop_sim p code :
  Sim (lzw_rel R) (lzw.Write_loop p code) (lzw.Write_loop p code).
Proof.
  revert code. induction p as [|x p IH]; intros code a b Hab; [related|].
  cbn [lzw.Write_loop]. fields Hab.
  destruct (lzw.table b !! _); [by apply IH|].
  both (writeLSB_sim code) Hab as r a' b' Hab'.
  destruct r as [e|]; [split; [done|]; by apply lzw_rel_err|].
  both incHi_sim Hab' as r a2 b2 Hab2. fields Hab2.
  destruct r as [| |e].
  - apply IH. by apply lzw_rel_table.
  - by apply IH.
  - split; [done|]. by apply lzw_rel_err.
Qed.

Lemma lzw_Write_sim p : Sim (lzw_rel R) (lzw.Write_ p) (lzw.Write_ p).
Proof.
  intros a b Hab. unfold lzw.Write_. fields Hab.
  destruct (lzw.err b); [related|].
  case_decide; [related|].
  case_decide; [split; [done|]; by apply lzw_rel_err|].
  case_decide.
  - both (writeLSB_sim (Z.shiftl 1 (lzw.litWidth b))) Hab as r a' b' Hab'.
    destruct r as [e|]; [related|].
    both (Write_loop_sim (tl p) (lzw.uint32 (hd 0 p))) Hab' as r a2 b2 Hab2.
    destruct r as [[e|] c]; [related|].
    split; [done|]. by apply lzw_rel_savedCode.
  - both (Write_loop_sim p (lzw.savedCode b)) Hab as r a2 b2 Hab2.
    destruct r as [[e|] c]; [related|].
    split; [done|]. by apply lzw_rel_savedCode.
Qed.

Lemma lzw_rel_w a b wx wy :
  lzw_rel R a b → bufio_rel R wx wy →
  lzw_rel R (lzw.with_w a wx) (lzw.with_w b wy).
Proof. revert a b. open_lzw Hw. intros. related. Qed.

(** The end of [Close]: the end code, the last bits, the flush. *)
Ltac close_tail H :=
  let r := fresh "r" in let e := fresh "e" in
  let a3 := fresh "a" in let b3 := fresh "b" in let H3 := fresh "H" in
  let Hw3 := fresh "Hw" in
  let wa4 := fresh "wa" in let wb4 := fresh "wb" in let Hw4 := fresh "Hw" in
  let wa5 := fresh "wa" in let wb5 := fresh "wb" in let Hw5 := fresh "Hw" in
  fields H;
  match goal with
  | |- context [lzw.writeLSB ?c _] =>
    both (writeLSB_sim c) H as r a3 b3 H3
  end;
  destruct r as [e|]; [related|]; fields H3;
  pose proof H3 as [Hw3 _];
  case_decide;
  [ both (bufio_WriteByte_sim R HR (uint8 (lzw.bits b3))) Hw3 as r wa4 wb4 Hw4;
    destruct r as [e|]; [split; [done|]; by apply lzw_rel_w|];
    cbn [fmap option_fmap option_map lzw.w lzw.with_w];
    both (bufio_Flush_sim R HR) Hw4 as r wa5 wb5 Hw5;
    split; [done|]; by repeat (apply lzw_rel_w; try done)
  | both (bufio_Flush_sim R HR) Hw3 as r wa5 wb5 Hw5;
    split; [done|]; by apply lzw_rel_w ].

Lemma lzw_Close_sim : Sim (lzw_rel R) lzw.Close lzw.Close.
Proof.
  intros a b Hab. unfold lzw.Close. fields Hab.
  destruct (lzw.err b); [related|]. cbv zeta.
  assert (Hz : lzw_rel R (lzw.with_err a (Some lzw.ErrClosed))
                         (lzw.with_err b (Some lzw.ErrClosed)))
    by by apply lzw_rel_err.
  set (za := lzw.with_err a _) in *. set (zb := lzw.with_err b _) in *.
  clearbody za zb. fields Hz.
  case_decide.
  - both (writeLSB_sim (lzw.savedCode zb)) Hz as r a1 b1 H1.
    destruct r as [e|]; [related|].
    both incHi_sim H1 as r a2 b2 H2.
    destruct r as [| |e]; [close_tail H2|close_tail H2|related].
  - both (writeLSB_sim (Z.shiftl 1 (lzw.litWidth zb))) Hz as r a1 b1 H1.
    destruct r as [e|]; [related|]. close_tail H1.
Qed.

End LzwLayer.

Lemma NewWriter_rel {X Y} (R : X → Y → Prop) x y lw :
  R x y → lzw_rel R (lzw.NewWriter x lw) (lzw.NewWriter y lw).
Proof. intros H. related. Qed.

Section CompressorSim.
Context {X Y : Type} `{!Writer X, !Writer Y} (R : X → Y → Prop) (HR : Alike R).

Lemma writeLZWData_sim pm lw workers :
  Sim R (writeLZWData pm lw workers) (writeLZWData pm lw workers).
Proof.
  intros x y Hxy. unfold writeLZWData. cbv zeta.
  case_decide; [by apply writeParallelLZW_sim|].
  set (data := gatherRows _ _ _ _).
  pose proof (blockWriter_Write_sim R HR) as HB.
  assert (Hz : lzw_rel (blockWriter_rel R)
                 (lzw.NewWriter (newBlockWriter x) lw)
                 (lzw.NewWriter (newBlockWriter y) lw))
    by by apply NewWriter_rel, newBlockWriter_rel.
  both (lzw_Write_sim (blockWriter_rel R) HB data) Hz as r a1 b1 H1.
  destruct r as [n [e|]].
  - both (lzw_Close_sim (blockWriter_rel R) HB) H1 as r a2 b2 H2.
    split; [done|]. apply H2.
  - both (lzw_Close_sim (blockWriter_rel R) HB) H1 as r a2 b2 H2.
    destruct H2 as [[Hbw _] _].
    destruct r as [e|]; [split; [done|]; apply Hbw|].
    both (blockWriter_close_sim R HR) Hbw as r a3 b3 H3.
    split; [done|]. apply H3.
Qed.

End CompressorSim.

(** The serializer works on a [bufio.Writer]; [Q] relates two of them and
    is kept by the three methods the serializer calls. *)
Section SerializerSim.
Context {X Y : Type} `{!Writer X, !Writer Y}
        (Q : bufio.Writer_ X → bufio.Writer_ Y → Prop)
        (HQW : Alike Q)
        (HQB : ∀ c, Sim Q (bufio.WriteByte c) (bufio.WriteByte c))
        (HQF : Sim Q bufio.Flush bufio.Flush).

Lemma bind_both {A B} (P : B → bufio.Writer_ X → Prop)
    (m1 : M (bufio.Writer_ X) A) (m2 : M (bufio.Writer_ Y) A)
    (k1 : A → M (bufio.Writer_ X) B) (k2 : A → M (bufio.Writer_ Y) B) x y :
  Sim Q m1 m2 → Q x y →
  (∀ a x' y', Q x' y' →
     ∃ e bx by_, k1 a x' = (e, bx) ∧ k2 a y' = (e, by_) ∧ Q bx by_ ∧ P e bx) →
  ∃ e bx by_, (m1 ≫= k1) x = (e, bx) ∧ (m2 ≫= k2) y = (e, by_) ∧
              Q bx by_ ∧ P e bx.
Proof.
  intros Hm Hxy Hk. unfold mbind, M_bind.
  both Hm Hxy as a x' y' Hxy'. by apply Hk.
Qed.

Lemma bufio_Flush_None (b : bufio.Writer_ X) :
  (bufio.Flush b).1 = None → bufio.err (bufio.Flush b).2 = None.
Proof.
  unfold bufio.Flush. destruct (bufio.err b) eqn:E; [done|].
  case_decide; [done|].
  destruct (Write _ _) as [[n e] w']. simpl.
  by destruct (if decide (n < len (bufio.buf b) ∧ e = None)
               then Some ErrShortWrite else e).
Qed.

Lemma unwrap_both (P : option error → bufio.Writer_ X → Prop)
    (r1 : option error * bufio.Writer_ X) (r2 : option error * bufio.Writer_ Y) :
  (∃ e bx by_, r1 = (e, bx) ∧ r2 = (e, by_) ∧ Q bx by_ ∧ P e bx) →
  ∃ e bx by_,
    (let '(e, bw) := r1 in (e, bufio.wr bw)) = (e, bufio.wr bx) ∧
    (let '(e, bw) := r2 in (e, bufio.wr bw)) = (e, bufio.wr by_) ∧
    Q bx by_ ∧ P e bx.
Proof. intros (e & bx & by_ & -> & -> & HQ & HP). by exists e, bx, by_. Qed.

(** Run the next step of the serializer on both sides. *)
Ltac both_step lem :=
  match goal with
  | H : Q _ _ |- _ =>
    eapply bind_both; [apply lem | exact H |]; clear H;
    let a := fresh "a" in let x' := fresh "x" in let y' := fresh "y" in
    intros a x' y' H
  end.

Lemma encodeGIF_sim pm workers x y :
  Q (bufio.NewWriter x) (bufio.NewWriter y) →
  ∃ e bx by_,
    encodeGIF pm workers x = (e, bufio.wr bx) ∧
    encodeGIF pm workers y = (e, bufio.wr by_) ∧
    Q bx by_ ∧ (e = None → bufio.err bx = None).
Proof.
  intros H0. unfold encodeGIF.
  case_decide.
  { exists (Some ErrEmptyPalette), (bufio.NewWriter x), (bufio.NewWriter y).
    done. }
  cbv zeta. apply unwrap_both.
  both_step (HQW signature).
  do 2 both_step (writeUint16_sim Q HQW).
  do 3 both_step HQB.
  both_step (writeColorTable_sim Q HQW).
  both_step HQB.
  do 4 both_step (writeUint16_sim Q HQW).
  do 2 both_step HQB.
  match goal with
  | H : Q _ _ |- _ =>
    eapply bind_both; [apply (writeLZWData_sim Q HQW) | exact H |]; clear H;
    intros [e|] bx1 by1 H
  end.
  { exists (Some e), bx1, by1. done. }
  do 2 both_step HQB.
  unfold mbind, M_bind.
  match goal with
  | H : Q ?bx2 _ |- _ =>
    pose proof (bufio_Flush_None bx2) as HN;
    both HQF H as r bx by_ HQ
  end.
  exists (ErrWrite <$> r), bx, by_. repeat split; try done.
  intros E. apply HN. by destruct r.
Qed.

Lemma Encode_sim NumCPU m o x y :
  Q (bufio.NewWriter x) (bufio.NewWriter y) →
  ∃ e bx by_,
    Encode NumCPU m o x = (e, bufio.wr bx) ∧
    Encode NumCPU m o y = (e, bufio.wr by_) ∧
    Q bx by_ ∧ (e = None → bufio.err bx = None).
Proof.
  intros H0. unfold Encode. cbv zeta.
  case_decide; [|by apply encodeGIF_sim].
  exists (Some ErrTooLarge), (bufio.NewWriter x), (bufio.NewWriter y). done.
Qed.

End SerializerSim.

(** ** Any dependable writer gets the bytes a [bytes.Buffer] gets *)

Lemma Reliable_Alike {W} `{!Writer W} (V : View W) base :
  Reliable V → Alike (λ (x : W) (b : Buffer), V x (base ++ Bytes b)).
Proof.
  intros HV p x b Hxb. destruct (HV p x _ Hxb) as (x' & E & H).
  rewrite E. simpl. split; [done|]. by rewrite app_assoc.
Qed.




(** ** A failed write is never lost *)

Lemma Sim_diag {S A} (J : S → Prop) (m : M S A) :
  (∀ s, J s → J (m s).2) → Sim (λ a b, a = b ∧ J a) m m.
Proof. intros H a b [<- Ha]. split; [done|]. split; [done|]. by apply H. Qed.

Section Noticed.
Context {W : Type} `{!Writer W} (n0 : Z).

Lemma noticed_Flush (b : bufio.Writer_ (Logged W)) :
  noticed n0 b → noticed n0 (bufio.Flush b).2.
Proof.
  intros Hb. unfold bufio.Flush. destruct (bufio.err b) eqn:E; [done|].
  case_decide; [done|].
  unfold Write at 1, Logged_Writer.
  destruct (Write (bufio.buf b) (inner (bufio.wr b))) as [[n e] w'].
  destruct e as [e|]; simpl.
  { case_decide as Hc; [by destruct Hc|]. done. }
  case_decide; simpl; [done|].
  unfold noticed in *. simpl. rewrite E in Hb. intros Hf. apply Hb. lia.
Qed.

Lemma noticed_Write_loop fuel p nn (b : bufio.Writer_ (Logged W)) :
  noticed n0 b → noticed n0 (bufio.Write_loop fuel p nn b).2.
Proof.
  revert p nn b. induction fuel as [|fuel IH]; intros p nn b Hb; [done|].
  cbn [bufio.Write_loop]. case_decide as Hc; [|done]. destruct Hc as [_ E].
  case_decide.
  - unfold Write at 1, Logged_Writer.
    destruct (Write p (inner (bufio.wr b))) as [[n e] w'].
    apply IH. unfold noticed in *. simpl. rewrite E in Hb.
    destruct e; [done|]. intros Hf. apply Hb. lia.
  - set (b1 := bufio.Mk _ _ _).
    assert (H1 : noticed n0 b1) by done.
    apply noticed_Flush in H1. destruct (bufio.Flush b1) as [e b2].
    by apply IH.
Qed.

Lemma noticed_Write p (b : bufio.Writer_ (Logged W)) :
  noticed n0 b → noticed n0 (Write p b).2.
Proof.
  intros Hb. unfold Write, bufio.Writer_Writer, bufio.Write_.
  pose proof (noticed_Write_loop (S (S (S (length p)))) p 0 b Hb) as H1.
  destruct (bufio.Write_loop _ _ _ _) as [[p' nn] b1]. simpl in H1.
  destruct (bufio.err b1) eqn:E; [done|].
  unfold noticed in *. simpl. by rewrite E in H1.
Qed.

Lemma noticed_WriteByte c (b : bufio.Writer_ (Logged W)) :
  noticed n0 b → noticed n0 (bufio.WriteByte c b).2.
Proof.
  intros Hb. unfold bufio.WriteByte. destruct (bufio.err b) eqn:E; [done|].
  case_decide.
  - pose proof (noticed_Flush b Hb) as H1.
    pose proof (bufio_Flush_None b) as H2.
    destruct (bufio.Flush b) as [e b1]. simpl in H1, H2.
    destruct e; [done|]. exact H1.
  - unfold noticed in *. simpl. by rewrite E in Hb.
Qed.

Lemma Encode_noticed NumCPU m o (s : Logged W) :
  failures s = n0 →
  let r := Encode NumCPU m o s in
  failures r.2 > n0 → r.1 ≠ None.
Proof.
  intros Hs r Hf.
  destruct (Encode_sim (λ a b, a = b ∧ noticed n0 a)
              (λ p, Sim_diag (noticed n0) (Write p) (noticed_Write p))
              (λ c, Sim_diag (noticed n0) _ (noticed_WriteByte c))
              (Sim_diag (noticed n0) _ noticed_Flush)
              NumCPU m o s s)
    as (e & bx & by_ & E1 & _ & (_ & HJ) & HN).
  { split; [done|]. unfold noticed. simpl. lia. }
  subst r. rewrite E1 in *. simpl in *. intros ->.
  by apply (HJ Hf), HN.
Qed.

End Noticed.

(** X2: [Encode] never returns nil after a [Write] to the destination has
    failed: if the destination returned an error on any call, [Encode]
    returns an error, although the serializer drops the results of most of
    its writes. *)
Theorem Encode_reports_failed_write {W} `{!Writer W}
    (NumCPU : Z) (m : image.Image) (o : option Options) (s : Logged W) :
  let r := Encode NumCPU m o s in
  failures r.2 > failures s → r.1 ≠ None.
Proof. by apply Encode_noticed. Qed.

Lemma Encode_reports_failed_write_witness :
  let r := Encode 1 (solid 1 1 (color.RGBA 255 0 0 255)) None
                  (MkLogged (MkLimited [] 10) 0) in
  failures r.2 > failures (MkLogged (MkLimited [] 10) 0) ∧ r.1 ≠ None.
Proof.
  assert (H : failures (Encode 1 (solid 1 1 (color.RGBA 255 0 0 255)) None
                               (MkLogged (MkLimited [] 10) 0)).2
              > failures (MkLogged (MkLimited [] 10) 0))
    by (vm_compute; reflexivity).
  split; [exact H|].
  exact (Encode_reports_failed_write 1 (solid 1 1 (color.RGBA 255 0 0 255)) None
           (MkLogged (MkLimited [] 10) 0) H).
Defined.

(** ** The errors [Encode] can return *)

Section LzwErrors.
Context {X : Type} `{!Writer X}.

Lemma writeLSB_loop_io rounds (z : lzw.Writer_ X) :
  let r := lzw.writeLSB_loop rounds z in
  lzw_io r.1 ∧ lzw.err r.2 = lzw.err z ∧ lzw.litWidth r.2 = lzw.litWidth z.
Proof.
  revert z. induction rounds as [|rounds IH]; intros z; [done|].
  cbn [lzw.writeLSB_loop].
  destruct (bufio.WriteByte _ _) as [[e|] w']; [done|].
  destruct (IH (lzw.with_bits (lzw.with_w z w') (Z.shiftr (lzw.bits z) 8)
                              (lzw.nBits z - 8))) as (H1 & H2 & H3).
  done.
Qed.

Lemma writeLSB_io c (z : lzw.Writer_ X) :
  let r := lzw.writeLSB c z in
  lzw_io r.1 ∧ lzw.err r.2 = lzw.err z ∧ lzw.litWidth r.2 = lzw.litWidth z.
Proof.
  unfold lzw.writeLSB. cbv zeta. set (z1 := lzw.with_bits z _ _).
  destruct (writeLSB_loop_io (Z.to_nat (lzw.nBits z1 ÷ 8)) z1) as (H1 & H2 & H3).
  done.
Qed.

Lemma incHi_io (z : lzw.Writer_ X) :
  let r := lzw.incHi z in
  (∀ e, r.1 = lzw.IncErr e → lzw_io (Some e)) ∧
  lzw.err r.2 = lzw.err z ∧ lzw.litWidth r.2 = lzw.litWidth z.
Proof.
  unfold lzw.incHi. cbv zeta.
  set (z1 := if decide (lzw.hi z + 1 = lzw.overflow z) then _ else _).
  assert (H1 : lzw.err z1 = lzw.err z ∧ lzw.litWidth z1 = lzw.litWidth z)
    by (subst z1; by case_decide).
  clearbody z1. destruct H1 as [<- <-].
  case_decide; [|done].
  destruct (writeLSB_io (Z.shiftl 1 (lzw.litWidth z1)) z1) as (H1 & H2 & H3).
  destruct (lzw.writeLSB _ z1) as [[e|] z2]; simpl in *; [|done].
  split; [|done]. by intros ? [= <-].
Qed.

Lemma Write_loop_io p code (z : lzw.Writer_ X) :
  let r := lzw.Write_loop p code z in
  lzw_io r.1.1 ∧ (r.1.1 = None → lzw.err r.2 = lzw.err z) ∧
  lzw.litWidth r.2 = lzw.litWidth z.
Proof.
  revert code z. induction p as [|x p IH]; intros code z; [done|].
  cbn [lzw.Write_loop]. destruct (lzw.table z !! _); [apply IH|].
  destruct (writeLSB_io code z) as (H1 & H2 & H3).
  destruct (lzw.writeLSB code z) as [[e|] z1]; simpl in *; [done|].
  destruct (incHi_io z1) as (H4 & H5 & H6).
  destruct (lzw.incHi z1) as [[| |e] z2]; simpl in *.
  - destruct (IH x (lzw.with_table z2 (<[Z.lor (Z.shiftl code 8) x:=lzw.hi z2]>
                                         (lzw.table z2)))) as (H7 & H8 & H9).
    simpl in *. split; [done|]. split; [|congruence].
    intros E. rewrite (H8 E). congruence.
  - destruct (IH x z2) as (H7 & H8 & H9). split; [done|]. split; [|congruence].
    intros E. rewrite (H8 E). congruence.
  - split; [by apply H4|]. split; [done|]. congruence.
Qed.

Lemma lzw_Write_io p (z : lzw.Writer_ X) :
  lzw.err z = None → lzw.litWidth z = 8 →
  let r := lzw.Write_ p z in
  lzw_io r.1.2 ∧ (r.1.2 = None → lzw.err r.2 = None).
Proof.
  intros He Hl. unfold lzw.Write_. rewrite He, Hl.
  case_decide; [done|].
  rewrite decide_False by (intros [Hm _]; by apply Hm).
  case_decide.
  - destruct (writeLSB_io (Z.shiftl 1 8) z) as (H1 & H2 & H3).
    destruct (lzw.writeLSB _ z) as [[e|] z1]; simpl in *; [done|].
    destruct (Write_loop_io (tl p) (lzw.uint32 (hd 0 p)) z1) as (H4 & H5 & H6).
    destruct (lzw.Write_loop _ _ z1) as [[[e|] c] z2]; simpl in *; [done|].
    split; [done|]. intros _. rewrite H5 by done. congruence.
  - destruct (Write_loop_io p (lzw.savedCode z) z) as (H4 & H5 & H6).
    destruct (lzw.Write_loop _ _ z) as [[[e|] c] z2]; simpl in *; [done|].
    split; [done|]. intros _. rewrite H5 by done. congruence.
Qed.

Lemma lzw_Close_io (z : lzw.Writer_ X) :
  lzw.err z = None → lzw_io (lzw.Close z).1.
Proof.
  intros He. unfold lzw.Close. rewrite He. cbv zeta.
  set (z0 := lzw.with_err z _). clearbody z0.
  assert (Tail : ∀ z1 : lzw.Writer_ X,
    lzw_io (let '(e, z2) := lzw.writeLSB (Z.shiftl 1 (lzw.litWidth z1) + 1) z1 in
            match e with
            | Some e => (Some e, z2)
            | None =>
              let '(e, z3) :=
                if decide (lzw.nBits z2 > 0) then
                  let '(e, w') := bufio.WriteByte (uint8 (lzw.bits z2)) (lzw.w z2) in
                  (lzw.ErrIO <$> e, lzw.with_w z2 w')
                else (None, z2) in
              match e with
              | Some e => (Some e, z3)
              | None =>
                let '(e, w') := bufio.Flush (lzw.w z3) in
                (lzw.ErrIO <$> e, lzw.with_w z3 w')
              end
            end).1).
  { intros z1.
    destruct (writeLSB_io (Z.shiftl 1 (lzw.litWidth z1) + 1) z1) as (H1 & _).
    destruct (lzw.writeLSB _ z1) as [[e|] z2]; simpl in *; [done|].
    case_decide.
    - destruct (bufio.WriteByte _ _) as [[e|] w']; simpl; [done|].
      by destruct (bufio.Flush _) as [[e|] w2].
    - by destruct (bufio.Flush _) as [[e|] w2]. }
  case_decide.
  - destruct (writeLSB_io (lzw.savedCode z0) z0) as (H1 & _).
    destruct (lzw.writeLSB _ z0) as [[e|] z1]; simpl in *; [done|].
    destruct (incHi_io z1) as (H4 & _).
    destruct (lzw.incHi z1) as [[| |e] z2]; simpl in *;
      [apply Tail|apply Tail|by apply H4].
  - destruct (writeLSB_io (Z.shiftl 1 (lzw.litWidth z0)) z0) as (H1 & _).
    destruct (lzw.writeLSB _ z0) as [[e|] z1]; simpl in *; [done|].
    apply Tail.
Qed.

End LzwErrors.

Lemma writeChunks_io {X} `{!Writer X} chunks (x : X) :
  from_destination (writeChunks chunks x).1.
Proof.
  revert x. induction chunks as [|c chunks IH]; intros x; [done|].
  cbn [writeChunks]. destruct (Write c x) as [[? [e|]] x']; [done|]. apply IH.
Qed.

Lemma writeLZWData_io {X} `{!Writer X} pm workers (x : X) :
  from_destination (writeLZWData pm 8 workers x).1.
Proof.
  unfold writeLZWData. cbv zeta. case_decide.
  - unfold writeParallelLZW. cbv zeta.
    destruct (list_find _ _) as [[i [[e|] c]]|] eqn:Ef;
      [|apply writeChunks_io..].
    apply list_find_Some in Ef as (Hi & _ & _).
    apply list_elem_of_lookup_2, list_elem_of_fmap in Hi as ([sy ey] & Heq & _).
    destruct (compressStrip_ok pm 8 (image.Dx (image.Rect pm)) sy ey) as [d Hd];
      [by left|].
    rewrite Hd in Heq. done.
  - set (z := lzw.NewWriter _ _).
    destruct (lzw_Write_io (gatherRows pm (image.Dx (image.Rect pm))
                              (image.Dy (image.Rect pm)) workers) z)
      as [H1 H2]; [done..|].
    destruct (lzw.Write_ _ z) as [[? [e|]] z1]; simpl in *.
    + by destruct (lzw.Close z1).
    + pose proof (lzw_Close_io z1 (H2 eq_refl)) as H3.
      destruct (lzw.Close z1) as [[e|] z2]; simpl in *; [done|].
      by destruct (blockWriter_close _) as [[e|] b].
Qed.

Lemma unwrap_from_destination {W} (r : option error * bufio.Writer_ W) :
  from_destination r.1 →
  from_destination (let '(e, bw) := r in (e, bufio.wr bw)).1.
Proof. by destruct r. Qed.

Lemma encodeGIF_io {W} `{!Writer W} pm workers (w : W) :
  image.Palette pm ≠ [] → litWidthOf (len (image.Palette pm)) = 8 →
  from_destination (encodeGIF pm workers w).1.
Proof.
  intros Hne Hlw. unfold encodeGIF.
  rewrite decide_False
    by (destruct (image.Palette pm); [done|unfold len; simpl; lia]).
  cbv zeta. rewrite Hlw. apply unwrap_from_destination.
  do 14 (apply bind_result; intros ? ? _).
  apply bind_result. intros [e|] st Hst.
  - match type of Hst with
    | writeLZWData ?pm ?lw ?wk ?s0 = _ =>
      pose proof (writeLZWData_io pm wk s0) as H'
    end.
    rewrite Hst in H'. exact H'.
  - do 2 (apply bind_result; intros ? ? _).
    apply bind_result. by intros [e|] ? _.
Qed.

(** X3: whatever the destination does, the only errors [Encode] returns
    are the image-too-large error and errors that a write to the
    destination returned: never the empty-palette error, and never the
    LZW writer's input-too-large or closed errors. *)
Theorem Encode_errors {W} `{!Writer W}
    (NumCPU : Z) (m : image.Image) (o : option Options) (w : W) :
  match (Encode NumCPU m o w).1 with
  | None | Some ErrTooLarge | Some (ErrWrite _) | Some (ErrLzw (lzw.ErrIO _)) =>
    True
  | Some ErrEmptyPalette | Some (ErrLzw lzw.ErrInputTooLarge)
  | Some (ErrLzw lzw.ErrClosed) => False
  end.
Proof.
  unfold Encode. cbv zeta. case_decide; [done|].
  fold (workersOf NumCPU o).
  destruct (Encode_paletted m (workersOf NumCPU o)) as (Hp & _).
  cbv zeta in Hp.
  set (pm := if decide _ then _ else _) in *.
  pose proof (encodeGIF_io pm (workersOf NumCPU o) w) as Hio.
  rewrite Hp in Hio. specialize (Hio ltac:(done) ltac:(done)).
  by destruct (encodeGIF pm (workersOf NumCPU o) w) as [[[| |[| |?]|?]|] ?].
Qed.

(** ** The index buffer as a whole *)

Lemma coords_length (xs ys : list Z) :
  length (coords xs ys) = (length ys * length xs)%nat.
Proof.
  unfold coords. induction ys as [|y ys IH]; [done|].
  rewrite bind_cons, length_app, length_fmap, IH. simpl. lia.
Qed.

Lemma coords_lookup (xs ys : list Z) (r c : nat) x y :
  ys !! r = Some y → xs !! c = Some x →
  coords xs ys !! (r * length xs + c)%nat = Some (x, y).
Proof.
  unfold coords. revert r. induction ys as [|y0 ys IH]; intros r Hr Hc; [done|].
  rewrite bind_cons. destruct r as [|r]; simpl in Hr.
  - injection Hr as ->. change (0 * length xs + c)%nat with c.
    rewrite lookup_app_l
      by (rewrite length_fmap; apply lookup_lt_Some in Hc; lia).
    by rewrite list_lookup_fmap, Hc.
  - rewrite lookup_app_r by (rewrite length_fmap; lia).
    rewrite length_fmap.
    replace (S r * length xs + c - length xs)%nat with (r * length xs + c)%nat
      by lia.
    by apply IH.
Qed.

Lemma indexBuffer_length m :
  0 <= image.Dx (image.Bounds m) → 0 <= image.Dy (image.Bounds m) →
  length (indexBuffer m) =
  Z.to_nat (image.Dx (image.Bounds m) * image.Dy (image.Bounds m)).
Proof.
  intros Hx Hy. unfold indexBuffer. cbv zeta.
  rewrite length_fmap, coords_length, !length_seqZ. lia.
Qed.

Lemma indexBuffer_valid m : Forall (λ i, 0 <= i < 216) (indexBuffer m).
Proof.
  unfold indexBuffer. cbv zeta. apply Forall_fmap, Forall_forall.
  intros [x y] _. simpl. pose proof (pixel_index_range m x y). lia.
Qed.

(** Every byte of the buffer is the index of its pixel: no pixel is left
    out and none is written in the wrong place. *)
Lemma mapColors_Pix m p workers :
  1 <= workers →
  0 <= image.Dx (image.Bounds m) → 0 <= image.Dy (image.Bounds m) →
  image.Pix (mapColors (image.NewPaletted (image.Bounds m) p) m workers) =
  indexBuffer m.
Proof.
  intros Hw Hx Hy.
  rewrite mapColors_one_pass by done. cbv zeta.
  set (b := image.Bounds m) in *.
  set (pm0 := image.NewPaletted b p).
  set (cs := coords _ _).
  pose proof (NewPaletted_packed b p) as Hpk. fold pm0 in Hpk.
  destruct (foldl_setPixel_shape m cs pm0) as (_ & _ & _ & Hlen).
  apply list_eq. intros i.
  destruct (decide (i < length (indexBuffer m))%nat) as [Hi|Hi].
  2:{ rewrite !lookup_ge_None_2; [done|lia|].
      rewrite Hlen. destruct Hpk as [_ ->]. rewrite indexBuffer_length in Hi by done.
      subst pm0 b. simpl. lia. }
  rewrite indexBuffer_length in Hi by done. fold b in Hi.
  set (dx := image.Dx b) in *. set (dy := image.Dy b) in *.
  assert (Hdx : 0 < dx) by nia.
  set (r := (i / Z.to_nat dx)%nat). set (c := (i mod Z.to_nat dx)%nat).
  assert (Hi' : i = (r * Z.to_nat dx + c)%nat).
  { subst r c. pose proof (Nat.div_mod_eq i (Z.to_nat dx)). lia. }
  assert (Hc : (c < Z.to_nat dx)%nat) by (subst c; apply Nat.mod_upper_bound; lia).
  assert (Hr : (r < Z.to_nat dy)%nat).
  { apply Nat.Div0.div_lt_upper_bound. lia. }
  set (x := image.X (image.Min b) + Z.of_nat c).
  set (y := image.Y (image.Min b) + Z.of_nat r).
  assert (Hlk : cs !! i = Some (x, y)).
  { subst cs. rewrite Hi'.
    replace (Z.to_nat dx) with (length (seqZ (image.X (image.Min b)) dx))
      by (rewrite length_seqZ; done).
    apply coords_lookup; apply lookup_seqZ; subst x y; lia. }
  assert (Hin : image.In (image.MkPoint x y) (image.Rect pm0)).
  { subst pm0 x y dx dy. unfold image.In, image.Dx, image.Dy in *. simpl. lia. }
  assert (Hoff : Z.to_nat (image.PixOffset pm0 x y) = i).
  { subst pm0 x y. unfold image.PixOffset. simpl. fold dx. nia. }
  pose proof (foldl_setPixel_lookup m cs pm0 x y Hpk
                ltac:(by eapply list_elem_of_lookup_2) Hin) as Hpix.
  rewrite Hoff in Hpix. rewrite Hpix.
  unfold indexBuffer. cbv zeta. fold b dx dy cs.
  rewrite list_lookup_fmap, Hlk. simpl. f_equal.
  pose proof (pixel_index_range m x y). unfold uint8.
  apply Z.mod_small. lia.
Qed.

(** [Encode] is its size check followed by the serializer run on the
    quantized image. *)
Lemma Encode_quantized {W} `{!Writer W} NumCPU m o (w : W) :
  1 <= NumCPU →
  0 <= image.Dx (image.Bounds m) < 65536 →
  0 <= image.Dy (image.Bounds m) < 65536 →
  Encode NumCPU m o w = encodeGIF (quantized m) (workersOf NumCPU o) w.
Proof.
  intros Hn Hx Hy. unfold Encode. cbv zeta. change (Z.shiftl 1 16) with 65536.
  rewrite decide_False by lia. fold (workersOf NumCPU o). f_equal.
  pose proof (mapColors_Pix m palette.WebSafe (workersOf NumCPU o)
                (workersOf_pos _ o Hn) ltac:(lia) ltac:(lia)) as HP.
  destruct (mapColors_shape (image.NewPaletted (image.Bounds m) palette.WebSafe)
              m (workersOf NumCPU o)) as (Hs & Hr & Hp & _).
  destruct (mapColors _ m _) as [pix stride rect pal]. simpl in *. subst.
  unfold quantized. cbv zeta.
  destruct (image.Bounds m) as [[x0 y0] [x1 y1]].
  unfold image.Sub, image.Dx, image.Dy in *. simpl in *.
  case_decide as Hmin.
  - f_equal; [lia|]. f_equal; f_equal; lia.
  - assert (image.MkPoint x0 y0 = image.MkPoint 0 0) as [= -> ->]
      by (destruct (decide (image.MkPoint x0 y0 = image.MkPoint 0 0)); done).
    f_equal; [lia|]. f_equal; f_equal; lia.
Qed.

(** ** Where the image sits does not matter *)

Lemma coords_fmap (f g : Z → Z) (xs ys : list Z) :
  coords (f <$> xs) (g <$> ys) = (λ c, (f c.1, g c.2)) <$> coords xs ys.
Proof.
  unfold coords. induction ys as [|y ys IH]; [done|].
  rewrite fmap_cons, !bind_cons, fmap_app, IH. f_equal.
  rewrite <- !list_fmap_compose. done.
Qed.

Lemma pixel_index_translate m d x y :
  pixel_index (translate m d) (x + image.X d) (y + image.Y d) =
  pixel_index m x y.
Proof.
  unfold pixel_index, translate. simpl.
  destruct (image.RGBA64At m); simpl; by rewrite !Z.add_simpl_r.
Qed.

Lemma translate_Dx m d :
  image.Dx (image.Bounds (translate m d)) = image.Dx (image.Bounds m).
Proof. unfold translate, image.Dx. simpl. lia. Qed.

Lemma translate_Dy m d :
  image.Dy (image.Bounds (translate m d)) = image.Dy (image.Bounds m).
Proof. unfold translate, image.Dy. simpl. lia. Qed.

Lemma indexBuffer_translate m d : indexBuffer (translate m d) = indexBuffer m.
Proof.
  unfold indexBuffer. cbv zeta. rewrite translate_Dx, translate_Dy.
  cbn [translate image.Bounds image.Min image.X image.Y].
  rewrite (Z.add_comm (image.X _) (image.X d)),
          (Z.add_comm (image.Y _) (image.Y d)).
  rewrite <- !fmap_add_seqZ, coords_fmap, <- list_fmap_compose.
  apply list_fmap_ext. intros i [x y] _. simpl.
  rewrite (Z.add_comm (image.X d)), (Z.add_comm (image.Y d)).
  apply pixel_index_translate.
Qed.

Lemma quantized_translate m d : quantized (translate m d) = quantized m.
Proof.
  unfold quantized. cbv zeta.
  by rewrite indexBuffer_translate, translate_Dx, translate_Dy.
Qed.

(** X4: the place of the image on the plane does not matter: an image and
    the same image moved by any offset (its bounds and its pixels both
    shifted) are encoded to the same bytes, with the same result, on every
    destination. *)
Theorem Encode_translate {W} `{!Writer W}
    (NumCPU : Z) (m : image.Image) (d : image.Point) (o : option Options) (w : W) :
  1 <= NumCPU →
  0 <= image.Dx (image.Bounds m) → 0 <= image.Dy (image.Bounds m) →
  Encode NumCPU (translate m d) o w = Encode NumCPU m o w.
Proof.
  intros Hn Hx Hy.
  destruct (decide (image.Dx (image.Bounds m) < 65536 ∧
                    image.Dy (image.Bounds m) < 65536)) as [[Hx' Hy']|Hbig].
  - rewrite !Encode_quantized by (rewrite ?translate_Dx, ?translate_Dy; lia).
    by rewrite quantized_translate.
  - unfold Encode. cbv zeta. rewrite translate_Dx, translate_Dy.
    change (Z.shiftl 1 16) with 65536. by rewrite !decide_True by lia.
Qed.

Lemma Encode_translate_witness :
  1 <= 2 ∧ 0 <= image.Dx (image.Bounds (gradient 3 2)) ∧
  0 <= image.Dy (image.Bounds (gradient 3 2)) ∧
  Encode 2 (translate (gradient 3 2) (image.MkPoint (-7) 40)) None (MkBuffer []) =
  Encode 2 (gradient 3 2) None (MkBuffer []).
Proof.
  split; [lia|]. split; [vm_compute; discriminate|].
  split; [vm_compute; discriminate|].
  apply (Encode_translate 2 (gradient 3 2) (image.MkPoint (-7) 40) None
           (MkBuffer [])); [lia|vm_compute; discriminate..].
Defined.

(** X5: for every worker count, the buffer the quantizer fills holds
    exactly one index per pixel, row by row from the top left, each the
    index of its own pixel and each a valid index into the 216-colour
    palette; no byte of the buffer is left unwritten. *)
Theorem mapColors_fills_buffer (m : image.Image) (workers : Z) :
  1 <= workers →
  0 <= image.Dx (image.Bounds m) → 0 <= image.Dy (image.Bounds m) →
  let pm := mapColors (image.NewPaletted (image.Bounds m) palette.WebSafe)
                      m workers in
  image.Pix pm = indexBuffer m ∧
  len (image.Pix pm) = image.Dx (image.Bounds m) * image.Dy (image.Bounds m) ∧
  Forall (λ i, 0 <= i < len palette.WebSafe) (image.Pix pm) ∧
  ∀ x y, 0 <= x < image.Dx (image.Bounds m) →
         0 <= y < image.Dy (image.Bounds m) →
         image.Pix pm !! Z.to_nat (y * image.Dx (image.Bounds m) + x) =
         Some (pixel_index m (image.X (image.Min (image.Bounds m)) + x)
                             (image.Y (image.Min (image.Bounds m)) + y)).
Proof.
  intros Hw Hx Hy pm. subst pm. rewrite mapColors_Pix by done.
  split; [done|]. split; [|split].
  - unfold len. rewrite indexBuffer_length by done. nia.
  - apply indexBuffer_valid.
  - intros x y Hx' Hy'. unfold indexBuffer. cbv zeta.
    rewrite list_lookup_fmap.
    replace (Z.to_nat (y * image.Dx (image.Bounds m) + x))
      with (Z.to_nat y * length (seqZ (image.X (image.Min (image.Bounds m)))
                                      (image.Dx (image.Bounds m)))
            + Z.to_nat x)%nat by (rewrite length_seqZ; nia).
    erewrite coords_lookup; [done|apply lookup_seqZ; lia..].
Qed.

Lemma mapColors_fills_buffer_witness :
  1 <= 2 ∧ 0 <= image.Dx (image.Bounds (gradient 3 2)) ∧
  0 <= image.Dy (image.Bounds (gradient 3 2)) ∧
  image.Pix (mapColors (image.NewPaletted (image.Bounds (gradient 3 2))
                                          palette.WebSafe) (gradient 3 2) 2)
  = indexBuffer (gradient 3 2).
Proof.
  split; [lia|]. split; [vm_compute; discriminate|].
  split; [vm_compute; discriminate|].
  apply (mapColors_fills_buffer (gradient 3 2) 2);
    [lia|vm_compute; discriminate..].
Defined.

(** ** The colour a pixel gets *)

Lemma level_nearest v : 0 <= v <= 255 → nearest_level (51 * level v) v.
Proof.
  intros Hv. split; [exists (level v); split; [apply level_range|done]|].
  assert (H : Forall (λ v, Z.abs (51 * level v - v) <= 25 ∧
                           Forall (λ k, Z.abs (51 * level v - v)
                                        <= Z.abs (51 * k - v)) (seqZ 0 6))
                     (seqZ 0 256))
    by (refine (bool_decide_unpack _ _); vm_compute; exact I).
  rewrite Forall_forall in H. destruct (H v) as [H1 H2].
  { apply elem_of_seqZ. lia. }
  split; [done|]. intros k Hk. rewrite Forall_forall in H2. apply H2.
  apply elem_of_seqZ. lia.
Qed.

Lemma WebSafe_lookup a b c :
  0 <= a <= 5 → 0 <= b <= 5 → 0 <= c <= 5 →
  palette.WebSafe !! Z.to_nat (36 * a + 6 * b + c) =
  Some (color.RGBA (51 * a) (51 * b) (51 * c) 255).
Proof.
  intros Ha Hb Hc.
  assert (a = 0 ∨ a = 1 ∨ a = 2 ∨ a = 3 ∨ a = 4 ∨ a = 5)
    as [->|[->|[->|[->|[->| ->]]]]] by lia;
  assert (b = 0 ∨ b = 1 ∨ b = 2 ∨ b = 3 ∨ b = 4 ∨ b = 5)
    as [->|[->|[->|[->|[->| ->]]]]] by lia;
  assert (c = 0 ∨ c = 1 ∨ c = 2 ∨ c = 3 ∨ c = 4 ∨ c = 5)
    as [->|[->|[->|[->|[->| ->]]]]] by lia;
  reflexivity.
Qed.

Lemma shiftr8_byte r : 0 <= r < 65536 → 0 <= Z.shiftr r 8 <= 255.
Proof. intros Hr. rewrite Z.shiftr_div_pow2 by lia. change (2 ^ 8) with 256. lia. Qed.

Lemma pixel_index_sample m x y :
  samples_16bit m →
  let '(r, g, b) := sample m x y in
  pixel_index m x y =
  36 * level (Z.shiftr r 8) + 6 * level (Z.shiftr g 8) + level (Z.shiftr b 8).
Proof.
  intros H16. pose proof (H16 x y) as Hxy.
  unfold pixel_index, sample, index_RGBA64, index_generic in *.
  destruct (image.RGBA64At m) as [i64|]; [done|].
  destruct (color.Color_RGBA (image.At m x y)) as [[[r g] b] a].
  by rewrite !high_byte by lia.
Qed.

Lemma mapColors_lookup m p workers x y :
  1 <= workers → image.In (image.MkPoint x y) (image.Bounds m) →
  let pm := mapColors (image.NewPaletted (image.Bounds m) p) m workers in
  image.Pix pm !! Z.to_nat (image.PixOffset pm x y) = Some (pixel_index m x y).
Proof.
  intros Hw Hin pm.
  pose proof Hin as (Hx1 & Hx2 & Hy1 & Hy2). simpl in *.
  set (pm0 := image.NewPaletted (image.Bounds m) p) in *.
  destruct (mapColors_shape pm0 m workers) as (Hs & Hr & _ & _). fold pm in Hs, Hr.
  assert (image.PixOffset pm x y = image.PixOffset pm0 x y) as ->
    by (unfold image.PixOffset; by rewrite Hs, Hr).
  subst pm. rewrite mapColors_one_pass by (unfold image.Dy; lia). cbv zeta.
  rewrite foldl_setPixel_lookup.
  - f_equal. unfold uint8. rewrite Z.mod_small
      by (pose proof (pixel_index_range m x y); lia). done.
  - apply NewPaletted_packed.
  - unfold coords. apply list_elem_of_bind. exists y. split.
    + apply list_elem_of_fmap. exists x. split; [done|].
      apply elem_of_seqZ. unfold image.Dx. lia.
    + apply elem_of_seqZ. unfold image.Dy. lia.
  - done.
Qed.

(** X6: the colour a pixel is given is the nearest one of the palette,
    channel by channel: the index stored for a pixel names the palette
    entry whose red, green and blue are each the level (a multiple of 51)
    nearest to the high byte of the pixel's sample, so no channel is off by
    more than 25; the entry is opaque. *)
Theorem quantizer_nearest_colour (m : image.Image) (workers x y : Z) :
  1 <= workers → samples_16bit m →
  image.In (image.MkPoint x y) (image.Bounds m) →
  let pm := mapColors (image.NewPaletted (image.Bounds m) palette.WebSafe)
                      m workers in
  let '(r, g, b) := sample m x y in
  ∃ i R G B,
    image.Pix pm !! Z.to_nat (image.PixOffset pm x y) = Some i ∧
    image.Palette pm !! Z.to_nat i = Some (color.RGBA R G B 255) ∧
    nearest_level R (Z.shiftr r 8) ∧ nearest_level G (Z.shiftr g 8) ∧
    nearest_level B (Z.shiftr b 8).
Proof.
  intros Hw H16 Hin pm.
  pose proof (mapColors_lookup m palette.WebSafe workers x y Hw Hin) as Hlk.
  cbv zeta in Hlk. fold pm in Hlk.
  destruct (mapColors_shape (image.NewPaletted (image.Bounds m) palette.WebSafe)
              m workers) as (_ & _ & Hpal & _). fold pm in Hpal.
  pose proof (pixel_index_sample m x y H16) as Hidx.
  pose proof (H16 x y) as Hxy.
  destruct (sample m x y) as [[r g] b].
  destruct Hxy as (Hr & Hg & Hb).
  exists (pixel_index m x y), (51 * level (Z.shiftr r 8)),
         (51 * level (Z.shiftr g 8)), (51 * level (Z.shiftr b 8)).
  split; [done|]. rewrite Hpal, Hidx. split.
  - apply WebSafe_lookup; apply level_range.
  - repeat split; apply level_nearest; by apply shiftr8_byte.
Qed.

Lemma quantizer_nearest_colour_witness :
  1 <= 3 ∧ samples_16bit (solid 4 4 (color.RGBA 200 90 20 255)) ∧
  image.In (image.MkPoint 1 2)
           (image.Bounds (solid 4 4 (color.RGBA 200 90 20 255))) ∧
  let pm := mapColors
              (image.NewPaletted
                 (image.Bounds (solid 4 4 (color.RGBA 200 90 20 255)))
                 palette.WebSafe)
              (solid 4 4 (color.RGBA 200 90 20 255)) 3 in
  ∃ i R G B,
    image.Pix pm !! Z.to_nat (image.PixOffset pm 1 2) = Some i ∧
    image.Palette pm !! Z.to_nat i = Some (color.RGBA R G B 255) ∧
    nearest_level R 200 ∧ nearest_level G 90 ∧ nearest_level B 20.
Proof.
  assert (H16 : samples_16bit (solid 4 4 (color.RGBA 200 90 20 255))).
  { intros x y. vm_compute. repeat split; discriminate. }
  assert (Hin : image.In (image.MkPoint 1 2)
                  (image.Bounds (solid 4 4 (color.RGBA 200 90 20 255)))).
  { vm_compute. repeat split; discriminate. }
  split; [lia|]. split; [exact H16|]. split; [exact Hin|].
  exact (quantizer_nearest_colour (solid 4 4 (color.RGBA 200 90 20 255)) 3 1 2
           ltac:(lia) H16 Hin).
Defined.

(** ** What the compressor is given *)

(** Copying the next [d] bytes of [S] behind the [a] bytes already there. *)
Lemma copy_into_next (S zs src : list Z) (i j : Z) (a d : nat) :
  i = Z.of_nat a → j = Z.of_nat (a + d) → src = take d (drop a S) →
  (a + d <= length S)%nat → (d <= length zs)%nat →
  (copy_into (take a S ++ zs) i j src).1 = take (a + d) S ++ drop d zs.
Proof.
  intros -> -> -> HS Hz. unfold copy_into. cbn [fst].
  assert (Hsrc : length (take d (drop a S)) = d)
    by (rewrite length_take, length_drop; lia).
  assert (Hn : Z.min (Z.of_nat (a + d) - Z.of_nat a) (len (take d (drop a S)))
               = Z.of_nat d) by (unfold len; rewrite Hsrc; lia).
  rewrite Hn, !Nat2Z.id.
  replace (Z.to_nat (Z.of_nat a + Z.of_nat d)) with (a + d)%nat by lia.
  assert (Ha : length (take a S) = a) by (rewrite length_take; lia).
  rewrite take_app_length' by done.
  rewrite (take_ge (take d _)) by lia.
  rewrite drop_app_ge by lia. rewrite Ha.
  replace (a + d - a)%nat with d by lia.
  by rewrite app_assoc, take_take_drop.
Qed.

Lemma drop_replicate_0 (n d : nat) :
  drop d (replicate n 0) = replicate (n - d) 0.
Proof. apply drop_replicate. Qed.

(** The rows gathered one by one are the buffer read in order. *)
Lemma copyRow_fill pm dx dy (k : nat) :
  image.Stride pm = dx → 0 <= dx → Z.of_nat k <= dy →
  length (image.Pix pm) = Z.to_nat (dx * dy) →
  foldl (copyRow pm dx) (replicate (Z.to_nat (dx * dy)) 0) (seqZ 0 (Z.of_nat k)) =
  take (k * Z.to_nat dx) (image.Pix pm)
  ++ replicate ((Z.to_nat dy - k) * Z.to_nat dx) 0.
Proof.
  intros Hs Hdx Hk Hlen. induction k as [|k IH].
  { simpl. f_equal. nia. }
  rewrite seqZ_S, foldl_app, IH by lia. simpl.
  unfold copyRow. rewrite Hs, Z.add_0_l. unfold slice.
  erewrite (copy_into_next (image.Pix pm) _ _ _ _ (k * Z.to_nat dx) (Z.to_nat dx)).
  - rewrite drop_replicate. f_equal; [f_equal; lia|f_equal; nia].
  - nia.
  - nia.
  - f_equal; [lia|f_equal; nia].
  - rewrite Hlen. nia.
  - rewrite length_replicate. nia.
Qed.

Lemma gatherRows_packed pm workers :
  packed pm → 1 <= workers →
  0 <= image.Dx (image.Rect pm) → 0 <= image.Dy (image.Rect pm) →
  gatherRows pm (image.Dx (image.Rect pm)) (image.Dy (image.Rect pm)) workers =
  image.Pix pm.
Proof.
  intros [Hs Hlen] Hw Hdx Hdy. rewrite gatherRows_one_pass by done.
  rewrite <- (Z2Nat.id (image.Dy (image.Rect pm))) at 2 by done.
  rewrite copyRow_fill by (try done; lia).
  rewrite Nat.sub_diag. simpl. rewrite app_nil_r.
  apply take_ge. rewrite Hlen. nia.
Qed.

(** The rows of one strip, copied out one by one, are that part of the
    buffer. *)
Lemma strip_fill pm dx sy (n k : nat) :
  image.Stride pm = dx → 0 <= dx → 0 <= sy →
  ((Z.to_nat sy + n) * Z.to_nat dx <= length (image.Pix pm))%nat →
  (k <= n)%nat →
  foldl (λ '(stripData, offset) y,
           ((copy_into stripData offset (offset + dx)
               (slice (image.Pix pm) (y * image.Stride pm)
                      (y * image.Stride pm + dx))).1,
            offset + dx))
        (replicate (n * Z.to_nat dx) 0, 0) (seqZ sy (Z.of_nat k)) =
  (take (k * Z.to_nat dx) (drop (Z.to_nat sy * Z.to_nat dx) (image.Pix pm))
   ++ replicate ((n - k) * Z.to_nat dx) 0,
   Z.of_nat k * dx).
Proof.
  intros Hs Hdx Hsy Hlen Hk. induction k as [|k IH].
  { simpl. do 2 f_equal. lia. }
  rewrite seqZ_S, foldl_app, IH by lia. cbn [foldl].
  rewrite Hs. unfold slice. f_equal; [|lia].
  erewrite (copy_into_next (drop (Z.to_nat sy * Z.to_nat dx) (image.Pix pm))
              _ _ _ _ (k * Z.to_nat dx) (Z.to_nat dx)).
  - rewrite drop_replicate. f_equal; [f_equal; lia|f_equal; nia].
  - nia.
  - nia.
  - rewrite drop_drop. f_equal; [lia|f_equal; nia].
  - rewrite length_drop. nia.
  - rewrite length_replicate. nia.
Qed.

Lemma compressStrip_packed pm lw sy ey :
  packed pm → 0 <= image.Dx (image.Rect pm) →
  0 <= sy <= ey → ey <= image.Dy (image.Rect pm) →
  compressStrip pm lw (image.Dx (image.Rect pm)) sy ey =
  compressToBuffer lw (stripPixels pm (sy, ey)).
Proof.
  intros [Hs Hlen] Hdx Hy Hey. unfold compressStrip. cbv zeta.
  set (dx := image.Dx (image.Rect pm)) in *.
  replace (Z.to_nat ((ey - sy) * dx)) with (Z.to_nat (ey - sy) * Z.to_nat dx)%nat
    by nia.
  rewrite <- (Z2Nat.id (ey - sy)) at 2 by lia.
  rewrite (strip_fill pm dx sy (Z.to_nat (ey - sy)) (Z.to_nat (ey - sy)))
    by (try done; try lia; rewrite Hlen; nia).
  rewrite Nat.sub_diag. simpl. rewrite app_nil_r.
  unfold stripPixels, slice. cbn [fst snd]. fold dx. clearbody dx.
  f_equal. f_equal; [nia|f_equal; nia].
Qed.

(** Consecutive parts of a list, joined. *)
Lemma slice_app {A} (l : list A) (a b c : Z) :
  0 <= a <= b → b <= c → slice l a b ++ slice l b c = slice l a c.
Proof.
  intros Hab Hbc. unfold slice.
  replace (Z.to_nat b) with (Z.to_nat a + Z.to_nat (b - a))%nat by lia.
  rewrite <- drop_drop.
  replace (Z.to_nat (c - a)) with (Z.to_nat (b - a) + Z.to_nat (c - b))%nat
    by lia.
  by rewrite take_take_drop.
Qed.

Lemma ranges_from_slices {A} (l : list A) (dx r endY : Z) (n : nat) :
  0 <= dx → 0 <= r → (n ≠ 0)%nat → (Z.of_nat n - 1) * r <= endY →
  mjoin ((λ range : Z * Z, slice l (range.1 * dx) (range.2 * dx))
           <$> ranges_from 0 r (Z.of_nat n) endY) =
  slice l 0 (endY * dx).
Proof.
  intros Hdx Hr Hn Hend. unfold ranges_from.
  destruct n as [|n]; [done|]. clear Hn.
  rewrite seqZ_S, !fmap_app, join_app. simpl. rewrite app_nil_r.
  rewrite decide_True by lia. rewrite Z.add_0_l.
  assert (Hfull : ∀ k : nat, (k <= n)%nat →
    mjoin ((λ range : Z * Z, slice l (range.1 * dx) (range.2 * dx))
             <$> ((λ i, (0 + i * r,
                         if decide (i = Z.of_nat (S n) - 1) then endY
                         else 0 + (i + 1) * r)) <$> seqZ 0 (Z.of_nat k))) =
    slice l 0 (Z.of_nat k * r * dx)).
  { induction k as [|k IH]; intros Hk.
    - simpl. unfold slice. by rewrite take_0.
    - rewrite seqZ_S, !fmap_app, join_app, IH by lia. simpl.
      rewrite app_nil_r, decide_False by lia. rewrite !Z.add_0_l.
      rewrite slice_app by nia. f_equal. lia. }
  rewrite Hfull by done. apply slice_app; nia.
Qed.

Lemma strip_ranges_slices pm workers :
  packed pm → 1 <= workers →
  0 <= image.Dx (image.Rect pm) → 0 <= image.Dy (image.Rect pm) →
  mjoin (stripPixels pm <$> strip_ranges (image.Dy (image.Rect pm)) workers) =
  image.Pix pm.
Proof.
  intros [Hs Hlen] Hw Hdx Hdy. rewrite strip_ranges_from by done.
  set (dy := image.Dy (image.Rect pm)) in *.
  set (dx := image.Dx (image.Rect pm)) in *.
  destruct (decide (dy = 0)) as [Hz|Hnz].
  { rewrite Hz. rewrite !decide_True by lia. simpl.
    symmetry. apply nil_length_inv. rewrite Hlen. nia. }
  unfold stripPixels. fold dx.
  set (n := if decide (dy < workers) then dy else workers).
  set (r := if decide (dy < workers) then 1 else dy `div` workers).
  assert (Hn : 1 <= n) by (subst n; case_decide; lia).
  assert (Hr : 0 <= r ∧ (n - 1) * r <= dy)
    by (subst n r; case_decide; [lia|]; nia).
  rewrite <- (Z2Nat.id n) by lia.
  rewrite (ranges_from_slices (image.Pix pm) dx r dy (Z.to_nat n))
    by (try done; try lia).
  unfold slice. rewrite Z.sub_0_r. simpl. apply take_ge. rewrite Hlen. nia.
Qed.

Lemma strip_ranges_within dy workers sy ey :
  1 <= workers → 0 <= dy → (sy, ey) ∈ strip_ranges dy workers →
  0 <= sy <= ey ∧ ey <= dy.
Proof.
  intros Hw Hdy. rewrite strip_ranges_from by done. unfold ranges_from.
  intros Hin. apply list_elem_of_fmap in Hin as (i & [= -> ->] & Hi).
  apply elem_of_seqZ in Hi. rewrite !Z.add_0_l.
  repeat case_decide; nia.
Qed.

(** ** The image data, byte for byte *)

Lemma writeLZWData_bytes {X} `{!Writer X} (V : View X) pm lw workers (x : X) l :
  Reliable V → V x l →
  ∃ x', writeLZWData pm lw workers x =
          ((writeLZWData pm lw workers (MkBuffer [])).1, x') ∧
        V x' (l ++ Bytes (writeLZWData pm lw workers (MkBuffer [])).2).
Proof.
  intros HV Hx.
  pose proof (Reliable_Alike V l HV) as HR.
  destruct (writeLZWData_sim _ HR pm lw workers x (MkBuffer [])) as [E H].
  { simpl. by rewrite app_nil_r. }
  exists (writeLZWData pm lw workers x).2. split; [|done].
  rewrite <- E. by destruct (writeLZWData pm lw workers x).
Qed.

Lemma writeLZWData_Buffer_single pm lw workers :
  ¬ parallel_path workers (image.Dy (image.Rect pm)) →
  fits lw (gatherRows pm (image.Dx (image.Rect pm)) (image.Dy (image.Rect pm))
                      workers) →
  writeLZWData pm lw workers (MkBuffer []) =
  (None, MkBuffer (compressToBuffer lw
                     (gatherRows pm (image.Dx (image.Rect pm))
                                 (image.Dy (image.Rect pm)) workers)).2).
Proof.
  intros Hp Hfit. unfold writeLZWData. cbv zeta.
  unfold parallel_path in Hp. rewrite decide_False by done.
  destruct (compressToBuffer_ok lw _ Hfit) as [d Hd]. rewrite Hd.
  unfold compressToBuffer in Hd.
  destruct (lzw.Write_ _ _) as [[n [e|]] z]; [done|].
  destruct (lzw.Close z) as [[e|] z']; [done|].
  destruct (blockWriter_close _) as [[e|] b]; [done|].
  injection Hd as <-. simpl. by destruct (bw_w b).
Qed.

Lemma writeChunks_Buffer chunks l :
  writeChunks chunks (MkBuffer l) = (None, MkBuffer (l ++ mjoin chunks)).
Proof.
  revert l. induction chunks as [|c chunks IH]; intros l.
  { simpl. by rewrite app_nil_r. }
  cbn [writeChunks]. unfold Write, Buffer_Writer. simpl.
  rewrite IH. by rewrite app_assoc.
Qed.

Lemma writeLZWData_Buffer_parallel pm lw workers :
  parallel_path workers (image.Dy (image.Rect pm)) →
  pixels_fit lw (image.Pix pm) →
  writeLZWData pm lw workers (MkBuffer []) =
  (None,
   MkBuffer (mjoin ((λ '(sy, ey),
                       (compressStrip pm lw (image.Dx (image.Rect pm)) sy ey).2)
                    <$> strip_ranges (image.Dy (image.Rect pm)) workers))).
Proof.
  intros Hp Hfit. unfold writeLZWData. cbv zeta.
  unfold parallel_path in Hp. rewrite decide_True by done.
  unfold writeParallelLZW. cbv zeta.
  set (results := _ <$> strip_ranges _ workers).
  assert (Hall : Forall (λ r, r.1 = None) results).
  { subst results. apply Forall_fmap, Forall_forall. intros [sy ey] _.
    unfold compose.
    destruct (compressStrip_ok pm lw (image.Dx (image.Rect pm)) sy ey Hfit)
      as (d & ->). done. }
  assert (Hsnd : snd <$> results =
                 (λ '(sy, ey),
                    (compressStrip pm lw (image.Dx (image.Rect pm)) sy ey).2)
                 <$> strip_ranges (image.Dy (image.Rect pm)) workers).
  { subst results. rewrite <- list_fmap_compose. apply list_fmap_ext.
    by intros i [sy ey] _. }
  rewrite <- Hsnd.
  destruct (list_find _ results) as [[i [[e|] c]]|] eqn:Ef.
  - apply list_find_Some in Ef as (Hi & _ & _).
    apply (Forall_lookup_1 _ _ _ _ Hall) in Hi. done.
  - apply writeChunks_Buffer.
  - apply writeChunks_Buffer.
Qed.

Lemma quantized_packed m :
  0 <= image.Dx (image.Bounds m) → 0 <= image.Dy (image.Bounds m) →
  packed (quantized m).
Proof.
  intros Hx Hy. unfold packed, quantized. cbv zeta. simpl.
  unfold image.Dx, image.Dy in *. simpl.
  rewrite indexBuffer_length by (unfold image.Dx, image.Dy; lia).
  unfold image.Dx, image.Dy. split; [lia|f_equal; lia].
Qed.

Lemma quantized_Dx m :
  image.Dx (image.Rect (quantized m)) = image.Dx (image.Bounds m).
Proof. unfold quantized, image.Dx. simpl. lia. Qed.

Lemma quantized_Dy m :
  image.Dy (image.Rect (quantized m)) = image.Dy (image.Bounds m).
Proof. unfold quantized, image.Dy. simpl. lia. Qed.

Lemma litWidth_quantized m : litWidthOf (len (image.Palette (quantized m))) = 8.
Proof. reflexivity. Qed.

Lemma Palette_quantized m : image.Palette (quantized m) ≠ [].
Proof. discriminate. Qed.

Section EncodeBytes.
Context {W : Type} `{!Writer W} (V : View W) (HV : Reliable V).

(** The file [Encode] writes when the image data is [d] on a
    [bytes.Buffer]. *)
Lemma Encode_layout NumCPU m o (w : W) base d :
  V w base → 1 <= NumCPU →
  0 <= image.Dx (image.Bounds m) < 65536 →
  0 <= image.Dy (image.Bounds m) < 65536 →
  writeLZWData (quantized m) 8 (workersOf NumCPU o) (MkBuffer []) =
    (None, MkBuffer d) →
  ∃ w', Encode NumCPU m o w = (None, w') ∧
        V w' (base ++ fileLayout (quantized m) d).
Proof.
  intros Hw Hn Hx Hy Hd. rewrite Encode_quantized by done.
  pose proof (encodeGIF_layout V HV (λ d', d' = d) (quantized m)
                (workersOf NumCPU o) w base) as HL.
  rewrite litWidth_quantized in HL.
  destruct HL as (w' & d' & E & Hlay & ->);
    [|apply Palette_quantized|exact Hw|].
  2:{ exists w'. split; [exact E|exact Hlay]. }
  intros bw l Hbw.
  destruct (writeLZWData_bytes (bufio_view V) (quantized m) 8
              (workersOf NumCPU o) bw l (bufio_reliable V HV) Hbw)
    as (bw' & E & H').
  rewrite Hd in E, H'.
  exists bw', d. split; [exact E|]. split; [exact H'|done].
Qed.

End EncodeBytes.

(** X7: when the parallel compressor is not used (one worker, or fewer
    than four rows a worker), the file [Encode] writes is fixed byte for
    byte: header, colour table and image descriptor, the minimum code size,
    then the one LZW stream of the whole index buffer (the pixel indices
    row by row) cut into sub-blocks, then the terminator and the
    trailer. *)
Theorem Encode_single_stream {W} `{!Writer W} (V : View W)
    (NumCPU : Z) (m : image.Image) (o : option Options) (w : W) (base : list Z) :
  Reliable V → V w base → 1 <= NumCPU →
  0 <= image.Dx (image.Bounds m) < 65536 →
  0 <= image.Dy (image.Bounds m) < 65536 →
  ¬ parallel_path (workersOf NumCPU o) (image.Dy (image.Bounds m)) →
  ∃ w' d,
    Encode NumCPU m o w = (None, w') ∧
    compressToBuffer 8 (indexBuffer m) = (None, d) ∧
    V w' (base ++ fileLayout (quantized m) d).
Proof.
  intros HV Hw Hn Hx Hy Hp.
  destruct (compressToBuffer_ok 8 (indexBuffer m) (fits_8 _)) as [d Hd].
  destruct (Encode_layout V HV NumCPU m o w base d) as (w' & E & H');
    [done..| |by exists w', d].
  pose proof (workersOf_pos NumCPU o Hn) as Hwk.
  rewrite writeLZWData_Buffer_single.
  - rewrite gatherRows_packed
      by (rewrite ?quantized_Dx, ?quantized_Dy;
          try apply quantized_packed; lia).
    change (image.Pix (quantized m)) with (indexBuffer m). by rewrite Hd.
  - by rewrite quantized_Dy.
  - apply fits_8.
Qed.

Lemma Encode_single_stream_witness :
  Reliable Buffer_view ∧ Buffer_view (MkBuffer [9]) [9] ∧ 1 <= 1 ∧
  0 <= image.Dx (image.Bounds (gradient 2 3)) < 65536 ∧
  0 <= image.Dy (image.Bounds (gradient 2 3)) < 65536 ∧
  ¬ parallel_path (workersOf 1 None) (image.Dy (image.Bounds (gradient 2 3))) ∧
  ∃ w' d,
    Encode 1 (gradient 2 3) None (MkBuffer [9]) = (None, w') ∧
    compressToBuffer 8 (indexBuffer (gradient 2 3)) = (None, d) ∧
    Buffer_view w' ([9] ++ fileLayout (quantized (gradient 2 3)) d).
Proof.
  assert (Hx : 0 <= image.Dx (image.Bounds (gradient 2 3)) < 65536)
    by (vm_compute; split; [discriminate|reflexivity]).
  assert (Hy : 0 <= image.Dy (image.Bounds (gradient 2 3)) < 65536)
    by (vm_compute; split; [discriminate|reflexivity]).
  assert (Hp : ¬ parallel_path (workersOf 1 None)
                   (image.Dy (image.Bounds (gradient 2 3))))
    by (intros [Hgt _]; vm_compute in Hgt; discriminate).
  split; [apply Buffer_reliable|]. split; [reflexivity|]. split; [lia|].
  split; [exact Hx|]. split; [exact Hy|]. split; [exact Hp|].
  exact (Encode_single_stream Buffer_view 1 (gradient 2 3) None (MkBuffer [9]) [9]
           Buffer_reliable eq_refl ltac:(lia) Hx Hy Hp).
Defined.

(** X8: when the parallel compressor is used (more than one worker and at
    least four rows a worker), the image data of the file is the
    concatenation, in strip order, of one complete LZW stream per strip,
    each cut into sub-blocks of its own; the strips are consecutive row
    ranges that together make up the index buffer, as many as there are
    workers (or rows, if there are fewer rows). *)
Theorem Encode_parallel_strips {W} `{!Writer W} (V : View W)
    (NumCPU : Z) (m : image.Image) (o : option Options) (w : W) (base : list Z) :
  Reliable V → V w base → 1 <= NumCPU →
  0 <= image.Dx (image.Bounds m) < 65536 →
  0 <= image.Dy (image.Bounds m) < 65536 →
  parallel_path (workersOf NumCPU o) (image.Dy (image.Bounds m)) →
  let strips := strip_ranges (image.Dy (image.Bounds m)) (workersOf NumCPU o) in
  ∃ w',
    Encode NumCPU m o w = (None, w') ∧
    V w' (base ++ fileLayout (quantized m)
            (mjoin ((λ range,
                       (compressToBuffer 8 (stripPixels (quantized m) range)).2)
                    <$> strips))) ∧
    Forall (λ range,
              (compressToBuffer 8 (stripPixels (quantized m) range)).1 = None)
           strips ∧
    mjoin (stripPixels (quantized m) <$> strips) = indexBuffer m ∧
    len strips = Z.min (workersOf NumCPU o) (image.Dy (image.Bounds m)).
Proof.
  intros HV Hw Hn Hx Hy Hp strips.
  pose proof (workersOf_pos NumCPU o Hn) as Hwk.
  pose proof (quantized_packed m ltac:(lia) ltac:(lia)) as Hpk.
  assert (Hstrip : ∀ range, range ∈ strips →
            compressStrip (quantized m) 8 (image.Dx (image.Rect (quantized m)))
                          range.1 range.2
            = compressToBuffer 8 (stripPixels (quantized m) range)).
  { intros [sy ey] Hin.
    destruct (strip_ranges_within (image.Dy (image.Bounds m))
                (workersOf NumCPU o) sy ey Hwk ltac:(lia) Hin) as [H1 H2].
    apply compressStrip_packed;
      [done|rewrite quantized_Dx; lia|done|rewrite quantized_Dy; lia]. }
  destruct (Encode_layout V HV NumCPU m o w base
              (mjoin ((λ range,
                         (compressToBuffer 8 (stripPixels (quantized m) range)).2)
                      <$> strips))) as (w' & E & H'); [done..| |].
  { rewrite writeLZWData_Buffer_parallel;
      [|by rewrite quantized_Dy|by left].
    rewrite quantized_Dy. fold strips. do 3 f_equal.
    apply list_fmap_ext. intros i [sy ey] Hi.
    pose proof (Hstrip (sy, ey) ltac:(by eapply list_elem_of_lookup_2)) as Hs.
    cbn [fst snd] in Hs. by rewrite Hs. }
  exists w'. split; [done|]. split; [done|]. split; [|split].
  - apply Forall_forall. intros range _.
    destruct (compressToBuffer_ok 8 (stripPixels (quantized m) range) (fits_8 _))
      as [d ->]. done.
  - subst strips. rewrite <- quantized_Dy.
    rewrite strip_ranges_slices;
      [done|done|done|rewrite quantized_Dx; lia|rewrite quantized_Dy; lia].
  - subst strips. rewrite strip_ranges_from by lia.
    unfold len. rewrite ranges_from_length. case_decide; lia.
Qed.

Lemma Encode_parallel_strips_witness :
  Reliable Buffer_view ∧ Buffer_view (MkBuffer [9]) [9] ∧ 1 <= 2 ∧
  0 <= image.Dx (image.Bounds (gradient 1 8)) < 65536 ∧
  0 <= image.Dy (image.Bounds (gradient 1 8)) < 65536 ∧
  parallel_path (workersOf 2 None) (image.Dy (image.Bounds (gradient 1 8))) ∧
  let strips := strip_ranges (image.Dy (image.Bounds (gradient 1 8)))
                             (workersOf 2 None) in
  ∃ w',
    Encode 2 (gradient 1 8) None (MkBuffer [9]) = (None, w') ∧
    Buffer_view w'
      ([9] ++ fileLayout (quantized (gradient 1 8))
         (mjoin ((λ range,
                    (compressToBuffer 8
                       (stripPixels (quantized (gradient 1 8)) range)).2)
                 <$> strips))) ∧
    Forall (λ range,
              (compressToBuffer 8
                 (stripPixels (quantized (gradient 1 8)) range)).1 = None)
           strips ∧
    mjoin (stripPixels (quantized (gradient 1 8)) <$> strips) =
      indexBuffer (gradient 1 8) ∧
    len strips = Z.min (workersOf 2 None)
                       (image.Dy (image.Bounds (gradient 1 8))).
Proof.
  assert (Hx : 0 <= image.Dx (image.Bounds (gradient 1 8)) < 65536)
    by (vm_compute; split; [discriminate|reflexivity]).
  assert (Hy : 0 <= image.Dy (image.Bounds (gradient 1 8)) < 65536)
    by (vm_compute; split; [discriminate|reflexivity]).
  assert (Hp : parallel_path (workersOf 2 None)
                 (image.Dy (image.Bounds (gradient 1 8))))
    by (split; vm_compute; [reflexivity|discriminate]).
  split; [apply Buffer_reliable|]. split; [reflexivity|]. split; [lia|].
  split; [exact Hx|]. split; [exact Hy|]. split; [exact Hp|].
  exact (Encode_parallel_strips Buffer_view 2 (gradient 1 8) None (MkBuffer [9])
           [9] Buffer_reliable eq_refl ltac:(lia) Hx Hy Hp).
Defined.

(** ** The fields of the header *)

(** X9: [log2] is the number of doublings of 2 needed to reach [x]: for
    [x <= 256] it returns the least [i] in [0, 7] with [x <= 2^(i+1)] (so 0
    for every [x <= 2], negative values included), and for [x > 256] it
    returns [-1]. *)
Theorem log2_spec (x : Z) :
  (x > 256 ↔ log2 x = -1) ∧
  (x <= 256 →
   0 <= log2 x <= 7 ∧ x <= 2 ^ (log2 x + 1) ∧
   ∀ i, 0 <= i < log2 x → 2 ^ (i + 1) < x).
Proof.
  unfold log2. cbn [list_find]. unfold prod_map. simpl.
  repeat (case_decide; simpl);
    (split; [split; [lia|intros E; first [discriminate E|lia]]|]);
    intros Hx;
    first
      [ lia
      | split; [lia|]; split; [lia|]; intros i Hi;
        assert (i = 0 ∨ i = 1 ∨ i = 2 ∨ i = 3 ∨ i = 4 ∨ i = 5 ∨ i = 6)
          as [->|[->|[->|[->|[->|[->| ->]]]]]] by lia; simpl; lia ].
Qed.

Lemma u16_read v rest :
  0 <= v < 65536 → readUint16 (u16 (uint16 v) ++ rest) 0 = v.
Proof.
  intros Hv. unfold readUint16, u16, uint16. simpl.
  rewrite Z.mod_small by lia.
  change 255 with (Z.ones 8). rewrite Z.land_ones by lia.
  rewrite Z.shiftr_div_pow2 by lia. change (2 ^ 8) with 256. lia.
Qed.

Lemma readUint16_skip (h rest : list Z) (i : nat) :
  readUint16 (h ++ rest) (length h + i) = readUint16 rest i.
Proof.
  unfold readUint16.
  replace (S (length h + i)) with (length h + S i)%nat by lia.
  by rewrite !lookup_app_r, !Nat.add_sub' by lia.
Qed.

Lemma size_field n :
  1 <= n →
  let p := paddedSizeOf n in
  let packed := Z.lor 128 (uint8 (log2 p)) in
  Z.testbit packed 7 = true ∧
  (2 <= n → declaredTableSize packed = p) ∧
  (n = 1 → p = 1 ∧ declaredTableSize packed = 2).
Proof.
  intros Hn p packed.
  destruct (paddedSizeOf_spec n Hn) as (k & Hk & Hp & Hle & Hmin).
  fold p in Hp, Hle.
  assert (Hk1 : 2 <= n → 1 <= k).
  { intros H2. destruct (decide (k = 0)) as [->|]; [|lia].
    destruct Hle as [Hle|Hle]; [|lia]. rewrite Hp in Hle. simpl in Hle. lia. }
  assert (Hk0 : n = 1 → k = 0).
  { intros ->. destruct (decide (k = 0)) as [|Hne]; [done|].
    specialize (Hmin 0 ltac:(lia)). simpl in Hmin. lia. }
  subst packed. rewrite Hp.
  assert (k = 0 ∨ k = 1 ∨ k = 2 ∨ k = 3 ∨ k = 4 ∨ k = 5 ∨ k = 6 ∨ k = 7 ∨ k = 8)
    as [->|[->|[->|[->|[->|[->|[->|[->| ->]]]]]]]] by lia;
    (split; [reflexivity|]); (split; [intros H2; try reflexivity; lia|]);
    intros H1; specialize (Hk0 H1); try lia; done.
Qed.

(** X10: the size of the colour table as the header declares it and as it
    is written.  The packed byte of the screen descriptor has the
    colour-table flag set and, in its low bits, [log2] of the padded size;
    for a palette of two colours or more a decoder computes from it exactly
    the number of entries that follow.  For a palette of one colour the
    table that follows has one entry (3 bytes) while the byte declares
    two. *)
Theorem color_table_size_declared {W} `{!Writer W} (V : View W)
    (pm : image.Paletted) (workers : Z) (w : W) (base : list Z) :
  Reliable V → V w base → image.Palette pm ≠ [] → valid_pixels pm →
  let n := len (image.Palette pm) in
  let table := colorTable (image.Palette pm) (paddedSizeOf n) in
  ∃ w' packed rest,
    encodeGIF pm workers w = (None, w') ∧
    V w' (base ++ signature ++ u16 (uint16 (image.Dx (image.Rect pm)))
               ++ u16 (uint16 (image.Dy (image.Rect pm)))
               ++ [packed; 0; 0] ++ table ++ rest) ∧
    len table = 3 * paddedSizeOf n ∧
    Z.testbit packed 7 = true ∧
    (2 <= n → declaredTableSize packed = paddedSizeOf n) ∧
    (n = 1 → paddedSizeOf n = 1 ∧ declaredTableSize packed = 2).
Proof.
  intros HV Hw Hne Hval n table.
  destruct (encodeGIF_layout V HV (λ _, True) pm workers w base)
    as (w' & d & E & Hlay & _); [|done|done|].
  { intros bw l Hbw.
    destruct (writeLZWData_ok (bufio_view V) (bufio_reliable V HV) pm
                (litWidthOf (len (image.Palette pm))) workers bw l)
      as (bw' & d & E & H'); [|done|eauto].
    by apply valid_pixels_fit. }
  pose proof (Palette_len_pos pm Hne) as Hn. fold n in Hn.
  destruct (size_field n Hn) as (H1 & H2 & H3).
  exists w', (Z.lor 128 (uint8 (log2 (paddedSizeOf n)))),
         (imageDescriptor pm ++ [litWidthOf n] ++ d ++ [0; 59]).
  split; [done|]. split.
  { unfold fileLayout, screenHeader in Hlay. fold n in Hlay.
    by rewrite <- !app_assoc in Hlay. }
  split; [|done].
  apply colorTable_length. destruct (paddedSizeOf_spec n Hn) as (k & Hk & -> & _).
  apply Z.pow_nonneg. lia.
Qed.

Lemma color_table_size_declared_witness :
  Reliable Buffer_view ∧ Buffer_view (MkBuffer []) [] ∧
  image.Palette fourColours ≠ [] ∧ valid_pixels fourColours ∧
  ∃ w' packed rest,
    encodeGIF fourColours 1 (MkBuffer []) = (None, w') ∧
    Buffer_view w'
      ([] ++ signature ++ u16 (uint16 (image.Dx (image.Rect fourColours)))
          ++ u16 (uint16 (image.Dy (image.Rect fourColours)))
          ++ [packed; 0; 0]
          ++ colorTable (image.Palette fourColours) (paddedSizeOf 4) ++ rest) ∧
    len (colorTable (image.Palette fourColours) (paddedSizeOf 4))
      = 3 * paddedSizeOf 4 ∧
    Z.testbit packed 7 = true ∧
    (2 <= 4 → declaredTableSize packed = paddedSizeOf 4) ∧
    (4 = 1 → paddedSizeOf 4 = 1 ∧ declaredTableSize packed = 2).
Proof.
  assert (Hne : image.Palette fourColours ≠ []) by discriminate.
  assert (Hval : valid_pixels fourColours).
  { unfold valid_pixels. repeat constructor; vm_compute; discriminate. }
  split; [apply Buffer_reliable|]. split; [reflexivity|].
  split; [exact Hne|]. split; [exact Hval|].
  exact (color_table_size_declared Buffer_view fourColours 1 (MkBuffer []) []
           Buffer_reliable eq_refl Hne Hval).
Defined.

(** The parts of the file around the colour table. *)
Lemma lookup_past (h ct rest : list Z) (i : nat) :
  length h = 13%nat → length ct = 768%nat →
  (h ++ ct ++ rest) !! (781 + i)%nat = rest !! i.
Proof.
  intros Hh Hct. rewrite lookup_app_r by lia. rewrite lookup_app_r by lia.
  f_equal. lia.
Qed.

Lemma readUint16_past (h ct rest : list Z) (i : nat) :
  length h = 13%nat → length ct = 768%nat →
  readUint16 (h ++ ct ++ rest) (781 + i) = readUint16 rest i.
Proof.
  intros Hh Hct. unfold readUint16.
  replace (S (781 + i)) with (781 + S i)%nat by lia.
  by rewrite !lookup_past.
Qed.

Lemma layout_fields (dx dy : Z) (ct d : list Z) :
  length ct = 768%nat → 0 <= dx < 65536 → 0 <= dy < 65536 →
  let file :=
    (signature ++ u16 (uint16 dx) ++ u16 (uint16 dy) ++ [135; 0; 0]) ++ ct
    ++ ([44] ++ u16 0 ++ u16 0 ++ u16 (uint16 dx) ++ u16 (uint16 dy) ++ [0])
    ++ [8] ++ d ++ [0; 59] in
  take 6 file = signature ∧
  readUint16 file 6 = dx ∧ readUint16 file 8 = dy ∧
  file !! 10%nat = Some 135 ∧ file !! 11%nat = Some 0 ∧
  file !! 12%nat = Some 0 ∧
  file !! 781%nat = Some 44 ∧
  readUint16 file 782 = 0 ∧ readUint16 file 784 = 0 ∧
  readUint16 file 786 = dx ∧ readUint16 file 788 = dy ∧
  file !! 790%nat = Some 0 ∧ file !! 791%nat = Some 8 ∧
  (794 <= length file)%nat ∧ drop (length file - 2) file = [0; 59].
Proof.
  intros Hct Hx Hy.
  set (h := signature ++ u16 (uint16 dx) ++ u16 (uint16 dy) ++ [135; 0; 0]).
  assert (Hh : length h = 13%nat) by reflexivity.
  set (rest := ([44] ++ u16 0 ++ u16 0 ++ u16 (uint16 dx) ++ u16 (uint16 dy)
                ++ [0]) ++ [8] ++ d ++ [0; 59]).
  intros file. subst file.
  assert (Hr6 : readUint16 h 6 = dx).
  { subst h. change 6%nat with (length signature + 0)%nat.
    rewrite readUint16_skip. apply u16_read. lia. }
  assert (Hr8 : readUint16 h 8 = dy).
  { subst h. rewrite (app_assoc signature).
    change 8%nat with (length (signature ++ u16 (uint16 dx)) + 0)%nat.
    rewrite readUint16_skip. apply u16_read. lia. }
  assert (Hlow : ∀ i, (S i < 13)%nat →
            readUint16 (h ++ ct ++ rest) i = readUint16 h i).
  { intros i Hi. unfold readUint16. by rewrite !lookup_app_l by lia. }
  assert (Hr5 : readUint16 rest 5 = dx).
  { subst rest.
    change (([44] ++ u16 0 ++ u16 0 ++ u16 (uint16 dx) ++ u16 (uint16 dy) ++ [0])
            ++ [8] ++ d ++ [0; 59])
      with ([44; 0; 0; 0; 0]
            ++ u16 (uint16 dx) ++ (u16 (uint16 dy) ++ [0; 8] ++ d ++ [0; 59])).
    change 5%nat with (length [44; 0; 0; 0; 0]%Z + 0)%nat.
    rewrite readUint16_skip. apply u16_read. lia. }
  assert (Hr7 : readUint16 rest 7 = dy).
  { subst rest.
    change (([44] ++ u16 0 ++ u16 0 ++ u16 (uint16 dx) ++ u16 (uint16 dy) ++ [0])
            ++ [8] ++ d ++ [0; 59])
      with (([44; 0; 0; 0; 0] ++ u16 (uint16 dx))
            ++ u16 (uint16 dy) ++ ([0; 8] ++ d ++ [0; 59])).
    change 7%nat
      with (length ([44; 0; 0; 0; 0]%Z ++ u16 (uint16 dx)) + 0)%nat.
    rewrite readUint16_skip. apply u16_read. lia. }
  split; [done|].
  split; [by rewrite Hlow by lia|]. split; [by rewrite Hlow by lia|].
  split; [done|]. split; [done|]. split; [done|].
  split; [exact (lookup_past h ct rest 0 Hh Hct)|].
  split; [exact (readUint16_past h ct rest 1 Hh Hct)|].
  split; [exact (readUint16_past h ct rest 3 Hh Hct)|].
  split; [exact (eq_trans (readUint16_past h ct rest 5 Hh Hct) Hr5)|].
  split; [exact (eq_trans (readUint16_past h ct rest 7 Hh Hct) Hr7)|].
  split; [exact (lookup_past h ct rest 9 Hh Hct)|].
  split; [exact (lookup_past h ct rest 10 Hh Hct)|].
  assert (Hlen : length (h ++ ct ++ rest) = (794 + length d)%nat).
  { rewrite !length_app, Hh, Hct. subst rest. rewrite !length_app. simpl. lia. }
  split; [lia|].
  rewrite Hlen. subst rest.
  rewrite !app_assoc.
  rewrite drop_app_length'; [done|].
  rewrite !length_app, Hh, Hct. simpl. lia.
Qed.

Lemma WebSafe_table :
  litWidthOf (len palette.WebSafe) = 8 ∧
  paddedSizeOf (len palette.WebSafe) = 256 ∧
  Z.lor 128 (uint8 (log2 256)) = 135 ∧
  length (colorTable palette.WebSafe 256) = 768%nat.
Proof. vm_compute. done. Qed.

(** X11: the fixed fields of every file [Encode] writes, read back from
    the bytes: the signature [GIF89a]; the width and height of the image as
    16-bit little-endian fields, in the screen descriptor and again in the
    image descriptor, whose offsets are both zero; the packed byte [0x87]
    (a global colour table of 256 entries); the image separator [0x2C]
    at offset 781, after the 768 bytes of the table; no local colour table;
    the minimum code size 8; and, as the last two bytes, the block
    terminator and the trailer [0x3B]. *)
Theorem Encode_header_fields {W} `{!Writer W} (V : View W)
    (NumCPU : Z) (m : image.Image) (o : option Options) (w : W) (base : list Z) :
  Reliable V → V w base →
  0 <= image.Dx (image.Bounds m) < 65536 →
  0 <= image.Dy (image.Bounds m) < 65536 →
  ∃ w' file,
    Encode NumCPU m o w = (None, w') ∧ V w' (base ++ file) ∧
    take 6 file = signature ∧
    readUint16 file 6 = image.Dx (image.Bounds m) ∧
    readUint16 file 8 = image.Dy (image.Bounds m) ∧
    file !! 10%nat = Some 135 ∧ file !! 11%nat = Some 0 ∧
    file !! 12%nat = Some 0 ∧
    file !! 781%nat = Some 44 ∧
    readUint16 file 782 = 0 ∧ readUint16 file 784 = 0 ∧
    readUint16 file 786 = image.Dx (image.Bounds m) ∧
    readUint16 file 788 = image.Dy (image.Bounds m) ∧
    file !! 790%nat = Some 0 ∧ file !! 791%nat = Some 8 ∧
    (794 <= length file)%nat ∧ drop (length file - 2) file = [0; 59].
Proof.
  intros HV Hw Hx Hy.
  destruct (Encode_ok V NumCPU m o w base HV Hw ltac:(lia) ltac:(lia))
    as (w' & pm & d & E & Hlay & Hpal & HDx & HDy).
  exists w', (fileLayout pm d). split; [done|]. split; [done|].
  unfold fileLayout, screenHeader, imageDescriptor.
  rewrite Hpal, HDx, HDy.
  destruct WebSafe_table as (-> & -> & -> & Hct).
  by apply layout_fields.
Qed.

Lemma Encode_header_fields_witness :
  Reliable Buffer_view ∧ Buffer_view (MkBuffer []) [] ∧
  0 <= image.Dx (image.Bounds (gradient 300 2)) < 65536 ∧
  0 <= image.Dy (image.Bounds (gradient 300 2)) < 65536 ∧
  ∃ w' file,
    Encode 1 (gradient 300 2) None (MkBuffer []) = (None, w') ∧
    Buffer_view w' ([] ++ file) ∧
    take 6 file = signature ∧
    readUint16 file 6 = 300 ∧ readUint16 file 8 = 2.
Proof.
  assert (Hx : 0 <= image.Dx (image.Bounds (gradient 300 2)) < 65536)
    by (vm_compute; split; [discriminate|reflexivity]).
  assert (Hy : 0 <= image.Dy (image.Bounds (gradient 300 2)) < 65536)
    by (vm_compute; split; [discriminate|reflexivity]).
  split; [apply Buffer_reliable|]. split; [reflexivity|].
  split; [exact Hx|]. split; [exact Hy|].
  destruct (Encode_header_fields Buffer_view 1 (gradient 300 2) None
              (MkBuffer []) [] Buffer_reliable eq_refl Hx Hy)
    as (w' & file & E & Hv & H6 & Hw & Hh & _).
  exists w', file.
  split; [exact E|]. split; [exact Hv|]. split; [exact H6|].
  split; [exact Hw|exact Hh].
Defined.

(** ** Reading the sub-blocks back *)

Lemma unframe_blocks (bs : list (list Z)) (rest : list Z) (fuel : nat) :
  Forall (λ c, 1 <= len c <= 255) bs → (length bs < fuel)%nat →
  unframe fuel (mjoin (frame <$> bs) ++ 0 :: rest) = mjoin bs.
Proof.
  revert fuel. induction bs as [|c bs IH]; intros fuel Hall Hfuel.
  { destruct fuel; [simpl in Hfuel; lia|]. simpl. done. }
  destruct fuel; [simpl in Hfuel; lia|].
  apply Forall_cons in Hall as [Hc Hall].
  csimpl. rewrite decide_False by lia.
  unfold len. rewrite Nat2Z.id, <- app_assoc, take_app_length, drop_app_length.
  f_equal. apply IH; [done|simpl in Hfuel; lia].
Qed.

Lemma frames_blocks_length (bs : list (list Z)) :
  length (mjoin (frame <$> bs)) = (length (mjoin bs) + length bs)%nat.
Proof.
  induction bs as [|c bs IH]; [done|].
  csimpl. rewrite !length_app, IH. simpl. lia.
Qed.

Lemma split_blocks_length k (l : list Z) :
  (255 * k <= length l < 255 * S k)%nat →
  length (split_blocks k l) =
  (k + if decide (length l = 255 * k)%nat then 0 else 1)%nat.
Proof.
  revert l. induction k as [|k IH]; intros l Hl.
  - by destruct l.
  - cbn [split_blocks length]. rewrite IH by (rewrite length_drop; lia).
    rewrite length_drop. repeat case_decide; lia.
Qed.

Lemma blocks_length (l : list Z) :
  len (blocks l) = (len l + 254) `div` 255.
Proof.
  unfold blocks, len.
  pose proof (Nat.div_mod_eq (length l) 255) as Hdm.
  pose proof (Nat.mod_upper_bound (length l) 255 ltac:(lia)) as Hm.
  rewrite split_blocks_length by lia.
  case_decide; lia.
Qed.

Lemma frames_length (l : list Z) :
  len (frames l) = len l + (len l + 254) `div` 255.
Proof.
  rewrite <- blocks_length. unfold frames, len.
  rewrite frames_blocks_length.
  destruct (blocks_spec l) as (-> & _). lia.
Qed.

Lemma readBlocks_frames (l rest : list Z) :
  readBlocks (frames l ++ 0 :: rest) = l.
Proof.
  unfold readBlocks, frames.
  destruct (blocks_spec l) as (Hj & Hall & _).
  rewrite unframe_blocks; [done|done|].
  rewrite length_app, frames_blocks_length. simpl. lia.
Qed.

Lemma frames_blocks_bytes (bs : list (list Z)) :
  Forall (λ c, 1 <= len c <= 255) bs →
  Forall (λ x, 0 <= x < 256) (mjoin bs) →
  Forall (λ x, 0 <= x < 256) (mjoin (frame <$> bs)).
Proof.
  induction bs as [|c bs IH]; intros Hall Hl; [done|].
  apply Forall_cons in Hall as [Hc Hall].
  csimpl in *.
  apply Forall_app in Hl as [Hl1 Hl2].
  apply Forall_cons. split; [lia|]. apply Forall_app. split; [done|by apply IH].
Qed.

Lemma frames_bytes (l : list Z) :
  Forall (λ x, 0 <= x < 256) l → Forall (λ x, 0 <= x < 256) (frames l).
Proof.
  intros Hl. unfold frames.
  destruct (blocks_spec l) as (Hj & Hall & _).
  apply frames_blocks_bytes; [done|by rewrite Hj].
Qed.

(** X12: what goes through the packetizer comes back.  After any
    sequence of writes and the final [close] on a dependable destination,
    a reader that takes sub-blocks up to the first zero-length block
    recovers exactly the bytes written, whatever follows the terminator;
    the framing adds one length byte per started block of 255 data bytes,
    and every byte written is a byte if the payload's are. *)
Theorem blockWriter_round_trip {W} `{!Writer W} (V : View W)
    (w0 : W) (base : list Z) (ps : list (list Z)) (rest : list Z) :
  Reliable V → V w0 base →
  ∃ b1 b2 out,
    blockWriter_writes ps (newBlockWriter w0) = (None, b1) ∧
    blockWriter_close b1 = (None, b2) ∧
    V (bw_w b2) (base ++ out) ∧
    readBlocks (out ++ 0 :: rest) = mjoin ps ∧
    len out = len (mjoin ps) + (len (mjoin ps) + 254) `div` 255 ∧
    (Forall (λ x, 0 <= x < 256) (mjoin ps) → Forall (λ x, 0 <= x < 256) out).
Proof.
  intros HV Hw0.
  destruct (blockWriter_writes_ok V HV base ps (newBlockWriter w0) [])
    as (b1 & E1 & H1); [by apply newBlockWriter_view|].
  rewrite app_nil_l in H1.
  destruct (blockWriter_close_ok V HV base b1 _ H1) as (b2 & E2 & H2 & _).
  exists b1, b2, (frames (mjoin ps)).
  split; [done|]. split; [done|]. split; [done|].
  split; [apply readBlocks_frames|]. split; [apply frames_length|].
  apply frames_bytes.
Qed.

Lemma blockWriter_round_trip_witness :
  Reliable Buffer_view ∧ Buffer_view (MkBuffer [9]) [9] ∧
  ∃ b1 b2 out,
    blockWriter_writes threeWrites (newBlockWriter (MkBuffer [9])) = (None, b1) ∧
    blockWriter_close b1 = (None, b2) ∧
    Buffer_view (bw_w b2) ([9] ++ out) ∧
    readBlocks (out ++ 0 :: [59]) = mjoin threeWrites ∧
    len out = len (mjoin threeWrites) + (len (mjoin threeWrites) + 254) `div` 255 ∧
    (Forall (λ x, 0 <= x < 256) (mjoin threeWrites) →
     Forall (λ x, 0 <= x < 256) out).
Proof.
  split; [exact Buffer_reliable|]. split; [reflexivity|].
  exact (blockWriter_round_trip Buffer_view (MkBuffer [9]) [9] threeWrites [59]
           Buffer_reliable eq_refl).
Defined.

(** ** The packetizer over any destination *)

Lemma copy_into_length (dst src : list Z) (i j : Z) :
  0 <= i <= j → j <= len dst →
  length (copy_into dst i j src).1 = length dst ∧
  (copy_into dst i j src).2 = Z.min (j - i) (len src).
Proof.
  intros Hi Hj. unfold copy_into, len in *. cbn [fst snd]. split; [|done].
  rewrite !length_app, !length_take, length_drop. lia.
Qed.

Lemma blockWriter_Write_loop_contract {W} `{!Writer W}
    fuel p total (b : blockWriter W) :
  length (bw_buf b) = 256%nat → 0 <= bw_n b <= 255 →
  ((length p < fuel)%nat ∨ (bw_n b < 255 ∧ (length p <= fuel)%nat)) →
  let r := blockWriter_Write_loop fuel p total b in
  total <= r.1.1 <= total + len p ∧
  (r.1.2 = None →
   r.1.1 = total + len p ∧ (bw_n b < 255 ∨ p ≠ [] → bw_n r.2 < 255)) ∧
  (r.1.2 ≠ None → bw_n r.2 = 255) ∧
  length (bw_buf r.2) = 256%nat ∧ 0 <= bw_n r.2 <= 255.
Proof.
  revert p total b.
  induction fuel as [|fuel IH]; intros p total b Hbuf Hn Hfuel.
  { destruct p; [|simpl in Hfuel; lia].
    cbn [blockWriter_Write_loop fst snd]. unfold len. simpl.
    repeat split; intros; try done; try lia; intuition (try done; lia). }
  cbn [blockWriter_Write_loop]. case_decide as Hp.
  2:{ assert (p = []) as -> by (destruct p; [done|unfold len in Hp; simpl in Hp; lia]).
      cbn [fst snd]. unfold len. simpl.
      repeat split; intros; try done; try lia; intuition (try done; lia). }
  destruct (copy_into_length (bw_buf b) p (bw_n b + 1) 256) as [Hlen Hc];
    [lia|unfold len; lia|].
  destruct (copy_into (bw_buf b) (bw_n b + 1) 256 p) as [buf c].
  cbn [fst snd] in Hlen, Hc.
  assert (Hc0 : 0 <= c <= len p) by (unfold len in *; lia).
  assert (Hdrop : length (drop (Z.to_nat c) p) = (length p - Z.to_nat c)%nat)
    by apply length_drop.
  case_decide as Hfull.
  - destruct (Write (slice (<[0%nat:=255]> buf) 0 256) (bw_w b)) as [[k e] w'].
    destruct e as [e|].
    + cbn [fst snd bw_n bw_buf]. rewrite length_insert.
      repeat split; try done; lia.
    + specialize (IH (drop (Z.to_nat c) p) (total + c)
                     (MkBlockWriter w' (<[0%nat:=255]> buf) 0)).
      cbn [bw_buf bw_n] in IH. rewrite length_insert in IH.
      destruct IH as (H1 & H2 & H3 & H4 & H5); [lia|lia| |].
      { right. split; [lia|]. unfold len in *. lia. }
      split; [unfold len in *; lia|]. split; [|done].
      intros He. destruct (H2 He) as [H6 H7].
      split; [unfold len in *; lia|]. intros _. apply H7. by left.
  - assert (c = len p) as -> by lia.
    rewrite drop_ge by (unfold len; lia).
    destruct fuel; cbn [blockWriter_Write_loop fst snd bw_n bw_buf];
      [|rewrite decide_False by (unfold len; simpl; lia);
        cbn [fst snd bw_n bw_buf]];
      (repeat split; try done; try lia).
Qed.

(** X13: [blockWriter.Write] keeps to the contract of [io.Writer] over any
    destination, failing or not: the count it returns is between 0 and
    [len(p)], and is [len(p)] unless it returns an error; it returns an
    error only when a full block of 255 bytes could not be written, and
    that block then stays pending; otherwise fewer than 255 bytes are
    pending when it returns. *)
Theorem blockWriter_Write_contract {W} `{!Writer W}
    (p : list Z) (b : blockWriter W) :
  length (bw_buf b) = 256%nat → 0 <= bw_n b <= 255 →
  let r := blockWriter_Write p b in
  0 <= r.1.1 <= len p ∧
  (r.1.2 = None → r.1.1 = len p) ∧
  (r.1.2 = None → bw_n b < 255 ∨ p ≠ [] → bw_n r.2 < 255) ∧
  (r.1.2 ≠ None → bw_n r.2 = 255) ∧
  length (bw_buf r.2) = 256%nat ∧ 0 <= bw_n r.2 <= 255.
Proof.
  intros Hbuf Hn r.
  destruct (blockWriter_Write_loop_contract (S (length p)) p 0 b Hbuf Hn)
    as (H1 & H2 & H3 & H4 & H5); [left; lia|].
  fold (blockWriter_Write p b) in *. fold r in H1, H2, H3, H4, H5.
  split; [lia|]. split; [intros He; destruct (H2 He); lia|].
  split; [intros He; by destruct (H2 He)|]. done.
Qed.

Lemma blockWriter_Write_contract_witness :
  length (bw_buf (newBlockWriter (MkLimited [] 300))) = 256%nat ∧
  0 <= bw_n (newBlockWriter (MkLimited [] 300)) <= 255 ∧
  let r := blockWriter_Write (replicate 600 7) (newBlockWriter (MkLimited [] 300)) in
  r.1 = (510, Some (ErrSink 28)) ∧ bw_n r.2 = 255 ∧
  0 <= r.1.1 <= len (replicate 600 7).
Proof.
  assert (H1 : length (bw_buf (newBlockWriter (MkLimited [] 300))) = 256%nat)
    by reflexivity.
  assert (H2 : 0 <= bw_n (newBlockWriter (MkLimited [] 300)) <= 255)
    by (vm_compute; split; discriminate).
  split; [exact H1|]. split; [exact H2|].
  pose proof (blockWriter_Write_contract (replicate 600 7)
                (newBlockWriter (MkLimited [] 300)) H1 H2) as (H3 & _).
  split; [vm_compute; reflexivity|]. split; [vm_compute; reflexivity|exact H3].
Defined.

(** ** The model at work *)

(** What the writer compresses, the reader gives back: 700 bytes, enough
    for the codes to grow from 9 to 10 bits, framed in three blocks. *)
Example lzw_round_trip :
  let c := compressToBuffer 8 (sampleBytes 700) in
  c.1 = None ∧ 2 * 255 < len c.2 ∧
  decodeImageData 8 (c.2 ++ [0]) = (sampleBytes 700, lzw.EndOfData).
Proof. vm_compute. repeat split. Qed.

(** With codes of 3 bits a byte of 8 or more is refused. *)
Example lzw_input_too_large :
  compressToBuffer 3 [1; 2; 8] = (Some (ErrLzw lzw.ErrInputTooLarge), []).
Proof. reflexivity. Qed.

(** A red pixel: index 180, and entry 180 of the colour table is
    (255, 0, 0). *)
Example red_pixel_file :
  let r := Encode 1 (solid 1 1 (color.RGBA 255 0 0 255)) None (MkBuffer []) in
  r.1 = None ∧
  imageDataOf 256 (Bytes r.2) = [4; 0; 105; 5; 4; 0; 59] ∧
  decodeImageData 8 (imageDataOf 256 (Bytes r.2)) = ([180], lzw.EndOfData) ∧
  slice (Bytes r.2) (13 + 3 * 180) (13 + 3 * 180 + 3) = [255; 0; 0].
Proof. vm_compute. repeat split. Qed.

(** A sink that fails: the file of a 1 x 1 image fits the buffer of the
    buffered writer, so the failure comes out of the final [Flush]. *)
Example failing_sink :
  Encode 1 (solid 1 1 (color.RGBA 255 0 0 255)) None (MkLimited [] 10) =
  (Some (ErrWrite (ErrSink 28)),
   MkLimited [71; 73; 70; 56; 57; 97; 1; 0; 1; 0] 0).
Proof. vm_compute. reflexivity. Qed.

(** The file of a 1 x 8 image written with 2 workers: a decoder gets four
    of the eight pixels. *)
Example parallel_file_truncated :
  let one := Encode 4 (gradient 1 8) (Some (MkOptions 1)) (MkBuffer []) in
  let two := Encode 4 (gradient 1 8) (Some (MkOptions 2)) (MkBuffer []) in
  one.1 = None ∧ two.1 = None ∧
  decodeImageData 8 (imageDataOf 256 (Bytes one.2)) =
    ([0; 42; 48; 90; 96; 138; 150; 156], lzw.EndOfData) ∧
  decodeImageData 8 (imageDataOf 256 (Bytes two.2)) =
    ([0; 42; 48; 90], lzw.EndOfData).
Proof. vm_compute. repeat split. Qed.
